(** * The client-side upload queue of the face data collector

    A shallow embedding of [src/hooks/useUploadQueue.ts], of the offline
    store [src/lib/indexed-db.ts] and of [getBackoffDelay] from the utility
    helpers, followed by the properties of the delivery engine.

    Conventions of the embedding.
    - JavaScript numbers that hold counters are [Z]; delays, which go through
      [Math.random] and [Math.pow], are exact rationals [Q] (IEEE rounding is
      not modelled).
    - [Math.random()] is a parameter [rnd] of the function that calls it.
    - React state ([useState]) and refs ([useRef]) are fields of one record
      [Engine]; a [setState] call is a field update, and the effects that run
      at a commit are the function [commit].
    - The suspended [await]s of [processNext] and the pending [setTimeout]
      callbacks are explicit lists in [Engine]; an [Event] resumes one of
      them or calls one of the functions the hook returns.
    - The idb-keyval store is a [gmap] from keys to stored captures. *)

From Stdlib Require Import ZArith QArith Qround Qminmax Qpower String List Lia Lqa.
From stdpp Require Import base option list gmap strings pretty.

Local Open Scope string_scope.
Local Open Scope Z_scope.

(* ================================================================= *)
(** ** Types ([src/types/index.ts]) *)

Inductive LabelType :=
| looking_center | looking_down | looking_up | looking_left
| looking_right | no_face | with_cellphone.

(** The literal types ['A' | 'B'] and ['user' | 'environment']. *)
Inductive PhaseTag := PhaseA | PhaseB.
Inductive CameraFacing := facing_user | facing_environment.

Record CaptureMetadata := {
  label : LabelType;
  phase : PhaseTag;
  seq : Z;
  timestamp_iso : string;
  ua : string;
  session_id : string;
  camera_facing : CameraFacing;
  device_platform : string
}.

(** ['pending' | 'uploading' | 'success' | 'error'] *)
Inductive Status := Pending | Uploading | Success | Error.

Record CaptureItem := {
  id : string;
  imageBase64 : string;
  metadata : CaptureMetadata;
  filename : string;
  status : Status;
  retryCount : Z;
  errorMessage : option string;
  driveFileId : option string
}.

#[global] Instance LabelType_eq_dec : EqDecision LabelType.
Proof. solve_decision. Defined.
#[global] Instance PhaseTag_eq_dec : EqDecision PhaseTag.
Proof. solve_decision. Defined.
#[global] Instance CameraFacing_eq_dec : EqDecision CameraFacing.
Proof. solve_decision. Defined.
#[global] Instance CaptureMetadata_eq_dec : EqDecision CaptureMetadata.
Proof. solve_decision. Defined.
#[global] Instance Status_eq_dec : EqDecision Status.
Proof. solve_decision. Defined.
#[global] Instance CaptureItem_eq_dec : EqDecision CaptureItem.
Proof. solve_decision. Defined.

(** The object spreads [{ ...q, status: s }] and friends. *)
Definition with_status (s : Status) (q : CaptureItem) : CaptureItem :=
  {| id := id q; imageBase64 := imageBase64 q; metadata := metadata q;
     filename := filename q; status := s; retryCount := retryCount q;
     errorMessage := errorMessage q; driveFileId := driveFileId q |}.

Definition with_retryCount (n : Z) (q : CaptureItem) : CaptureItem :=
  {| id := id q; imageBase64 := imageBase64 q; metadata := metadata q;
     filename := filename q; status := status q; retryCount := n;
     errorMessage := errorMessage q; driveFileId := driveFileId q |}.

Definition with_errorMessage (m : string) (q : CaptureItem) : CaptureItem :=
  {| id := id q; imageBase64 := imageBase64 q; metadata := metadata q;
     filename := filename q; status := status q; retryCount := retryCount q;
     errorMessage := Some m; driveFileId := driveFileId q |}.

(* ================================================================= *)
(** ** Queue computations of the hook ([src/hooks/useUploadQueue.ts]) *)

Definition MAX_RETRIES : Z := 5.
Definition DELAY_BETWEEN_UPLOADS_MS : Z := 300.

Definition is_status (s : Status) (item : CaptureItem) : bool :=
  bool_decide (status item = s).

(** The predicate of [currentQueue.find] in [processNext] and of
    [queue.some] in the auto-start effect. *)
Definition eligible (item : CaptureItem) : bool :=
  is_status Pending item && (retryCount item <? MAX_RETRIES).

(** [currentQueue.find(...)]: the first match in array order. *)
Definition nextEligible (currentQueue : list CaptureItem) : option CaptureItem :=
  List.find eligible currentQueue.

(** [queue.some(...)] of the auto-start effect. *)
Definition hasPending (queue : list CaptureItem) : bool :=
  List.existsb eligible queue.

Record UploadProgress := {
  success : nat;
  failed : nat;
  pending : nat
}.

(** [const uploadProgress = {...}], recomputed from [queue] at each render. *)
Definition uploadProgress (queue : list CaptureItem) : UploadProgress :=
  {| success := length (List.filter (is_status Success) queue);
     failed := length (List.filter
                 (fun item => is_status Error item && (MAX_RETRIES <=? retryCount item))
                 queue);
     pending := length (List.filter
                 (fun item => is_status Pending item || is_status Uploading item)
                 queue) |}.

(** The updater [prev.map(q => q.id === nextItem.id ? {...q, status} : q)]. *)
Definition markStatus (target : string) (s : Status) (prev : list CaptureItem)
  : list CaptureItem :=
  List.map (fun q => if String.eqb (id q) target then with_status s q else q) prev.

(** The updater of the error branch of [processNext]. *)
Definition retryMessage (newRetryCount : Z) : string :=
  "Upload failed, retry " +:+ pretty newRetryCount +:+ "/" +:+ pretty MAX_RETRIES.

Definition markError (nextItem : CaptureItem) (prev : list CaptureItem)
  : list CaptureItem :=
  let newRetryCount := retryCount nextItem + 1 in
  let isFinalFailure := MAX_RETRIES <=? newRetryCount in
  List.map (fun q =>
    if String.eqb (id q) (id nextItem) then
      with_errorMessage
        (if isFinalFailure then "Max retries exceeded" else retryMessage newRetryCount)
        (with_retryCount newRetryCount
          (with_status (if isFinalFailure then Error else Pending) q))
    else q) prev.

(** The updater of [retryFailed]. *)
Definition retryFailed_update (prev : list CaptureItem) : list CaptureItem :=
  List.map (fun item =>
    if is_status Error item && (MAX_RETRIES <=? retryCount item)
    then with_retryCount 0 (with_status Pending item)
    else item) prev.

(* ================================================================= *)
(** ** Backoff computations *)

(** [getBackoffDelay(attempt, baseDelay = 1000, maxDelay = 30000)] of the
    utility helpers; [rnd] is the value of [Math.random()]. *)
Definition getBackoffDelay_with (rnd : Q) (attempt : Z) (baseDelay maxDelay : Q) : Z :=
  let delay := Qmin (baseDelay * Qpower 2 attempt) maxDelay in
  let jitter := (delay * (1 # 10) * (rnd * 2 - 1))%Q in
  Qfloor (delay + jitter).

Definition getBackoffDelay (rnd : Q) (attempt : Z) : Z :=
  getBackoffDelay_with rnd attempt 1000 30000.

(** The pause of the rate-limit branch of [processNext]:
    [baseBackoffMs], [backoffMs], [jitter] and [totalWaitMs]. *)
Definition baseBackoffMs : Q := 30000.

Definition backoffMs (hitCount : Z) : Q :=
  Qmin (baseBackoffMs * Qpower 2 (hitCount - 1)) 180000.

Definition rateLimitJitter (rnd : Q) : Q := (rnd * 5000)%Q.

Definition totalWaitMs (rnd : Q) (hitCount : Z) : Q :=
  (backoffMs hitCount + rateLimitJitter rnd)%Q.

(* ================================================================= *)
(** ** The offline store ([src/lib/indexed-db.ts])

    The idb-keyval database is a finite map from keys to stored captures;
    [set], [del], [keys] and [get] are insertion, deletion, the key list and
    lookup.  Each asynchronous operation is taken as one atomic step. *)

Definition STORE_PREFIX : string := "upload_queue_".

Definition saveToOfflineQueue (capture : CaptureItem)
    (db : gmap string CaptureItem) : gmap string CaptureItem :=
  let key := STORE_PREFIX +:+ id capture in
  <[key := capture]> db.

Definition removeFromOfflineQueue (captureId : string)
    (db : gmap string CaptureItem) : gmap string CaptureItem :=
  let key := STORE_PREFIX +:+ captureId in
  delete key db.

Definition queueKeys (db : gmap string CaptureItem) : list string :=
  let allKeys := (map_to_list db).*1 in
  List.filter (String.prefix STORE_PREFIX) allKeys.

Definition getOfflineQueue (db : gmap string CaptureItem) : list CaptureItem :=
  omap (fun key => db !! key) (queueKeys db).

Definition clearOfflineQueue (db : gmap string CaptureItem)
  : gmap string CaptureItem :=
  foldr delete db (queueKeys db).

Definition getOfflineQueueCount (db : gmap string CaptureItem) : nat :=
  length (queueKeys db).

(* ================================================================= *)
(** ** The engine: state, refs, timers and suspended calls *)

(** What [uploadItem] resolves to: ['success' | 'error' | 'rate_limit']. *)
Inductive UploadResult := upload_success | upload_error | upload_rate_limit.

(** The two callbacks the hook hands to [setTimeout] and keeps a handle of:
    [() => { if (mountedRef.current) processNext(); }] and the resumption
    after a rate-limit pause. *)
Inductive Callback := NextTick | RateLimitResume.

Record Timer := {
  timer_handle : nat;
  timer_callback : Callback;
  timer_delay : Q
}.

(** The two [await]s of [processNext]: the per-item backoff and the call
    of [uploadItem]. *)
Inductive AwaitPoint := AwaitBackoff (delay : Z) | AwaitUpload.

(** A suspended call of [processNext] with its captured [nextItem]. *)
Record Suspended := {
  await_point : AwaitPoint;
  nextItem : CaptureItem
}.

Record Engine := {
  (* useState *)
  queue : list CaptureItem;
  isUploading : bool;
  isRateLimited : bool;
  (* useRef *)
  mountedRef : bool;
  processingRef : bool;
  nextTimerRef : option nat;
  rateLimitTimerRef : option nat;
  queueRef : list CaptureItem;
  consecutiveRateLimitsRef : Z;
  (* the environment: the pending timeouts of [nextTimerRef] and
     [rateLimitTimerRef], the next handle of [setTimeout], and the suspended
     calls of [processNext]; the backoff sleep of a call, a [setTimeout]
     whose handle is not kept, is the call suspended at [AwaitBackoff] *)
  timers : list Timer;
  nextHandle : nat;
  awaiting : list Suspended;
  offlineDb : gmap string CaptureItem
}.

Definition set_queue (v : list CaptureItem) (e : Engine) : Engine :=
  {| queue := v; isUploading := isUploading e;
     isRateLimited := isRateLimited e; mountedRef := mountedRef e;
     processingRef := processingRef e; nextTimerRef := nextTimerRef e;
     rateLimitTimerRef := rateLimitTimerRef e; queueRef := queueRef e;
     consecutiveRateLimitsRef := consecutiveRateLimitsRef e;
     timers := timers e; nextHandle := nextHandle e; awaiting := awaiting e;
     offlineDb := offlineDb e |}.

Definition set_isUploading (v : bool) (e : Engine) : Engine :=
  {| queue := queue e; isUploading := v; isRateLimited := isRateLimited e;
     mountedRef := mountedRef e; processingRef := processingRef e;
     nextTimerRef := nextTimerRef e;
     rateLimitTimerRef := rateLimitTimerRef e; queueRef := queueRef e;
     consecutiveRateLimitsRef := consecutiveRateLimitsRef e;
     timers := timers e; nextHandle := nextHandle e; awaiting := awaiting e;
     offlineDb := offlineDb e |}.

Definition set_isRateLimited (v : bool) (e : Engine) : Engine :=
  {| queue := queue e; isUploading := isUploading e; isRateLimited := v;
     mountedRef := mountedRef e; processingRef := processingRef e;
     nextTimerRef := nextTimerRef e;
     rateLimitTimerRef := rateLimitTimerRef e; queueRef := queueRef e;
     consecutiveRateLimitsRef := consecutiveRateLimitsRef e;
     timers := timers e; nextHandle := nextHandle e; awaiting := awaiting e;
     offlineDb := offlineDb e |}.

Definition set_mountedRef (v : bool) (e : Engine) : Engine :=
  {| queue := queue e; isUploading := isUploading e;
     isRateLimited := isRateLimited e; mountedRef := v;
     processingRef := processingRef e; nextTimerRef := nextTimerRef e;
     rateLimitTimerRef := rateLimitTimerRef e; queueRef := queueRef e;
     consecutiveRateLimitsRef := consecutiveRateLimitsRef e;
     timers := timers e; nextHandle := nextHandle e; awaiting := awaiting e;
     offlineDb := offlineDb e |}.

Definition set_processingRef (v : bool) (e : Engine) : Engine :=
  {| queue := queue e; isUploading := isUploading e;
     isRateLimited := isRateLimited e; mountedRef := mountedRef e;
     processingRef := v; nextTimerRef := nextTimerRef e;
     rateLimitTimerRef := rateLimitTimerRef e; queueRef := queueRef e;
     consecutiveRateLimitsRef := consecutiveRateLimitsRef e;
     timers := timers e; nextHandle := nextHandle e; awaiting := awaiting e;
     offlineDb := offlineDb e |}.

Definition set_nextTimerRef (v : option nat) (e : Engine) : Engine :=
  {| queue := queue e; isUploading := isUploading e;
     isRateLimited := isRateLimited e; mountedRef := mountedRef e;
     processingRef := processingRef e; nextTimerRef := v;
     rateLimitTimerRef := rateLimitTimerRef e; queueRef := queueRef e;
     consecutiveRateLimitsRef := consecutiveRateLimitsRef e;
     timers := timers e; nextHandle := nextHandle e; awaiting := awaiting e;
     offlineDb := offlineDb e |}.

Definition set_rateLimitTimerRef (v : option nat) (e : Engine) : Engine :=
  {| queue := queue e; isUploading := isUploading e;
     isRateLimited := isRateLimited e; mountedRef := mountedRef e;
     processingRef := processingRef e; nextTimerRef := nextTimerRef e;
     rateLimitTimerRef := v; queueRef := queueRef e;
     consecutiveRateLimitsRef := consecutiveRateLimitsRef e;
     timers := timers e; nextHandle := nextHandle e; awaiting := awaiting e;
     offlineDb := offlineDb e |}.

Definition set_queueRef (v : list CaptureItem) (e : Engine) : Engine :=
  {| queue := queue e; isUploading := isUploading e;
     isRateLimited := isRateLimited e; mountedRef := mountedRef e;
     processingRef := processingRef e; nextTimerRef := nextTimerRef e;
     rateLimitTimerRef := rateLimitTimerRef e; queueRef := v;
     consecutiveRateLimitsRef := consecutiveRateLimitsRef e;
     timers := timers e; nextHandle := nextHandle e; awaiting := awaiting e;
     offlineDb := offlineDb e |}.

Definition set_consecutiveRateLimitsRef (v : Z) (e : Engine) : Engine :=
  {| queue := queue e; isUploading := isUploading e;
     isRateLimited := isRateLimited e; mountedRef := mountedRef e;
     processingRef := processingRef e; nextTimerRef := nextTimerRef e;
     rateLimitTimerRef := rateLimitTimerRef e; queueRef := queueRef e;
     consecutiveRateLimitsRef := v; timers := timers e;
     nextHandle := nextHandle e; awaiting := awaiting e;
     offlineDb := offlineDb e |}.

Definition set_timers (v : list Timer) (e : Engine) : Engine :=
  {| queue := queue e; isUploading := isUploading e;
     isRateLimited := isRateLimited e; mountedRef := mountedRef e;
     processingRef := processingRef e; nextTimerRef := nextTimerRef e;
     rateLimitTimerRef := rateLimitTimerRef e; queueRef := queueRef e;
     consecutiveRateLimitsRef := consecutiveRateLimitsRef e; timers := v;
     nextHandle := nextHandle e; awaiting := awaiting e;
     offlineDb := offlineDb e |}.

Definition set_nextHandle (v : nat) (e : Engine) : Engine :=
  {| queue := queue e; isUploading := isUploading e;
     isRateLimited := isRateLimited e; mountedRef := mountedRef e;
     processingRef := processingRef e; nextTimerRef := nextTimerRef e;
     rateLimitTimerRef := rateLimitTimerRef e; queueRef := queueRef e;
     consecutiveRateLimitsRef := consecutiveRateLimitsRef e;
     timers := timers e; nextHandle := v; awaiting := awaiting e;
     offlineDb := offlineDb e |}.

Definition set_awaiting (v : list Suspended) (e : Engine) : Engine :=
  {| queue := queue e; isUploading := isUploading e;
     isRateLimited := isRateLimited e; mountedRef := mountedRef e;
     processingRef := processingRef e; nextTimerRef := nextTimerRef e;
     rateLimitTimerRef := rateLimitTimerRef e; queueRef := queueRef e;
     consecutiveRateLimitsRef := consecutiveRateLimitsRef e;
     timers := timers e; nextHandle := nextHandle e; awaiting := v;
     offlineDb := offlineDb e |}.

Definition set_offlineDb (v : gmap string CaptureItem) (e : Engine) : Engine :=
  {| queue := queue e; isUploading := isUploading e;
     isRateLimited := isRateLimited e; mountedRef := mountedRef e;
     processingRef := processingRef e; nextTimerRef := nextTimerRef e;
     rateLimitTimerRef := rateLimitTimerRef e; queueRef := queueRef e;
     consecutiveRateLimitsRef := consecutiveRateLimitsRef e;
     timers := timers e; nextHandle := nextHandle e; awaiting := awaiting e;
     offlineDb := v |}.

(** A mounted engine with nothing queued, over a given offline store. *)
Definition initialEngine (db : gmap string CaptureItem) : Engine :=
  {| queue := []; isUploading := false; isRateLimited := false;
     mountedRef := true; processingRef := false; nextTimerRef := None;
     rateLimitTimerRef := None; queueRef := [];
     consecutiveRateLimitsRef := 0; timers := []; nextHandle := 1%nat;
     awaiting := []; offlineDb := db |}.

(** [setQueue((prev) => f(prev))]. *)
Definition setQueue (f : list CaptureItem → list CaptureItem) (e : Engine) : Engine :=
  set_queue (f (queue e)) e.

(** [setTimeout(cb, delay)] returns a fresh handle; handles start at 1, so
    a stored handle is truthy. *)
Definition setTimeout (cb : Callback) (delay : Q) (e : Engine) : nat * Engine :=
  let h := nextHandle e in
  let t := {| timer_handle := h; timer_callback := cb; timer_delay := delay |} in
  (h, set_nextHandle (S h) (set_timers (timers e ++ [t]) e)).

Definition clearTimeout (h : nat) (e : Engine) : Engine :=
  set_timers (List.filter (fun t => negb (Nat.eqb (timer_handle t) h)) (timers e)) e.

(** [if (ref.current) clearTimeout(ref.current)]. *)
Definition clearTimeoutRef (ref : option nat) (e : Engine) : Engine :=
  match ref with
  | Some h => clearTimeout h e
  | None => e
  end.

(** [processNext], up to its first [await]. *)
Definition processNext (rnd : Q) (e : Engine) : Engine :=
  if negb (mountedRef e) then e else
  let currentQueue := queueRef e in
  match nextEligible currentQueue with
  | None =>
      set_isUploading false (set_processingRef false e)
  | Some next =>
      let e := set_isUploading true e in
      let e := setQueue (markStatus (id next) Uploading) e in
      let point :=
        if 0 <? retryCount next
        then AwaitBackoff (getBackoffDelay rnd (retryCount next))
        else AwaitUpload in
      set_awaiting (awaiting e ++ [{| await_point := point; nextItem := next |}]) e
  end.

(** [processNext] resumed after [await new Promise(... setTimeout(resolve, delay))]. *)
Definition resumeAfterBackoff (k : nat) (e : Engine) : Engine :=
  match awaiting e !! k with
  | Some {| await_point := AwaitBackoff _; nextItem := next |} =>
      if negb (mountedRef e) then set_awaiting (delete k (awaiting e)) e
      else set_awaiting
             (<[k := {| await_point := AwaitUpload; nextItem := next |}]> (awaiting e)) e
  | _ => e
  end.

(** The three branches of [processNext] after [await uploadItem(nextItem)]. *)
Definition onSuccess (next : CaptureItem) (e : Engine) : Engine :=
  let e := set_consecutiveRateLimitsRef 0 e in
  let e := setQueue (markStatus (id next) Success) e in
  let e := set_offlineDb (removeFromOfflineQueue (id next) (offlineDb e)) e in
  let '(h, e) := setTimeout NextTick (inject_Z DELAY_BETWEEN_UPLOADS_MS) e in
  set_nextTimerRef (Some h) e.

Definition onRateLimit (rnd : Q) (next : CaptureItem) (e : Engine) : Engine :=
  let e := set_consecutiveRateLimitsRef (consecutiveRateLimitsRef e + 1) e in
  let hitCount := consecutiveRateLimitsRef e in
  let e := setQueue (markStatus (id next) Pending) e in
  let e := set_isRateLimited true e in
  let e := set_isUploading false e in
  let '(h, e) := setTimeout RateLimitResume (totalWaitMs rnd hitCount) e in
  set_rateLimitTimerRef (Some h) e.

Definition onError (next : CaptureItem) (e : Engine) : Engine :=
  let newRetryCount := retryCount next + 1 in
  let isFinalFailure := MAX_RETRIES <=? newRetryCount in
  let e := setQueue (markError next) e in
  let e :=
    if isFinalFailure
    then set_offlineDb
           (saveToOfflineQueue
              (with_retryCount newRetryCount (with_status Error next))
              (offlineDb e)) e
    else e in
  let '(h, e) := setTimeout NextTick (inject_Z DELAY_BETWEEN_UPLOADS_MS) e in
  set_nextTimerRef (Some h) e.

(** [processNext] resumed after [await uploadItem(nextItem)]. *)
Definition resumeAfterUpload (rnd : Q) (k : nat) (result : UploadResult)
    (e : Engine) : Engine :=
  match awaiting e !! k with
  | Some {| await_point := AwaitUpload; nextItem := next |} =>
      let e := set_awaiting (delete k (awaiting e)) e in
      if negb (mountedRef e) then e else
      match result with
      | upload_success => onSuccess next e
      | upload_rate_limit => onRateLimit rnd next e
      | upload_error => onError next e
      end
  | _ => e
  end.

(** A pending timeout fires: it leaves the timer list and runs its callback. *)
Definition runCallback (rnd : Q) (cb : Callback) (e : Engine) : Engine :=
  match cb with
  | NextTick =>
      if mountedRef e then processNext rnd e else e
  | RateLimitResume =>
      if mountedRef e then processNext rnd (set_isRateLimited false e) else e
  end.

Definition fireTimer (rnd : Q) (h : nat) (e : Engine) : Engine :=
  match List.find (fun t => Nat.eqb (timer_handle t) h) (timers e) with
  | Some t => runCallback rnd (timer_callback t) (clearTimeout h e)
  | None => e
  end.

(** [startProcessing] and the auto-start effect. *)
Definition startProcessing (rnd : Q) (e : Engine) : Engine :=
  if processingRef e || negb (mountedRef e) then e
  else processNext rnd (set_processingRef true e).

Definition autoStart (rnd : Q) (e : Engine) : Engine :=
  if hasPending (queue e) && negb (processingRef e) && negb (isRateLimited e)
  then startProcessing rnd e
  else e.

(** The effect [queueRef.current = queue]. *)
Definition syncQueueRef (e : Engine) : Engine := set_queueRef (queue e) e.

(** The effects of a commit, in declaration order; the state update made by
    an auto-started [processNext] is committed in turn. *)
Definition commit (rnd : Q) (e : Engine) : Engine :=
  syncQueueRef (autoStart rnd (syncQueueRef e)).

(** The functions the hook returns. *)
Definition LabelType_str (l : LabelType) : string :=
  match l with
  | looking_center => "looking_center"
  | looking_down => "looking_down"
  | looking_up => "looking_up"
  | looking_left => "looking_left"
  | looking_right => "looking_right"
  | no_face => "no_face"
  | with_cellphone => "with_cellphone"
  end.

Definition PhaseTag_str (p : PhaseTag) : string :=
  match p with PhaseA => "A" | PhaseB => "B" end.

(** [newId] is the result of [generateSessionId()], [now] of [Date.now()]. *)
Definition newItem (newId : string) (now : Z) (image : string)
    (meta : CaptureMetadata) : CaptureItem :=
  {| id := newId;
     imageBase64 := image;
     metadata := meta;
     filename := LabelType_str (label meta) +:+ "_phase" +:+ PhaseTag_str (phase meta)
                 +:+ "_" +:+ pretty (seq meta) +:+ "_" +:+ pretty now +:+ ".jpg";
     status := Pending;
     retryCount := 0;
     errorMessage := None;
     driveFileId := None |}.

Definition addToQueue (newId : string) (now : Z) (image : string)
    (meta : CaptureMetadata) (e : Engine) : Engine :=
  setQueue (fun prev => (prev ++ [newItem newId now image meta])%list) e.

Definition retryFailed (e : Engine) : Engine :=
  setQueue retryFailed_update e.

Definition clearQueue (e : Engine) : Engine :=
  let e := setQueue (fun _ => []) e in
  let e := set_processingRef false e in
  let e := clearTimeoutRef (nextTimerRef e) e in
  clearTimeoutRef (rateLimitTimerRef e) e.

Definition loadOfflineQueue (e : Engine) : Engine :=
  let offlineItems := getOfflineQueue (offlineDb e) in
  if (0 <? length offlineItems)%nat
  then setQueue (fun prev => (prev ++ offlineItems)%list) e
  else e.

(** The cleanup of the mount effect. *)
Definition unmount (e : Engine) : Engine :=
  let e := set_mountedRef false e in
  let e := clearTimeoutRef (nextTimerRef e) e in
  clearTimeoutRef (rateLimitTimerRef e) e.

(** ** Events and steps *)

Inductive Event :=
| EvAddToQueue (newId : string) (now : Z) (image : string) (meta : CaptureMetadata)
| EvRetryFailed
| EvClearQueue
| EvLoadOfflineQueue
| EvBackoffElapsed (k : nat)
| EvUploadSettled (k : nat) (result : UploadResult)
| EvTimeout (h : nat)
| EvUnmount.

Definition handler (rnd : Q) (ev : Event) (e : Engine) : Engine :=
  match ev with
  | EvAddToQueue newId now image meta => addToQueue newId now image meta e
  | EvRetryFailed => retryFailed e
  | EvClearQueue => clearQueue e
  | EvLoadOfflineQueue => loadOfflineQueue e
  | EvBackoffElapsed k => resumeAfterBackoff k e
  | EvUploadSettled k result => resumeAfterUpload rnd k result e
  | EvTimeout h => fireTimer rnd h e
  | EvUnmount => unmount e
  end.

(** One event, then the commit React runs while the hook is mounted. *)
Definition step (rnd : Q) (ev : Event) (e : Engine) : Engine :=
  let e' := handler rnd ev e in
  if mountedRef e' then commit rnd e' else e'.

(** A run feeds events, each with its random draw, from left to right. *)
Definition run (evs : list (Q * Event)) (e : Engine) : Engine :=
  fold_left (fun e '(rnd, ev) => step rnd ev e) evs e.

(* ================================================================= *)
(** ** Predicates used in the statements *)

(** An item at the retry ceiling: what [retryFailed] resets and what the
    [failed] bucket counts. *)
Definition atCeiling (item : CaptureItem) : Prop :=
  status item = Error ∧ MAX_RETRIES ≤ retryCount item.

#[global] Instance atCeiling_dec item : Decision (atCeiling item).
Proof. unfold atCeiling. apply _. Defined.

(** The item [processNext] may pick. *)
Definition isEligible (item : CaptureItem) : Prop :=
  status item = Pending ∧ retryCount item < MAX_RETRIES.

(** Number of items of a given status. *)
Definition countStatus (s : Status) (q : list CaptureItem) : nat :=
  length (List.filter (is_status s) q).

(** Every ['error'] item is at the retry ceiling. *)
Definition errorsAtCeiling (q : list CaptureItem) : Prop :=
  ∀ item, item ∈ q → status item = Error → MAX_RETRIES ≤ retryCount item.


(** The same for the captures kept in the offline store. *)
Definition storeAtCeiling (db : gmap string CaptureItem) : Prop :=
  ∀ key item, db !! key = Some item → status item = Error →
    MAX_RETRIES ≤ retryCount item.

Definition ceilingInv (e : Engine) : Prop :=
  errorsAtCeiling (queue e) ∧ storeAtCeiling (offlineDb e).

(** The events that are neither an ['error'] outcome nor a call of a
    function the hook returns. *)
Definition keepsRetryCount (ev : Event) : Prop :=
  match ev with
  | EvBackoffElapsed _ | EvTimeout _ | EvUnmount => True
  | EvUploadSettled _ result => result ≠ upload_error
  | _ => False
  end.

Definition idRetryCount (item : CaptureItem) : string * Z :=
  (id item, retryCount item).

(** The fields of a capture other than [status] and [retryCount]. *)
Definition otherFields (item : CaptureItem)
  : string * string * CaptureMetadata * string * option string * option string :=
  (id item, imageBase64 item, metadata item, filename item,
   errorMessage item, driveFileId item).

(** The resumptions of suspended work: what a "tick" of the engine is. *)
Definition isTick (ev : Event) : Prop :=
  match ev with
  | EvBackoffElapsed _ | EvUploadSettled _ _ | EvTimeout _ => True
  | _ => False
  end.

(** The state and the refs of the hook, and the offline store: all of
    [Engine] but the bookkeeping of pending timers and suspended calls. *)
Definition hookState (e : Engine) :=
  (queue e, isUploading e, isRateLimited e, mountedRef e, processingRef e,
   nextTimerRef e, rateLimitTimerRef e, queueRef e,
   consecutiveRateLimitsRef e, offlineDb e).

(** *** Runs with a single chain of attempts

    The events of a run are admissible when [addToQueue] is given an id not
    yet in the queue (what [generateSessionId] is for), [loadOfflineQueue]
    brings no id the queue already holds, and [clearQueue] is not called. *)
Definition knownId (q : list CaptureItem) (i : string) : bool :=
  List.existsb (fun item => String.eqb (id item) i) q.

Definition allowed (e : Engine) (ev : Event) : bool :=
  match ev with
  | EvAddToQueue newId _ _ _ => negb (knownId (queue e) newId)
  | EvClearQueue => false
  | EvLoadOfflineQueue =>
      List.forallb (fun item => negb (knownId (queue e) (id item)))
        (getOfflineQueue (offlineDb e))
  | _ => true
  end.

Fixpoint admissible (evs : list (Q * Event)) (e : Engine) : bool :=
  match evs with
  | [] => true
  | (rnd, ev) :: rest => allowed e ev && admissible rest (step rnd ev e)
  end.

(** A store as [saveToOfflineQueue] fills it from the error branch of
    [processNext]: each capture under the key of its id, with status
    ['error']. *)
Definition storeOfFailures (db : gmap string CaptureItem) : Prop :=
  ∀ key item, db !! key = Some item →
    key = STORE_PREFIX +:+ id item ∧ status item = Error.

(** The handle of a pending timer is the one its ref holds. *)
Definition referenced (e : Engine) (t : Timer) : Prop :=
  match timer_callback t with
  | NextTick => nextTimerRef e = Some (timer_handle t)
  | RateLimitResume => rateLimitTimerRef e = Some (timer_handle t)
  end.

(** The invariant of the runs with a single chain. *)
Record singleChain (e : Engine) : Prop := {
  sc_nodup : NoDup (List.map id (queue e));
  sc_one : (length (awaiting e) + length (timers e) ≤ 1)%nat;
  sc_idle : mountedRef e = true → processingRef e = false →
            awaiting e = [] ∧ timers e = [];
  sc_uploading : mountedRef e = true →
    ∀ item, item ∈ queue e → status item = Uploading →
      ∃ s, s ∈ awaiting e ∧ id (nextItem s) = id item;
  sc_count : (countStatus Uploading (queue e) ≤ 1)%nat;
  sc_store : storeOfFailures (offlineDb e);
  sc_refs : ∀ t, t ∈ timers e → referenced e t
}.

Definition synced (e : Engine) : Prop :=
  mountedRef e = true → queueRef e = queue e.

(** *** The retry budget along a run

    [errorDelivered i ev e] is 1 when the event hands an ['error'] outcome
    to the suspended attempt of the item of id [i] on a mounted engine (an
    outcome that arrives after the unmount is dropped), and
    [errorOutcomes i evs e] counts these along a run. *)
Definition errorDelivered (i : string) (ev : Event) (e : Engine) : Z :=
  match ev with
  | EvUploadSettled k upload_error =>
      match awaiting e !! k with
      | Some {| await_point := AwaitUpload; nextItem := next |} =>
          if mountedRef e && String.eqb (id next) i then 1 else 0
      | _ => 0
      end
  | _ => 0
  end.

Fixpoint errorOutcomes (i : string) (evs : list (Q * Event)) (e : Engine) : Z :=
  match evs with
  | [] => 0
  | (rnd, ev) :: rest =>
      errorDelivered i ev e + errorOutcomes i rest (step rnd ev e)
  end.

(** The events that do not give an item a new budget or another origin. *)
Definition noReset (ev : Event) : bool :=
  match ev with
  | EvRetryFailed | EvLoadOfflineQueue | EvClearQueue => false
  | _ => true
  end.

(** The invariant that ties each item to the count [cnt] of the ['error']
    outcomes its attempts have received. *)
Record budget (cnt : string → Z) (e : Engine) : Prop := {
  b_count : ∀ item, item ∈ queue e → retryCount item = cnt (id item);
  b_fresh : ∀ i, i ∉ List.map id (queue e) → cnt i = 0;
  b_range : ∀ item, item ∈ queue e → 0 ≤ retryCount item ≤ MAX_RETRIES;
  b_error : ∀ item, item ∈ queue e →
    (status item = Error ↔ retryCount item = MAX_RETRIES);
  b_store : ∀ item, item ∈ queue e →
    (is_Some (offlineDb e !! (STORE_PREFIX +:+ id item)) ↔ status item = Error);
  b_keys : ∀ key, is_Some (offlineDb e !! key) →
    ∃ item, item ∈ queue e ∧ key = STORE_PREFIX +:+ id item;
  b_await : mountedRef e = true → ∀ s, s ∈ awaiting e →
    ∃ item, item ∈ queue e ∧ id item = id (nextItem s)
            ∧ retryCount (nextItem s) = retryCount item
            ∧ retryCount item < MAX_RETRIES
}.

(* ================================================================= *)
(** ** Sample data for the worked examples *)

Definition sampleMeta : CaptureMetadata :=
  {| label := looking_up; phase := PhaseA; seq := 7;
     timestamp_iso := "2025-01-01T00:00:00.000Z"; ua := "Mozilla/5.0";
     session_id := "session-1"; camera_facing := facing_user;
     device_platform := "linux" |}.

Definition sampleItem (i : string) (s : Status) (n : Z) (m : option string)
  : CaptureItem :=
  {| id := i; imageBase64 := "data:image/jpeg;base64,AAAA";
     metadata := sampleMeta; filename := i +:+ ".jpg"; status := s;
     retryCount := n; errorMessage := m; driveFileId := None |}.

Definition sampleQueue : list CaptureItem :=
  [ sampleItem "a" Success 0 None;
    sampleItem "b" Error 5 (Some "Max retries exceeded");
    sampleItem "c" Pending 2 (Some "Upload failed, retry 2/5");
    sampleItem "d" Uploading 0 None;
    sampleItem "e" Pending 0 None ].

(** An ['error'] item below the retry ceiling. *)
Definition stuckItem : CaptureItem := sampleItem "s" Error 0 None.

Definition draw : Q := 1 # 2.

Definition enqueue (i : string) : Q * Event :=
  (draw, EvAddToQueue i 1735689600000 "data:image/jpeg;base64,AAAA" sampleMeta).

Definition occur (ev : Event) : Q * Event := (draw, ev).

(** One item enqueued on a fresh engine: its upload is in flight. *)
Definition sampleRunning : Engine := run [enqueue "a"] (initialEngine ∅).

(** One item enqueued, then five ['error'] outcomes in a row, each followed
    by the inter-item timer and the per-item backoff of the next attempt. *)
Definition fiveErrors : list (Q * Event) :=
  [ enqueue "a";
    occur (EvUploadSettled 0 upload_error); occur (EvTimeout 1);
    occur (EvBackoffElapsed 0);
    occur (EvUploadSettled 0 upload_error); occur (EvTimeout 2);
    occur (EvBackoffElapsed 0);
    occur (EvUploadSettled 0 upload_error); occur (EvTimeout 3);
    occur (EvBackoffElapsed 0);
    occur (EvUploadSettled 0 upload_error); occur (EvTimeout 4);
    occur (EvBackoffElapsed 0);
    occur (EvUploadSettled 0 upload_error); occur (EvTimeout 5) ].

Definition sampleExhausted : Engine := run fiveErrors (initialEngine ∅).

(** The record the fifth failure leaves in the offline store, and the item
    it leaves in the queue. *)
Definition sampleNewItem : CaptureItem :=
  newItem "a" 1735689600000 "data:image/jpeg;base64,AAAA" sampleMeta.

Definition exhaustedRecord : CaptureItem :=
  with_errorMessage "Upload failed, retry 4/5"
    (with_retryCount 5 (with_status Error sampleNewItem)).

Definition exhaustedItem : CaptureItem :=
  with_errorMessage "Max retries exceeded"
    (with_retryCount 5 (with_status Error sampleNewItem)).

(** [clearQueue] while the upload of ["a"] is in flight. *)
Definition clearedMidFlight : Engine :=
  run [enqueue "a"; occur EvClearQueue] (initialEngine ∅).

(** The same, after which ["b"] is enqueued, the upload of ["a"] succeeds,
    ["c"] is enqueued and the inter-item timer of ["a"] fires. *)
Definition twoChains : Engine :=
  run [ enqueue "b"; occur (EvUploadSettled 0 upload_success);
        enqueue "c"; occur (EvTimeout 1) ] clearedMidFlight.

(** The engine once the rate-limited outcome of ["a"] arrives after the
    queue was cleared. *)
Definition settledAfterClear : Engine :=
  step draw (EvUploadSettled 0 upload_rate_limit) clearedMidFlight.

(** Three items enqueued while uploads go on: a success, a rate limit and
    its pause, an error and its backoff. *)
Definition busyRun : list (Q * Event) :=
  [ enqueue "a"; enqueue "b";
    occur (EvUploadSettled 0 upload_success); enqueue "c";
    occur (EvTimeout 1);
    occur (EvUploadSettled 0 upload_rate_limit); occur (EvTimeout 2);
    occur (EvUploadSettled 0 upload_error); occur EvRetryFailed;
    occur (EvTimeout 3); occur (EvBackoffElapsed 0) ].

(** Three items enqueued, each uploaded at its first attempt. *)
Definition threeSuccesses : list (Q * Event) :=
  [ enqueue "a"; enqueue "b"; enqueue "c";
    occur (EvUploadSettled 0 upload_success); occur (EvTimeout 1);
    occur (EvUploadSettled 0 upload_success); occur (EvTimeout 2);
    occur (EvUploadSettled 0 upload_success); occur (EvTimeout 3) ].

(** A mounted, idle engine whose committed queue is [sampleQueue]. *)
Definition sampleEngine : Engine :=
  set_queueRef sampleQueue (set_queue sampleQueue (initialEngine ∅)).


(* ================================================================= *)
(** ** Quantities of the backoff statements *)

(** The [delay] and the [jitter] inside [getBackoffDelay], for the default
    [baseDelay] and [maxDelay]. *)
Definition cappedDelay (attempt : Z) : Q := Qmin (1000 * Qpower 2 attempt) 30000.

Definition jitterAt (attempt : Z) (rnd : Q) : Q :=
  (cappedDelay attempt * (1 # 10) * (rnd * 2 - 1))%Q.

(** A value [Math.random()] can return. *)
Definition unitDraw (rnd : Q) : Prop := (0 <= rnd)%Q ∧ (rnd < 1)%Q.

(** The mean of the delay over a finite sample of equally likely draws. *)
Definition sumQ (l : list Q) : Q := fold_right Qplus 0%Q l.

Definition meanDelay (draws : list Q) (attempt : Z) : Q :=
  (sumQ (List.map (fun rnd => inject_Z (getBackoffDelay rnd attempt)) draws)
   / inject_Z (Z.of_nat (length draws)))%Q.


(* ================================================================= *)
(** * Further code: the store, the server route and the callers *)

(** ** More sample data *)

(** The engine of [sampleRunning] after the unmount. *)
Definition sampleUnmounted : Engine := step draw EvUnmount sampleRunning.

(** The events of [busyRun] but the last: the run stops while the call of
    [processNext] for ["b"] sleeps its backoff. *)
Definition backoffRun : list (Q * Event) :=
  [ enqueue "a"; enqueue "b";
    occur (EvUploadSettled 0 upload_success); enqueue "c";
    occur (EvTimeout 1);
    occur (EvUploadSettled 0 upload_rate_limit); occur (EvTimeout 2);
    occur (EvUploadSettled 0 upload_error); occur EvRetryFailed;
    occur (EvTimeout 3) ].

(** *** The pace of a single chain

    What is pending on a mounted engine: while the processing flag is set,
    exactly one suspended call or timer; during a rate-limit pause, the
    resumption timer; for a suspended call, its item in flight. *)
Record pacing (e : Engine) : Prop := {
  p_idle : processingRef e = false → isRateLimited e = false;
  p_busy : processingRef e = true →
    (length (awaiting e) + length (timers e) = 1)%nat;
  p_paused : isRateLimited e = true →
    isUploading e = false
    ∧ ∃ t, timers e = [t] ∧ timer_callback t = RateLimitResume;
  p_tick : isRateLimited e = false →
    ∀ t, t ∈ timers e → timer_callback t = NextTick;
  p_flight : ∀ s, s ∈ awaiting e →
    isUploading e = true
    ∧ ∃ item, item ∈ queue e ∧ id item = id (nextItem s)
              ∧ status item = Uploading
}.

(** With the processing flag clear, nothing of the queue is eligible. *)
Definition rested (e : Engine) : Prop :=
  processingRef e = false → nextEligible (queue e) = None.

Definition live (e : Engine) : Prop :=
  mountedRef e = true → pacing e ∧ rested e.

(** Two items enqueued, the upload of the first answered by a 429. *)
Definition pausedRun : list (Q * Event) :=
  [ enqueue "a"; enqueue "b"; occur (EvUploadSettled 0 upload_rate_limit) ].

(** The first three events of [busyRun], after which ["a"] is uploaded, and
    the events that follow them. *)
Definition uploadedFirst : list (Q * Event) :=
  [ enqueue "a"; enqueue "b"; occur (EvUploadSettled 0 upload_success) ].

Definition afterwards : list (Q * Event) :=
  [ enqueue "c"; occur (EvTimeout 1);
    occur (EvUploadSettled 0 upload_rate_limit); occur (EvTimeout 2);
    occur (EvUploadSettled 0 upload_error); occur EvRetryFailed;
    occur (EvTimeout 3); occur (EvBackoffElapsed 0) ].

(** A mounted hook left rate limited with no timer and no suspended call. *)
Definition stalled (e : Engine) : Prop :=
  mountedRef e = true ∧ isRateLimited e = true
  ∧ timers e = [] ∧ awaiting e = [].

(** What a user may still do after [pausedRun] and a [clearQueue]. *)
Definition afterClear : list (Q * Event) :=
  [ enqueue "c"; occur EvRetryFailed; occur (EvTimeout 1);
    occur EvLoadOfflineQueue; enqueue "d"; occur (EvUploadSettled 0 upload_success) ].

(** What the hook is given for an item and never rewrites. *)
Definition payload (item : CaptureItem)
  : string * string * CaptureMetadata * string :=
  (id item, imageBase64 item, metadata item, filename item).

(* ================================================================= *)
(** ** [UploadStatus]: what the component renders

    The panel as a record of what the JSX shows: the badge of
    [isUploading], the three counts, the width of the bar in percent (an
    exact rational), the retry button with its number when [failed > 0],
    and one row per item of [queue.slice(-5).reverse()], keyed by the
    item's id. *)
Record StatusRow := {
  row_key : string;
  row_icon : Status;
  row_label : LabelType;
  row_seq : Z
}.

Record StatusPanel := {
  uploadingBadge : bool;
  uploadedCount : nat;
  pendingCount : nat;
  failedCount : nat;
  barWidth : Q;
  retryButton : option nat;
  recentRows : list StatusRow
}.

(** [array.slice(-n)]: the last [n] elements, all of them when there are
    fewer. *)
Definition sliceLast {A} (n : nat) (l : list A) : list A :=
  drop (length l - n) l.

Definition statusRow (item : CaptureItem) : StatusRow :=
  {| row_key := id item; row_icon := status item;
     row_label := label (metadata item); row_seq := seq (metadata item) |}.

Definition UploadStatus (queue : list CaptureItem) (isUploading : bool)
    (uploadProgress : UploadProgress) : option StatusPanel :=
  let total := length queue in
  if (total =? 0)%nat then None else
  Some {| uploadingBadge := isUploading;
          uploadedCount := success uploadProgress;
          pendingCount := pending uploadProgress;
          failedCount := failed uploadProgress;
          barWidth := (inject_Z (Z.of_nat (success uploadProgress))
                       / inject_Z (Z.of_nat total) * 100)%Q;
          retryButton := if (0 <? failed uploadProgress)%nat
                         then Some (failed uploadProgress) else None;
          recentRows := List.map statusRow (reverse (sliceLast 5 queue)) |}.

From Stdlib Require Import Ascii.
(* ================================================================= *)
(** ** The Cloudinary upload module: where a capture is stored

    Strings are sequences of code units; the characters of a Rocq string
    stand for the code units below 256. *)
(** The class [[a-zA-Z0-9_\-]] of [sanitizeName]. *)
Definition isAllowed (c : ascii) : bool :=
  let n := nat_of_ascii c in
  ((97 <=? n) && (n <=? 122) || (65 <=? n) && (n <=? 90)
   || (48 <=? n) && (n <=? 57) || (n =? 95) || (n =? 45))%nat.

(** [name.replace(/[^a-zA-Z0-9_\-]/g, '_')]. *)
Fixpoint replaceDisallowed (name : string) : string :=
  match name with
  | EmptyString => EmptyString
  | String c rest =>
      String (if isAllowed c then c else "_"%char) (replaceDisallowed rest)
  end.

(** The white space and line terminators that [trim] strips: tab, line
    feed, vertical tab, form feed, carriage return, space and no-break
    space. *)
Definition isWhiteSpace (c : ascii) : bool :=
  let n := nat_of_ascii c in
  ((9 <=? n) && (n <=? 13) || (n =? 32) || (n =? 160))%nat.

Fixpoint trimStart (s : string) : string :=
  match s with
  | EmptyString => EmptyString
  | String c rest => if isWhiteSpace c then trimStart rest else s
  end.

Definition trimEnd (s : string) : string :=
  string_of_list_ascii
    (List.rev (list_ascii_of_string
                 (trimStart (string_of_list_ascii
                               (List.rev (list_ascii_of_string s)))))).

Definition trim (s : string) : string := trimEnd (trimStart s).

Definition sanitizeName (name : string) : string :=
  trim (replaceDisallowed name).

(** [s.padStart(targetLength, fill)] with a fill of one character. *)
Definition padStart (targetLength : nat) (fill : ascii) (s : string) : string :=
  string_of_list_ascii (replicate (targetLength - String.length s) fill) +:+ s.

(** One call of [cloudinary.uploader.upload]: the asset is identified by
    its folder, public id and resource type, and [overwrite: true] replaces
    an asset already there. *)
Inductive ResourceType := resource_image | resource_raw.

Record Asset := {
  folder : string;
  public_id : string;
  resource_type : ResourceType
}.

(** The module that files a capture under its session, label and phase. *)
Module BySession.

Definition buildFolderPath (metadata : CaptureMetadata) : string :=
  let sessionId := sanitizeName (session_id metadata) in
  let label_ := sanitizeName (LabelType_str (label metadata)) in
  let phase_ := match phase metadata with
                | PhaseA => "eyes_only" | PhaseB => "with_face" end in
  match label metadata with
  | no_face | with_cellphone =>
      "face-data/" +:+ sessionId +:+ "/" +:+ label_
  | _ => "face-data/" +:+ sessionId +:+ "/" +:+ label_ +:+ "/" +:+ phase_
  end.

(** The two uploads of [uploadCapture]: the image and the metadata file. *)
Definition uploadCapture_assets (metadata : CaptureMetadata) : Asset * Asset :=
  let folder_ := buildFolderPath metadata in
  let seq_ := padStart 4 "0" (pretty (seq metadata)) in
  ({| folder := folder_; public_id := "img_" +:+ seq_;
      resource_type := resource_image |},
   {| folder := folder_; public_id := "meta_" +:+ seq_;
      resource_type := resource_raw |}).

End BySession.

(** The module that files all captures of a label in one folder. *)
Module Flat.

Definition buildFolderPath (metadata : CaptureMetadata) : string :=
  let label_ := sanitizeName (LabelType_str (label metadata)) in
  "face-data/" +:+ label_.

Definition uploadCapture_assets (metadata : CaptureMetadata) : Asset * Asset :=
  let folder_ := buildFolderPath metadata in
  let sessionShort := String.substring 0 8 (session_id metadata) in
  let phase_ := match phase metadata with
                | PhaseA => "eyes" | PhaseB => "face" end in
  let seq_ := padStart 4 "0" (pretty (seq metadata)) in
  let publicIdSuffix := sessionShort +:+ "_" +:+ phase_ +:+ "_" +:+ seq_ in
  ({| folder := folder_; public_id := "img_" +:+ publicIdSuffix;
      resource_type := resource_image |},
   {| folder := folder_; public_id := "meta_" +:+ publicIdSuffix;
      resource_type := resource_raw |}).

End Flat.

(** Every character of a string passes a test. *)
Definition allChars (P : ascii → bool) (s : string) : Prop :=
  Forall (fun c => P c = true) (list_ascii_of_string s).

(** [String(metadata.seq).padStart(4, '0')]. *)
Definition paddedSeq (n : Z) : string := padStart 4 "0" (pretty n).

(** The last segments of the folder of [BySession.buildFolderPath]. *)
Definition labelPath (l : LabelType) (p : PhaseTag) : string :=
  match l with
  | no_face | with_cellphone => LabelType_str l
  | _ => LabelType_str l +:+ "/" +:+
         match p with PhaseA => "eyes_only" | PhaseB => "with_face" end
  end.

(** The digits of a padded sequence number, read back. *)
Definition digitValue (c : ascii) : option Z :=
  let n := nat_of_ascii c in
  if ((48 <=? n) && (n <=? 57))%nat then Some (Z.of_nat n - 48) else None.

Fixpoint readDigits (acc : Z) (s : string) : option Z :=
  match s with
  | EmptyString => Some acc
  | String c rest =>
      match digitValue c with
      | Some d => readDigits (10 * acc + d) rest
      | None => None
      end
  end.

Definition sampleSession : string := "3f2b8c1e-9a4d-4c7b-8e21-5d6f7a8b9c0d".

Definition noFaceMeta (p : PhaseTag) : CaptureMetadata :=
  {| label := no_face; phase := p; seq := 7;
     timestamp_iso := "2025-01-01T00:00:00.000Z"; ua := "Mozilla/5.0";
     session_id := sampleSession; camera_facing := facing_user;
     device_platform := "linux" |}.

(* ================================================================= *)
(** ** The upload route: the per-client rate limiter

    [rateLimitMap] is a finite map from client ids to entries; a call
    returns its answer and the map it leaves. *)
Module UploadRoute.

Record RateLimitEntry := {
  count : Z;
  resetAt : Z
}.

Definition RATE_LIMIT_WINDOW_MS : Z := 10000.
Definition RATE_LIMIT_MAX_REQUESTS : Z := 20.

(** [cleanupRateLimitMap()], its [Date.now()] being [now]. *)
Definition cleanupRateLimitMap (now : Z) (rateLimitMap : gmap string RateLimitEntry)
  : gmap string RateLimitEntry :=
  let kept :=
    filter (fun kv : string * RateLimitEntry => ¬ (resetAt kv.2 < now))
      rateLimitMap in
  if 10000 <? Z.of_nat (size kept) then ∅ else kept.

Record RateCheck := {
  limited : bool;
  remaining : Z;
  check_resetAt : Z
}.

(** [isRateLimited(clientId)]: [now] is the [Date.now()] of its first
    line, [rnd] the draw of [Math.random()] and [cleanupNow] the
    [Date.now()] that [cleanupRateLimitMap] reads when it is run. *)
Definition isRateLimited (now : Z) (rnd : Q) (cleanupNow : Z) (clientId : string)
    (rateLimitMap : gmap string RateLimitEntry)
  : RateCheck * gmap string RateLimitEntry :=
  let rateLimitMap :=
    if Qlt_le_dec rnd (1 # 10) then cleanupRateLimitMap cleanupNow rateLimitMap
    else rateLimitMap in
  let entry :=
    match rateLimitMap !! clientId with
    | Some entry =>
        if resetAt entry <? now
        then {| count := 0; resetAt := now + RATE_LIMIT_WINDOW_MS |}
        else entry
    | None => {| count := 0; resetAt := now + RATE_LIMIT_WINDOW_MS |}
    end in
  let entry := {| count := count entry + 1; resetAt := resetAt entry |} in
  ({| limited := RATE_LIMIT_MAX_REQUESTS <? count entry;
      remaining := Z.max 0 (RATE_LIMIT_MAX_REQUESTS - count entry);
      check_resetAt := resetAt entry |},
   <[clientId := entry]> rateLimitMap).

(** A request as the limiter sees it, and a sequence of requests served
    one after the other. *)
Record Hit := {
  hit_now : Z;
  hit_rnd : Q;
  hit_cleanupNow : Z;
  hit_client : string
}.

Fixpoint serve (hits : list Hit) (rateLimitMap : gmap string RateLimitEntry)
  : list (string * RateCheck) * gmap string RateLimitEntry :=
  match hits with
  | [] => ([], rateLimitMap)
  | h :: rest =>
      let '(check, m) :=
        isRateLimited (hit_now h) (hit_rnd h) (hit_cleanupNow h) (hit_client h)
          rateLimitMap in
      let '(checks, m') := serve rest m in
      ((hit_client h, check) :: checks, m')
  end.

(** The answers given to one client. *)
Definition answersTo (clientId : string) (checks : list (string * RateCheck))
  : list RateCheck :=
  List.map snd (List.filter (fun cr => String.eqb cr.1 clientId) checks).

(** The client has no open window at time [now]. *)
Definition noWindow (now : Z) (clientId : string)
    (rateLimitMap : gmap string RateLimitEntry) : Prop :=
  ∀ entry, rateLimitMap !! clientId = Some entry → resetAt entry < now.

(** A hit inside the window that opens at [t0], with no clean-up. *)
Definition inWindow (t0 : Z) (h : Hit) : Prop :=
  t0 ≤ hit_now h ≤ t0 + RATE_LIMIT_WINDOW_MS ∧ (1 # 10 <= hit_rnd h)%Q.

(** A request of one client at 1000 and, every ten milliseconds after
    it, forty-four more, alternately from another client and from it. *)
Definition firstHit : Hit :=
  {| hit_now := 1000; hit_rnd := 1 # 2; hit_cleanupNow := 1000;
     hit_client := "203.0.113.7" |}.

Definition laterHits : list Hit :=
  List.map (fun k : nat =>
    {| hit_now := 1000 + Z.of_nat k * 10; hit_rnd := 1 # 2;
       hit_cleanupNow := 1000 + Z.of_nat k * 10;
       hit_client := if Nat.even k then "203.0.113.7" else "198.51.100.2" |})
    (List.seq 1 44).


End UploadRoute.

(* ================================================================= *)
(** ** The upload route: authentication *)

(** [s.charCodeAt(i)]; [None] stands for [NaN], which the bitwise
    operators read as 0. *)
Definition charCodeAt (s : string) (i : nat) : option Z :=
  (fun c => Z.of_nat (nat_of_ascii c)) <$> String.get i s.

Definition toInt32 (v : option Z) : Z := default 0 v.

(** The loop of [validateAuth]:
    [result |= providedKey.charCodeAt(i) ^ API_KEY.charCodeAt(i)]
    for [i] from 0 below [API_KEY.length]. *)
Definition compareLoop (providedKey API_KEY : string) : Z :=
  fold_left
    (fun result i =>
       Z.lor result
         (Z.lxor (toInt32 (charCodeAt providedKey i))
                 (toInt32 (charCodeAt API_KEY i))))
    (List.seq 0 (String.length API_KEY)) 0.

(** [validateAuth(request)]: [header] is [request.headers.get('x-api-key')],
    [API_KEY] the environment variable, [verifyUploadToken] the check of the
    signed token at the time of the request. *)
Definition validateAuth (verifyUploadToken : string → bool)
    (API_KEY : option string) (header : option string) : bool :=
  match header with
  | None => false
  | Some providedKey =>
      if String.eqb providedKey "" then false
      else if verifyUploadToken providedKey then true
      else
        match API_KEY with
        | None => false
        | Some key =>
            if String.eqb key "" then false
            else if negb (String.length providedKey =? String.length key)%nat
            then false
            else compareLoop providedKey key =? 0
        end
  end.

(* ================================================================= *)
(** ** Upload tokens

    [hmacSha256Hex key payload] stands for
    [crypto.createHmac('sha256', key).update(payload).digest('hex')]. *)

Definition TOKEN_TTL_MS : Z := 30 * 60 * 1000.

(** [s.lastIndexOf(c)], [None] for [-1]. *)
Fixpoint lastIndexOf (c : ascii) (s : string) : option nat :=
  match s with
  | EmptyString => None
  | String a rest =>
      match lastIndexOf c rest with
      | Some i => Some (S i)
      | None => if Ascii.eqb a c then Some 0%nat else None
      end
  end.

(** [s.split(c)[0]]: what stands before the first [c]. *)
Fixpoint beforeFirst (c : ascii) (s : string) : string :=
  match s with
  | EmptyString => EmptyString
  | String a rest => if Ascii.eqb a c then EmptyString else String a (beforeFirst c rest)
  end.

(** The longest prefix of decimal digits, read as a number; [None] when
    the string does not start with a digit. *)
Fixpoint readDigitsPrefix (acc : option Z) (s : string) : option Z :=
  match s with
  | EmptyString => acc
  | String c rest =>
      match digitValue c with
      | Some d => readDigitsPrefix (Some (10 * default 0 acc + d)) rest
      | None => acc
      end
  end.

(** [parseInt(s, 10)]; [None] stands for [NaN]. *)
Definition parseInt10 (s : string) : option Z :=
  match trimStart s with
  | String "-" rest => Z.opp <$> readDigitsPrefix None rest
  | String "+" rest => readDigitsPrefix None rest
  | rest => readDigitsPrefix None rest
  end.

Definition hexValue (c : ascii) : option N :=
  let n := N_of_ascii c in
  if ((48 <=? n) && (n <=? 57))%N then Some (n - 48)%N
  else if ((97 <=? n) && (n <=? 102))%N then Some (n - 87)%N
  else if ((65 <=? n) && (n <=? 70))%N then Some (n - 55)%N
  else None.

(** [Buffer.from(s, 'hex')]: the bytes of the pairs of hex digits, up to
    the first pair that is not one. *)
Fixpoint hexDecode (s : string) : list N :=
  match s with
  | String a (String b rest) =>
      match hexValue a, hexValue b with
      | Some x, Some y => (16 * x + y)%N :: hexDecode rest
      | _, _ => []
      end
  | _ => []
  end.

(** [crypto.timingSafeEqual(a, b)]; [None] stands for the [RangeError]
    thrown when the lengths differ. *)
Definition timingSafeEqual (a b : list N) : option bool :=
  if (length a =? length b)%nat then Some (bool_decide (a = b)) else None.

Definition isHexDigit (c : ascii) : bool := bool_decide (is_Some (hexValue c)).

Definition isDigit (c : ascii) : bool := bool_decide (is_Some (digitValue c)).

Section Tokens.
Variable hmacSha256Hex : string → string → string.

(** [generateUploadToken()]: [now] is [Date.now()], [nonce] the hex of the
    sixteen random bytes; [None] stands for the thrown error. *)
Definition generateUploadToken (API_KEY : option string) (now : Z)
    (nonce : string) : option (string * Z) :=
  match API_KEY with
  | None => None
  | Some key =>
      if String.eqb key "" then None else
      let expiresAt := now + TOKEN_TTL_MS in
      let payload := pretty expiresAt +:+ ":" +:+ nonce in
      let signature := hmacSha256Hex key payload in
      let token := payload +:+ "." +:+ signature in
      Some (token, expiresAt)
  end.

(** [verifyUploadToken(token)] at the time [now]. *)
Definition verifyUploadToken (API_KEY : option string) (now : Z)
    (token : string) : bool :=
  match API_KEY with
  | None => false
  | Some key =>
      if String.eqb key "" || String.eqb token "" then false else
      match lastIndexOf "." token with
      | None => false
      | Some lastDotIndex =>
          let payload := String.substring 0 lastDotIndex token in
          let signature :=
            String.substring (lastDotIndex + 1)
              (String.length token - (lastDotIndex + 1)) token in
          let expectedSignature := hmacSha256Hex key payload in
          if negb (String.length signature =? String.length expectedSignature)%nat
          then false
          else
            match timingSafeEqual (hexDecode signature)
                    (hexDecode expectedSignature) with
            | None => false
            | Some false => false
            | Some true =>
                let expiresAtStr := beforeFirst ":" payload in
                match parseInt10 expiresAtStr with
                | None => false
                | Some expiresAt => negb (expiresAt <? now)
                end
            end
      end
  end.

End Tokens.

(** A stand-in digest for the worked examples: sixty-four hex digits that
    depend on the length of the payload only. *)
Definition sampleDigest (key payload : string) : string :=
  string_of_list_ascii
    (replicate 64 (if Nat.even (String.length payload) then "a" else "b")%char).

(* ================================================================= *)
(** ** The capture session: phases and the capture loop *)

Definition IMAGES_PER_PHASE : Z := 50.
Definition PHASE_DURATION_MS : Z := 10000.

Definition DEFAULT_LABELS : list LabelType :=
  [looking_center; looking_down; looking_up; looking_left; looking_right].

(** [const labels = [...DEFAULT_LABELS, 'no_face', ...(withCellphone ? ... : [])]]. *)
Definition labels (withCellphone : bool) : list LabelType :=
  (DEFAULT_LABELS ++ [no_face]
   ++ (if withCellphone then [with_cellphone] else []))%list.

Inductive SessionStage :=
| stage_idle | stage_countdown | stage_capturing | stage_phaseComplete
| stage_complete.

(** The state of [CaptureSession] that the phases are driven by. *)
Record Session := {
  stage : SessionStage;
  currentLabelIndex : nat;
  currentPhase : PhaseTag
}.

Definition initialSession : Session :=
  {| stage := stage_idle; currentLabelIndex := 0; currentPhase := PhaseA |}.

Definition startSession (s : Session) : Session :=
  {| stage := stage_countdown; currentLabelIndex := currentLabelIndex s;
     currentPhase := currentPhase s |}.

(** [startCapturing], as far as this state goes. *)
Definition startCapturing (s : Session) : Session :=
  {| stage := stage_capturing; currentLabelIndex := currentLabelIndex s;
     currentPhase := currentPhase s |}.

Definition handlePhaseComplete (withCellphone : bool) (s : Session) : Session :=
  match currentPhase s with
  | PhaseA =>
      {| stage := stage_countdown; currentLabelIndex := currentLabelIndex s;
         currentPhase := PhaseB |}
  | PhaseB =>
      if (Z.of_nat (currentLabelIndex s)
          <? Z.of_nat (length (labels withCellphone)) - 1)
      then {| stage := stage_countdown;
              currentLabelIndex := S (currentLabelIndex s);
              currentPhase := PhaseA |}
      else {| stage := stage_complete; currentLabelIndex := currentLabelIndex s;
              currentPhase := currentPhase s |}
  end.

(** One phase: the countdown ends, the loop runs to its end and calls
    [handlePhaseComplete]. *)
Definition phaseRound (withCellphone : bool) (s : Session) : Session :=
  handlePhaseComplete withCellphone (startCapturing s).

(** The label and the phase under which the captures of the next phase
    are taken: [labels[currentLabelIndex]] and [currentPhase]. *)
Definition currentTag (withCellphone : bool) (s : Session)
  : option (LabelType * PhaseTag) :=
  (fun l => (l, currentPhase s)) <$> labels withCellphone !! currentLabelIndex s.

(** The tags of the first [n] phases of a session. *)
Fixpoint phaseTags (withCellphone : bool) (n : nat) (s : Session)
  : list (option (LabelType * PhaseTag)) :=
  match n with
  | O => []
  | S n' => currentTag withCellphone s
            :: phaseTags withCellphone n' (phaseRound withCellphone s)
  end.

(** *** The capture loop

    The variables of the closure of [startCapturing]. *)
Record LoopState := {
  captureCount : Z;
  lastCaptureTime : Z;
  lastTimeUpdate : Z
}.

(** The sequence numbers from [captureCount + 1] up to [IMAGES_PER_PHASE]:
    the calls of the [while] loop. *)
Definition rapidCaptures (captureCount : Z) : list Z :=
  List.map (fun k : nat => captureCount + 1 + Z.of_nat k)
    (List.seq 0 (Z.to_nat (IMAGES_PER_PHASE - captureCount))).

(** One animation frame at the time [now]: the sequence numbers handed to
    [processCapture], and the state the loop goes on with, [None] when the
    frame ends the phase with [handlePhaseComplete].  The quotient is exact
    here. *)
Definition captureLoop (phaseStartTime now : Z) (st : LoopState)
  : list Z * option LoopState :=
  let elapsed := now - phaseStartTime in
  let timeSinceLastCapture := now - lastCaptureTime st in
  let st :=
    if 500 <=? now - lastTimeUpdate st
    then {| captureCount := captureCount st;
            lastCaptureTime := lastCaptureTime st; lastTimeUpdate := now |}
    else st in
  if (IMAGES_PER_PHASE <=? captureCount st)
     || (PHASE_DURATION_MS + 500 <=? elapsed)
  then (rapidCaptures (captureCount st), None)
  else
    let expectedCaptures :=
      Qfloor (inject_Z elapsed / inject_Z PHASE_DURATION_MS
              * inject_Z IMAGES_PER_PHASE) in
    if (captureCount st <? expectedCaptures) && (100 <=? timeSinceLastCapture)
    then ([captureCount st + 1],
          Some {| captureCount := captureCount st + 1; lastCaptureTime := now;
                  lastTimeUpdate := lastTimeUpdate st |})
    else ([], Some st).

(** The frames of a phase, at the given times, as long as the loop asks
    for the next frame. *)
Fixpoint runFrames (phaseStartTime : Z) (frames : list Z) (st : LoopState)
  : list Z * option LoopState :=
  match frames with
  | [] => ([], Some st)
  | now :: rest =>
      match captureLoop phaseStartTime now st with
      | (seqs, None) => (seqs, None)
      | (seqs, Some st') =>
          let '(seqs', final) := runFrames phaseStartTime rest st' in
          ((seqs ++ seqs')%list, final)
      end
  end.

(** The loop as [startCapturing] starts it. *)
Definition loopStart (startTime : Z) : LoopState :=
  {| captureCount := 0; lastCaptureTime := startTime;
     lastTimeUpdate := startTime |}.

(** [processCapture(seq)] with a frame grabbed: the metadata of the
    capture and the call of [addToQueue]. *)
Definition captureMetadata (withCellphone : bool) (s : Session) (seq_ : Z)
    (sessionId timestamp userAgent platform : string) : option CaptureMetadata :=
  (fun l =>
     {| label := l; phase := currentPhase s; seq := seq_;
        timestamp_iso := timestamp; ua := userAgent; session_id := sessionId;
        camera_facing := facing_user; device_platform := platform |})
  <$> labels withCellphone !! currentLabelIndex s.

(* ================================================================= *)
(** ** The upload route: the request, its checks and the answer

    A parsed JSON value; the number of a JSON text is a rational. *)
#[local] Unset Elimination Schemes.
Inductive Json :=
| JNull
| JBool (b : bool)
| JNumber (x : Q)
| JString (s : string)
| JArray (items : list Json)
| JObject (fields : list (string * Json)).
#[local] Set Elimination Schemes.

(** [value.key] for a value that is not [null]: [None] stands for
    [undefined]; of the keys given twice [JSON.parse] keeps the last. *)
Definition lookupField (key : string) (fields : list (string * Json))
  : option Json :=
  snd <$> List.find (fun kv => String.eqb kv.1 key) (List.rev fields).

Definition property (key : string) (value : Json) : option Json :=
  match value with
  | JObject fields => lookupField key fields
  | _ => None
  end.

(** Truthiness of a value or of [undefined]. *)
Definition truthy (value : option Json) : bool :=
  match value with
  | None | Some JNull => false
  | Some (JBool b) => b
  | Some (JNumber x) => negb (Qeq_bool x 0)
  | Some (JString s) => negb (String.eqb s "")
  | Some (JArray _) | Some (JObject _) => true
  end.

Definition VALID_LABELS : list string :=
  [ "looking_center"; "looking_down"; "looking_up"; "looking_left";
    "looking_right"; "no_face"; "with_cellphone" ].

Definition MAX_BODY_SIZE : Z := 2 * 1024 * 1024.

(** [validateMetadata(metadata)]; [None] stands for [undefined]. *)
Definition validateMetadata (metadata : option Json) : bool :=
  match metadata with
  | Some (JObject fields as m) =>
      match property "label" m with
      | Some (JString l) =>
          negb (String.eqb l "")
          && bool_decide (l ∈ VALID_LABELS)
          && match property "phase" m with
             | Some (JString p) => String.eqb p "A" || String.eqb p "B"
             | _ => false
             end
          && match property "seq" m with
             | Some (JNumber n) => Qle_bool 0 n && Qle_bool n 1000
             | _ => false
             end
          && match property "timestamp_iso" m with
             | Some (JString t) => negb (String.eqb t "")
             | _ => false
             end
          && match property "session_id" m with
             | Some (JString sid) =>
                 negb (String.eqb sid "") && (String.length sid <=? 50)%nat
             | _ => false
             end
      | _ => false
      end
  | _ => false
  end.

(** The object that [JSON.stringify] writes for the metadata of a capture
    and [request.json()] reads. *)
Definition metadataJson (m : CaptureMetadata) : Json :=
  JObject
    [ ("label", JString (LabelType_str (label m)));
      ("phase", JString (PhaseTag_str (phase m)));
      ("seq", JNumber (inject_Z (seq m)));
      ("timestamp_iso", JString (timestamp_iso m));
      ("ua", JString (ua m));
      ("session_id", JString (session_id m));
      ("camera_facing",
       JString (match camera_facing m with
                | facing_user => "user" | facing_environment => "environment"
                end));
      ("device_platform", JString (device_platform m)) ].

(** What the [try] block gets from [request.json()]: a thrown
    [SyntaxError]; another failure ([null] for a body is one, at the first
    property access); or a value with its [imageBase64], absent or a
    string, and its [metadata]. *)
Inductive BodyRead :=
| body_syntax_error
| body_other_error
| body_object (imageBase64 : option string) (metadata : option Json).

Record UploadRequest := {
  req_ip : option string;
  req_forwarded_for : option string;
  req_real_ip : option string;
  req_api_key : option string;
  req_content_length : option string;
  req_body : BodyRead
}.

(** A header that is present and not empty. *)
Definition nonEmpty (header : option string) : option string :=
  match header with
  | Some s => if String.eqb s "" then None else Some s
  | None => None
  end.

(** [getClientId(request)]. *)
Definition getClientId (request : UploadRequest) : string :=
  match nonEmpty (req_ip request) with
  | Some vercelIp => vercelIp
  | None =>
      match nonEmpty (req_forwarded_for request) with
      | Some forwarded => trim (beforeFirst "," forwarded)
      | None =>
          match nonEmpty (req_real_ip request) with
          | Some realIp => realIp
          | None => "unknown"
          end
      end
  end.

Record UploadResponse := {
  resp_status : Z;
  resp_body : Json
}.

Definition errorResponse (status : Z) (message : string) (retryable : bool)
  : UploadResponse :=
  {| resp_status := status;
     resp_body := JObject (("error", JString message)
                           :: if retryable then [("retryable", JBool true)] else []) |}.

(** What the route reads of its surroundings: the configuration of
    Cloudinary, the API key, the check of a signed token at the time of
    the request, the clock and the draw of the limiter, and whether the
    upload to Cloudinary succeeds. *)
Record RouteEnv := {
  env_configured : bool;
  env_API_KEY : option string;
  env_verifyUploadToken : string → bool;
  env_now : Z;
  env_rnd : Q;
  env_cleanupNow : Z;
  env_uploadSucceeds : bool
}.

(** The [try] block of [POST]: the check of the [content-length] header,
    and what follows [await request.json()]. *)
Definition contentLengthTooLarge (request : UploadRequest) : bool :=
  match req_content_length request with
  | Some contentLength =>
      negb (String.eqb contentLength "")
      && match parseInt10 contentLength with
         | Some n => MAX_BODY_SIZE <? n
         | None => false
         end
  | None => false
  end.

Definition bodyResponse (env : RouteEnv) (body : BodyRead) : UploadResponse :=
  match body with
  | body_syntax_error => errorResponse 400 "Invalid JSON in request body" false
  | body_other_error =>
      errorResponse 500 "An internal error occurred. Please retry." true
  | body_object imageBase64 metadata =>
      if negb (truthy (JString <$> imageBase64)) || negb (truthy metadata)
      then errorResponse 400
             "Missing required fields: imageBase64 and metadata" false
      else if MAX_BODY_SIZE <? Z.of_nat (String.length (default "" imageBase64))
      then errorResponse 413 "Image data too large" false
      else if negb (validateMetadata metadata)
      then errorResponse 400 "Invalid metadata structure" false
      else if negb (env_uploadSucceeds env)
      then errorResponse 500 "Upload failed. Please retry." true
      else {| resp_status := 200;
              resp_body := JObject [("success", JBool true);
                                    ("message", JString "Upload successful")] |}
  end.

Definition handleBody (env : RouteEnv) (request : UploadRequest) : UploadResponse :=
  if contentLengthTooLarge request
  then errorResponse 413 "Request body too large. Maximum 2MB allowed." false
  else bodyResponse env (req_body request).

(** [POST(request)]: the answer and the map of the limiter it leaves. *)
Definition POST (env : RouteEnv) (request : UploadRequest)
    (rateLimitMap : gmap string UploadRoute.RateLimitEntry)
  : UploadResponse * gmap string UploadRoute.RateLimitEntry :=
  if negb (env_configured env)
  then (errorResponse 503 "Upload service not configured" false, rateLimitMap)
  else if negb (validateAuth (env_verifyUploadToken env) (env_API_KEY env)
                  (req_api_key request))
  then (errorResponse 401 "Unauthorized" false, rateLimitMap)
  else
    let clientId := getClientId request in
    let '(rateCheck, rateLimitMap) :=
      UploadRoute.isRateLimited (env_now env) (env_rnd env) (env_cleanupNow env)
        clientId rateLimitMap in
    if UploadRoute.limited rateCheck
    then (errorResponse 429 "Too many requests. Please slow down." true,
          rateLimitMap)
    else (handleBody env request, rateLimitMap).

(** *** The client side: [uploadItem]

    What [fetch] and [response.json()] give: a rejected [fetch], or a
    response with its status and its body, [None] when the body is no
    JSON. *)
Inductive FetchOutcome :=
| fetch_rejected
| fetch_response (status : Z) (body : option Json).

Definition uploadItem (outcome : FetchOutcome) : UploadResult :=
  match outcome with
  | fetch_rejected => upload_error
  | fetch_response status body =>
      if status =? 429 then upload_rate_limit
      else if negb ((200 <=? status) && (status <=? 299)) then upload_error
      else
        match body with
        | Some (JObject fields) =>
            match lookupField "success" fields with
            | Some (JBool true) => upload_success
            | _ => upload_error
            end
        | _ => upload_error
        end
  end.

(** The answer of the route as [fetch] hands it to [uploadItem]. *)
Definition delivered (response : UploadResponse) : FetchOutcome :=
  fetch_response (resp_status response) (Some (resp_body response)).

(** The checks of the [try] block all pass. *)
Definition bodyAccepted (request : UploadRequest) : Prop :=
  contentLengthTooLarge request = false
  ∧ ∃ image metadata,
      req_body request = body_object (Some image) metadata
      ∧ image ≠ ""
      ∧ Z.of_nat (String.length image) ≤ MAX_BODY_SIZE
      ∧ validateMetadata metadata = true.

(** The two checks that precede the [try] block. *)
Definition authorized (env : RouteEnv) (request : UploadRequest) : bool :=
  validateAuth (env_verifyUploadToken env) (env_API_KEY env) (req_api_key request).

Definition rateChecked (env : RouteEnv) (request : UploadRequest)
    (rateLimitMap : gmap string UploadRoute.RateLimitEntry)
  : UploadRoute.RateCheck * gmap string UploadRoute.RateLimitEntry :=
  UploadRoute.isRateLimited (env_now env) (env_rnd env) (env_cleanupNow env)
    (getClientId request) rateLimitMap.

(** *** The text of the request

    [JSON.stringify] on what [uploadItem] sends.  A string stands for the
    UTF-8 bytes of the JS string; the text of a string is put between
    double quotes, with the quote, the backslash and the control characters
    escaped and every other byte as it is; an integer is written in
    decimal. *)
Definition doubleQuote : ascii := "034"%char.

Definition hexDigit (n : nat) : ascii :=
  ascii_of_nat (if (n <? 10)%nat then 48 + n else 87 + n).

Definition backslash : ascii := "092"%char.

Definition escapeChar (c : ascii) : string :=
  let n := nat_of_ascii c in
  if (n =? 34)%nat then String backslash (String doubleQuote "")
  else if (n =? 92)%nat then String backslash (String backslash "")
  else if (n =? 8)%nat then String backslash "b"
  else if (n =? 9)%nat then String backslash "t"
  else if (n =? 10)%nat then String backslash "n"
  else if (n =? 12)%nat then String backslash "f"
  else if (n =? 13)%nat then String backslash "r"
  else if (n <? 32)%nat
  then String backslash
         ("u00" +:+ String (hexDigit (n / 16)) (String (hexDigit (n mod 16)) ""))
  else String c "".

Fixpoint escape (s : string) : string :=
  match s with
  | EmptyString => EmptyString
  | String c rest => escapeChar c +:+ escape rest
  end.

Definition stringifyString (s : string) : string :=
  String doubleQuote (escape s +:+ String doubleQuote "").

Definition member (key value : string) : string :=
  stringifyString key +:+ ":" +:+ value.

Definition stringifyMetadata (m : CaptureMetadata) : string :=
  "{" +:+ member "label" (stringifyString (LabelType_str (label m)))
  +:+ "," +:+ member "phase" (stringifyString (PhaseTag_str (phase m)))
  +:+ "," +:+ member "seq" (pretty (seq m))
  +:+ "," +:+ member "timestamp_iso" (stringifyString (timestamp_iso m))
  +:+ "," +:+ member "ua" (stringifyString (ua m))
  +:+ "," +:+ member "session_id" (stringifyString (session_id m))
  +:+ "," +:+ member "camera_facing"
                (stringifyString (match camera_facing m with
                                  | facing_user => "user"
                                  | facing_environment => "environment"
                                  end))
  +:+ "," +:+ member "device_platform" (stringifyString (device_platform m))
  +:+ "}".

(** [JSON.stringify({ imageBase64: item.imageBase64, metadata: item.metadata })]. *)
Definition stringifyBody (item : CaptureItem) : string :=
  "{" +:+ member "imageBase64" (stringifyString (imageBase64 item))
  +:+ "," +:+ member "metadata" (stringifyMetadata (metadata item))
  +:+ "}".

(** The number of bytes of the body, which [fetch] writes in the
    [content-length] header. *)
Definition bodyLength (item : CaptureItem) : Z :=
  Z.of_nat (String.length (stringifyBody item)).

(** The request that [uploadItem] sends for an item, with the upload token
    as its key, as the route reads it: the header of the body's length, and
    the object that [request.json()] parses from the text. *)
Definition clientRequest (apiKey : string) (item : CaptureItem)
    (ip : option string) : UploadRequest :=
  {| req_ip := ip; req_forwarded_for := None; req_real_ip := None;
     req_api_key := Some apiKey;
     req_content_length := Some (pretty (bodyLength item));
     req_body := body_object (Some (imageBase64 item))
                   (Some (metadataJson (metadata item))) |}.

(** A route that is configured, knows one token and finds Cloudinary
    working, and the first capture of a session. *)
Definition sampleEnv : RouteEnv :=
  {| env_configured := true; env_API_KEY := None;
     env_verifyUploadToken := String.eqb "1735689600000.ab12";
     env_now := 1735689600500; env_rnd := 1 # 2; env_cleanupNow := 1735689600500;
     env_uploadSucceeds := true |}.

Definition sampleCapture : CaptureItem :=
  newItem "a" 1735689600000 "data:image/jpeg;base64,AAAA"
    {| label := looking_center; phase := PhaseA; seq := 1;
       timestamp_iso := "2025-01-01T00:00:00.000Z"; ua := "Mozilla/5.0";
       session_id := sampleSession; camera_facing := facing_user;
       device_platform := "linux" |}.
(* ================================================================= *)
(** * Properties *)

(** The queue updaters and the store operations stay folded under [cbn]. *)
#[global] Arguments markStatus : simpl never.
#[global] Arguments markError : simpl never.
#[global] Arguments retryFailed_update : simpl never.
#[global] Arguments nextEligible : simpl never.
#[global] Arguments hasPending : simpl never.
#[global] Arguments getOfflineQueue : simpl never.
#[global] Arguments saveToOfflineQueue : simpl never.
#[global] Arguments removeFromOfflineQueue : simpl never.
#[global] Arguments getBackoffDelay : simpl never.
#[global] Arguments totalWaitMs : simpl never.
#[global] Arguments countStatus : simpl never.

(** ** Basic facts on the queue computations *)

Lemma is_status_true s item : is_status s item = true ↔ status item = s.
Proof. unfold is_status. apply bool_decide_eq_true. Qed.

Lemma is_status_false s item : is_status s item = false ↔ status item ≠ s.
Proof. unfold is_status. apply bool_decide_eq_false. Qed.

Lemma eligible_true item : eligible item = true ↔ isEligible item.
Proof.
  unfold eligible, isEligible.
  rewrite andb_true_iff, is_status_true, Z.ltb_lt. reflexivity.
Qed.

Lemma eligible_false item : eligible item = false ↔ ¬ isEligible item.
Proof.
  rewrite <- eligible_true. destruct (eligible item); split; congruence.
Qed.

Lemma ceiling_test item :
  is_status Error item && (MAX_RETRIES <=? retryCount item) = true ↔ atCeiling item.
Proof.
  unfold atCeiling. rewrite andb_true_iff, is_status_true, Z.leb_le. reflexivity.
Qed.

Lemma retryFailed_item_fixed item :
  let f := fun item : CaptureItem =>
    if is_status Error item && (MAX_RETRIES <=? retryCount item)
    then with_retryCount 0 (with_status Pending item) else item in
  f (f item) = f item.
Proof.
  simpl. destruct (is_status Error item && (MAX_RETRIES <=? retryCount item)) eqn:E.
  - reflexivity.
  - rewrite E. reflexivity.
Qed.

Lemma retryFailed_update_lookup (prev : list CaptureItem) i item :
  prev !! i = Some item →
  retryFailed_update prev !! i =
    Some (if decide (atCeiling item)
          then with_retryCount 0 (with_status Pending item) else item).
Proof.
  intros H. unfold retryFailed_update.
  change (List.map ?f prev) with (f <$> prev).
  rewrite list_lookup_fmap, H. simpl. f_equal.
  destruct (decide (atCeiling item)) as [Hc|Hc].
  - apply ceiling_test in Hc. rewrite Hc. reflexivity.
  - destruct (is_status Error item && (MAX_RETRIES <=? retryCount item)) eqn:E;
      [|reflexivity].
    apply ceiling_test in E. contradiction.
Qed.

Lemma retryFailed_update_idem prev :
  retryFailed_update (retryFailed_update prev) = retryFailed_update prev.
Proof.
  unfold retryFailed_update. rewrite List.map_map. apply List.map_ext.
  intros item. apply retryFailed_item_fixed.
Qed.

(** ** The progress summary *)

Lemma countStatus_cons s item q :
  countStatus s (item :: q) =
    ((if is_status s item then 1 else 0) + countStatus s q)%nat.
Proof. unfold countStatus. simpl. destruct (is_status s item); reflexivity. Qed.

Lemma uploadProgress_cons item q :
  success (uploadProgress (item :: q)) =
    ((if is_status Success item then 1 else 0) + success (uploadProgress q))%nat
  ∧ failed (uploadProgress (item :: q)) =
    ((if is_status Error item && (MAX_RETRIES <=? retryCount item)%Z then 1 else 0)
     + failed (uploadProgress q))%nat
  ∧ pending (uploadProgress (item :: q)) =
    ((if is_status Pending item || is_status Uploading item then 1 else 0)
     + pending (uploadProgress q))%nat.
Proof.
  unfold uploadProgress. simpl.
  destruct (is_status Success item),
    (is_status Error item && (MAX_RETRIES <=? retryCount item)),
    (is_status Pending item || is_status Uploading item); auto.
Qed.

Lemma pending_bucket q :
  pending (uploadProgress q) = (countStatus Pending q + countStatus Uploading q)%nat.
Proof.
  induction q as [|item q IH]; [reflexivity|].
  destruct (uploadProgress_cons item q) as (_ & _ & ->).
  rewrite !countStatus_cons, IH. unfold is_status.
  destruct (status item); simpl; lia.
Qed.

Lemma failed_bucket_at_ceiling q :
  errorsAtCeiling q → failed (uploadProgress q) = countStatus Error q.
Proof.
  induction q as [|item q IH]; intros H; [reflexivity|].
  destruct (uploadProgress_cons item q) as (_ & -> & _).
  rewrite countStatus_cons, IH.
  2:{ intros x Hx. apply H. by apply list_elem_of_further. }
  f_equal. destruct (is_status Error item) eqn:E; [|reflexivity].
  apply is_status_true in E. simpl.
  assert (MAX_RETRIES ≤ retryCount item) as L
    by (apply H; [apply list_elem_of_here|exact E]).
  apply Z.leb_le in L. rewrite L. reflexivity.
Qed.

Lemma buckets_cover q :
  (countStatus Success q + countStatus Error q
   + (countStatus Pending q + countStatus Uploading q) = length q)%nat.
Proof.
  induction q as [|item q IH]; [reflexivity|].
  rewrite !countStatus_cons. simpl length. unfold is_status.
  destruct (status item); simpl; lia.
Qed.

(** The ceiling invariant holds along every run, whatever the events. *)

Lemma elem_of_map {A B} (f : A → B) (l : list A) (y : B) :
  y ∈ List.map f l ↔ ∃ x, y = f x ∧ x ∈ l.
Proof. apply (list_elem_of_fmap f l y). Qed.

Lemma errorsAtCeiling_markStatus t s q :
  s ≠ Error → errorsAtCeiling q → errorsAtCeiling (markStatus t s q).
Proof.
  intros Hs H item Hin Hst. apply elem_of_map in Hin as (x & -> & Hx).
  destruct (String.eqb (id x) t); [simpl in Hst; congruence|]. by apply H.
Qed.

Lemma errorsAtCeiling_markError next q :
  errorsAtCeiling q → errorsAtCeiling (markError next q).
Proof.
  intros H item Hin Hst. apply elem_of_map in Hin as (x & -> & Hx).
  destruct (String.eqb (id x) (id next)); [|by apply H].
  simpl in *. destruct (MAX_RETRIES <=? retryCount next + 1) eqn:E; [|discriminate].
  by apply Z.leb_le.
Qed.

Lemma errorsAtCeiling_retryFailed q :
  errorsAtCeiling q → errorsAtCeiling (retryFailed_update q).
Proof.
  intros H item Hin Hst. apply elem_of_map in Hin as (x & -> & Hx).
  destruct (is_status Error x && (MAX_RETRIES <=? retryCount x)); [discriminate|].
  by apply H.
Qed.

Lemma getOfflineQueue_elem db item :
  item ∈ getOfflineQueue db ↔
  ∃ key, String.prefix STORE_PREFIX key = true ∧ db !! key = Some item.
Proof.
  unfold getOfflineQueue, queueKeys. rewrite list_elem_of_omap. split.
  - intros (key & Hk & Hl). exists key. split; [|exact Hl].
    apply list_elem_of_In, List.filter_In in Hk. tauto.
  - intros (key & Hp & Hl). exists key. split; [|exact Hl].
    apply list_elem_of_In, List.filter_In. split; [|exact Hp].
    apply list_elem_of_In, list_elem_of_fmap. exists (key, item).
    split; [reflexivity|]. by apply elem_of_map_to_list.
Qed.

Lemma ceilingInv_processNext rnd e : ceilingInv e → ceilingInv (processNext rnd e).
Proof.
  intros [Hq Hs]. unfold processNext.
  destruct (negb (mountedRef e)); [done|].
  destruct (nextEligible (queueRef e)); [|done].
  split; cbn; [|done]. by apply errorsAtCeiling_markStatus.
Qed.

Lemma ceilingInv_commit rnd e : ceilingInv e → ceilingInv (commit rnd e).
Proof.
  intros H. unfold commit, syncQueueRef, autoStart, startProcessing.
  repeat case_match; try done.
  destruct (ceilingInv_processNext rnd
              (set_processingRef true (set_queueRef (queue e) e)) H).
  done.
Qed.

Lemma ceilingInv_handler rnd ev e : ceilingInv e → ceilingInv (handler rnd ev e).
Proof.
  intros [Hq Hs]. destruct ev; simpl.
  - split; [|done]. cbn. intros item Hin Hst.
    apply elem_of_app in Hin as [Hin|Hin]; [by apply Hq|].
    apply list_elem_of_singleton in Hin. subst. discriminate.
  - split; [|done]. cbn. by apply errorsAtCeiling_retryFailed.
  - unfold clearQueue, clearTimeoutRef. split.
    + repeat case_match; cbn; intros item Hin; by apply elem_of_nil in Hin.
    + repeat case_match; cbn; done.
  - unfold loadOfflineQueue. case_match; [|done]. split; [|done]. cbn.
    intros item Hin Hst. apply elem_of_app in Hin as [Hin|Hin]; [by apply Hq|].
    apply getOfflineQueue_elem in Hin as (key & _ & Hl). by eapply Hs.
  - unfold resumeAfterBackoff. repeat case_match; done.
  - unfold resumeAfterUpload.
    destruct (awaiting e !! k) as [[[d|] next]|]; try done.
    cbn. destruct (mountedRef e); cbn; [|done].
    destruct result.
    + split; cbn; [by apply errorsAtCeiling_markStatus|].
      intros key item Hl. unfold removeFromOfflineQueue in Hl.
      apply lookup_delete_Some in Hl as [_ Hl]. by eapply Hs.
    + unfold onError. destruct (MAX_RETRIES <=? retryCount next + 1) eqn:E;
        (split; cbn; [by apply errorsAtCeiling_markError|]); [|done].
      intros key item Hl Hst. unfold saveToOfflineQueue in Hl.
      apply lookup_insert_Some in Hl as [[_ <-]|[_ Hl]]; [|by eapply Hs].
      cbn. by apply Z.leb_le.
    + split; cbn; [by apply errorsAtCeiling_markStatus|done].
  - unfold fireTimer. case_match; [|done]. unfold runCallback.
    repeat case_match; try done; by apply ceilingInv_processNext.
  - unfold unmount, clearTimeoutRef. repeat case_match; done.
Qed.

Lemma ceilingInv_step rnd ev e : ceilingInv e → ceilingInv (step rnd ev e).
Proof.
  intros H. unfold step.
  case_match; [apply ceilingInv_commit|]; by apply ceilingInv_handler.
Qed.

Lemma ceilingInv_run evs e : ceilingInv e → ceilingInv (run evs e).
Proof.
  revert e. induction evs as [|[rnd ev] evs IH]; intros e H; [done|].
  simpl. apply IH. by apply ceilingInv_step.
Qed.

Lemma ceilingInv_initial db : storeAtCeiling db → ceilingInv (initialEngine db).
Proof.
  intros H. split; [|exact H]. intros item Hin. by apply elem_of_nil in Hin.
Qed.

Lemma errorsAtCeiling_Forall q :
  errorsAtCeiling q ↔
  Forall (fun item => status item = Error → MAX_RETRIES ≤ retryCount item) q.
Proof. unfold errorsAtCeiling. by rewrite Forall_forall. Qed.

(** C9. For every queue state of the hook, [uploadProgress] returns the
    counts of the current statuses: [success] is the number of items of
    status ['success'], [failed] the number of items of status ['error'],
    [pending] the number of items of status ['pending'] or ['uploading'],
    and the three add up to the length of the queue.  The filter of
    [failed] also asks for [retryCount >= MAX_RETRIES]; every ['error']
    item of a queue that a run reaches, from a store whose ['error']
    captures are at the retry ceiling, passes it, so the counts are as
    said on every such queue, and on any list of items whose ['error']
    items are at the ceiling. *)
Theorem uploadProgress_buckets :
  (∀ q : list CaptureItem,
     success (uploadProgress q) = countStatus Success q
     ∧ failed (uploadProgress q) =
         length (List.filter (fun item => bool_decide (atCeiling item)) q)
     ∧ pending (uploadProgress q) =
         (countStatus Pending q + countStatus Uploading q)%nat
     ∧ (errorsAtCeiling q →
          failed (uploadProgress q) = countStatus Error q
          ∧ (success (uploadProgress q) + failed (uploadProgress q)
             + pending (uploadProgress q))%nat = length q))
  ∧ (∀ db evs, storeAtCeiling db →
       errorsAtCeiling (queue (run evs (initialEngine db))))
  ∧ (∀ db evs, storeAtCeiling db →
       success (uploadProgress (queue (run evs (initialEngine db)))) =
         countStatus Success (queue (run evs (initialEngine db)))
       ∧ failed (uploadProgress (queue (run evs (initialEngine db)))) =
           countStatus Error (queue (run evs (initialEngine db)))
       ∧ pending (uploadProgress (queue (run evs (initialEngine db)))) =
           (countStatus Pending (queue (run evs (initialEngine db)))
            + countStatus Uploading (queue (run evs (initialEngine db))))%nat
       ∧ (success (uploadProgress (queue (run evs (initialEngine db))))
          + failed (uploadProgress (queue (run evs (initialEngine db))))
          + pending (uploadProgress (queue (run evs (initialEngine db)))))%nat =
           length (queue (run evs (initialEngine db)))).
Proof.
  assert (∀ db evs, storeAtCeiling db →
            errorsAtCeiling (queue (run evs (initialEngine db)))) as Hreach.
  { intros db evs H. apply (ceilingInv_run evs (initialEngine db)).
    by apply ceilingInv_initial. }
  split; [|split; [exact Hreach|]].
  - intros q. split; [reflexivity|]. split; [|split].
    + unfold uploadProgress; simpl. f_equal. apply List.filter_ext.
      intros item. symmetry.
      destruct (is_status Error item && (MAX_RETRIES <=? retryCount item)) eqn:E.
      * apply bool_decide_eq_true, ceiling_test, E.
      * apply bool_decide_eq_false. intros Hc. apply ceiling_test in Hc. congruence.
    + apply pending_bucket.
    + intros H. rewrite (failed_bucket_at_ceiling q H), pending_bucket.
      split; [reflexivity|]. apply buckets_cover.
  - intros db evs H. specialize (Hreach db evs H).
    set (q := queue (run evs (initialEngine db))) in *.
    split; [reflexivity|].
    rewrite (failed_bucket_at_ceiling q Hreach), pending_bucket.
    split; [reflexivity|]. split; [reflexivity|]. apply buckets_cover.
Qed.

Lemma uploadProgress_buckets_witness :
  failed (uploadProgress sampleQueue) = countStatus Error sampleQueue
  ∧ (success (uploadProgress sampleQueue) + failed (uploadProgress sampleQueue)
     + pending (uploadProgress sampleQueue))%nat = length sampleQueue
  ∧ errorsAtCeiling (queue (run [enqueue "a"; enqueue "b"] (initialEngine ∅)))
  ∧ failed (uploadProgress (queue (run fiveErrors (initialEngine ∅)))) =
      countStatus Error (queue (run fiveErrors (initialEngine ∅))).
Proof.
  destruct uploadProgress_buckets as (Hq & Hrun & Hcount).
  destruct (Hq sampleQueue) as (_ & _ & _ & Hpart).
  split; [|split; [|split]].
  - apply Hpart, errorsAtCeiling_Forall.
    repeat constructor; intros Hst;
      first [discriminate Hst | vm_compute; discriminate].
  - apply Hpart, errorsAtCeiling_Forall.
    repeat constructor; intros Hst;
      first [discriminate Hst | vm_compute; discriminate].
  - apply Hrun. intros key item Hl. by rewrite lookup_empty in Hl.
  - assert (storeAtCeiling ∅) as Hs
      by (intros key item Hl; by rewrite lookup_empty in Hl).
    exact (proj1 (proj2 (Hcount ∅ fiveErrors Hs))).
Defined.

(** Three enqueues and three successes: every item is in the [success]
    bucket, the store is empty and the engine is idle. *)
Example three_successes_summary :
  admissible threeSuccesses (initialEngine ∅) = true
  ∧ uploadProgress (queue (run threeSuccesses (initialEngine ∅))) =
      {| success := 3; failed := 0; pending := 0 |}
  ∧ List.map id (queue (run threeSuccesses (initialEngine ∅))) = ["a"; "b"; "c"]
  ∧ offlineDb (run threeSuccesses (initialEngine ∅)) = ∅
  ∧ processingRef (run threeSuccesses (initialEngine ∅)) = false.
Proof. vm_compute. repeat split; reflexivity. Qed.

(** ** The choice of the next item *)

Lemma nextEligible_None q :
  nextEligible q = None ↔ Forall (fun x => ¬ isEligible x) q.
Proof.
  unfold nextEligible. induction q as [|x q IH]; simpl.
  - split; [constructor|reflexivity].
  - destruct (eligible x) eqn:E.
    + split; [discriminate|]. intros H. inversion H; subst.
      apply eligible_true in E. contradiction.
    + rewrite IH. apply eligible_false in E. split.
      * by constructor.
      * intros H. by inversion H.
Qed.

Lemma nextEligible_Some q item :
  nextEligible q = Some item ↔
  ∃ l1 l2, q = (l1 ++ item :: l2)%list ∧ isEligible item
           ∧ Forall (fun x => ¬ isEligible x) l1.
Proof.
  unfold nextEligible. revert item. induction q as [|x q IH]; intros item; simpl.
  - split; [discriminate|]. intros (l1 & l2 & H & _). by destruct l1.
  - destruct (eligible x) eqn:E.
    + apply eligible_true in E. split.
      * intros [= <-]. exists [], q. split; [done|]. split; [done|constructor].
      * intros ([|y l1] & l2 & H & He & Hf); simplify_eq/=; [done|].
        inversion Hf; subst. contradiction.
    + apply eligible_false in E. rewrite IH. split.
      * intros (l1 & l2 & -> & He & Hf). exists (x :: l1), l2.
        split; [done|]. split; [done|by constructor].
      * intros ([|y l1] & l2 & H & He & Hf); simplify_eq/=; [done|].
        exists l1, l2. inversion Hf; subst. split; [done|]. by split.
Qed.

Lemma processNext_unmounted rnd e :
  mountedRef e = false → processNext rnd e = e.
Proof. intros H. unfold processNext. by rewrite H. Qed.

Lemma processNext_idle rnd e :
  mountedRef e = true → nextEligible (queueRef e) = None →
  processNext rnd e = set_isUploading false (set_processingRef false e).
Proof. intros Hm Hn. unfold processNext. by rewrite Hm, Hn. Qed.

Lemma processNext_attempt rnd e next :
  mountedRef e = true → nextEligible (queueRef e) = Some next →
  processNext rnd e =
    set_awaiting
      (awaiting e ++
       [{| await_point :=
             if 0 <? retryCount next
             then AwaitBackoff (getBackoffDelay rnd (retryCount next))
             else AwaitUpload;
           nextItem := next |}])
      (setQueue (markStatus (id next) Uploading) (set_isUploading true e)).
Proof. intros Hm Hn. unfold processNext. by rewrite Hm, Hn. Qed.

Lemma commit_synced rnd e : queueRef (commit rnd e) = queue (commit rnd e).
Proof. reflexivity. Qed.



(** ** The per-item backoff delay *)

Lemma pow2_ge_1 attempt : 0 ≤ attempt → (1 <= Qpower 2 attempt)%Q.
Proof. intros H. apply Qpower_1_le; [|exact H]. by compute. Qed.

Lemma pow2_mono a b : a ≤ b → (Qpower 2 a <= Qpower 2 b)%Q.
Proof. intros H. apply Qpower_le_compat_l; [exact H|]. by compute. Qed.

Lemma cappedDelay_bounds attempt :
  0 ≤ attempt → (1000 <= cappedDelay attempt)%Q ∧ (cappedDelay attempt <= 30000)%Q.
Proof.
  intros H. unfold cappedDelay. split.
  - apply Q.min_glb; [|by compute].
    pose proof (pow2_ge_1 attempt H). lra.
  - apply Q.le_min_r.
Qed.

Lemma cappedDelay_pos attempt : (0 < cappedDelay attempt)%Q.
Proof.
  unfold cappedDelay. apply Q.min_glb_lt; [|by compute].
  assert (0 < Qpower 2 attempt)%Q by (apply Qpower_0_lt; by compute). lra.
Qed.

Lemma cappedDelay_mono a b : a ≤ b → (cappedDelay a <= cappedDelay b)%Q.
Proof.
  intros H. unfold cappedDelay. apply Q.min_le_compat_r.
  pose proof (pow2_mono a b H). lra.
Qed.

Lemma getBackoffDelay_unfold rnd attempt :
  getBackoffDelay rnd attempt = Qfloor (cappedDelay attempt + jitterAt attempt rnd).
Proof. reflexivity. Qed.

Lemma jitterAt_range attempt rnd :
  unitDraw rnd →
  (- (cappedDelay attempt * (1 # 10)) <= jitterAt attempt rnd)%Q
  ∧ (jitterAt attempt rnd < cappedDelay attempt * (1 # 10))%Q.
Proof.
  intros [H0 H1]. unfold jitterAt. pose proof (cappedDelay_pos attempt). split; nra.
Qed.

Lemma getBackoffDelay_mono rnd a b :
  unitDraw rnd → a ≤ b → getBackoffDelay rnd a ≤ getBackoffDelay rnd b.
Proof.
  intros [H0 H1] H. rewrite !getBackoffDelay_unfold. apply Qfloor_resp_le.
  unfold jitterAt. pose proof (cappedDelay_mono a b H).
  pose proof (cappedDelay_pos a). nra.
Qed.

Lemma getBackoffDelay_bounds rnd attempt :
  unitDraw rnd → 0 ≤ attempt →
  900 ≤ getBackoffDelay rnd attempt ≤ 33000.
Proof.
  intros Hr Ha. rewrite getBackoffDelay_unfold.
  destruct (jitterAt_range attempt rnd Hr) as [L U].
  destruct (cappedDelay_bounds attempt Ha) as [L' U'].
  split.
  - change 900 with (Qfloor 900). apply Qfloor_resp_le. lra.
  - change 33000 with (Qfloor 33000). apply Qfloor_resp_le. lra.
Qed.

Lemma jitterAt_onto attempt jitter :
  (- (cappedDelay attempt * (1 # 10)) <= jitter)%Q →
  (jitter < cappedDelay attempt * (1 # 10))%Q →
  ∃ rnd, unitDraw rnd ∧ (jitterAt attempt rnd == jitter)%Q.
Proof.
  intros L U. pose proof (cappedDelay_pos attempt) as P.
  set (c := (cappedDelay attempt * (1 # 10))%Q) in *.
  assert (0 < c)%Q as Pc by (unfold c; lra).
  assert (~ c == 0)%Q as Hnz by lra.
  set (q := (jitter / c)%Q).
  assert (q * c == jitter)%Q as E by (unfold q; field; exact Hnz).
  assert (-1 <= q)%Q as Lq by (apply Qle_shift_div_l; [exact Pc|lra]).
  assert (q < 1)%Q as Uq by (apply Qlt_shift_div_r; [exact Pc|lra]).
  clearbody q. exists ((q + 1) * (1 # 2))%Q. split; [split; lra|].
  unfold jitterAt. fold c. rewrite <- E. field.
Qed.

Lemma sumQ_mono (f g : Q → Q) (draws : list Q) :
  Forall (fun r => (f r <= g r)%Q) draws →
  (sumQ (List.map f draws) <= sumQ (List.map g draws))%Q.
Proof.
  induction 1 as [|r draws Hr _ IH]; simpl; [apply Qle_refl|].
  by apply Qplus_le_compat.
Qed.

Lemma meanDelay_mono draws a b :
  Forall unitDraw draws → a ≤ b → (meanDelay draws a <= meanDelay draws b)%Q.
Proof.
  intros Hd Hab. unfold meanDelay, Qdiv. apply Qmult_le_compat_r.
  - apply (sumQ_mono (fun rnd => inject_Z (getBackoffDelay rnd a))
                     (fun rnd => inject_Z (getBackoffDelay rnd b))).
    eapply Forall_impl; [exact Hd|]. intros rnd Hr. simpl.
    rewrite <- Zle_Qle. by apply getBackoffDelay_mono.
  - apply Qinv_le_0_compat. change 0%Q with (inject_Z 0).
    rewrite <- Zle_Qle. lia.
Qed.

(** C6. For every attempt [>= 0] and every draw of [Math.random()] in
    [[0, 1)], [getBackoffDelay] is the floor of [min(1000 * 2^attempt, 30000)]
    plus a jitter that lies within 10 percent of that minimum on either
    side, and every such jitter value arises from some draw; the result is
    never negative and never above 33000; for every draw the result does
    not decrease when the attempt grows, hence neither does its mean over
    any sample of draws. *)
Theorem getBackoffDelay_formula_bounds_monotone :
  ∀ attempt : Z, 0 ≤ attempt →
    (∀ rnd, unitDraw rnd →
       getBackoffDelay rnd attempt =
         Qfloor (Qmin (1000 * Qpower 2 attempt) 30000 + jitterAt attempt rnd)
       ∧ (- (cappedDelay attempt * (1 # 10)) <= jitterAt attempt rnd)%Q
       ∧ (jitterAt attempt rnd < cappedDelay attempt * (1 # 10))%Q
       ∧ 0 ≤ getBackoffDelay rnd attempt ≤ 33000
       ∧ (∀ later, attempt ≤ later →
            getBackoffDelay rnd attempt ≤ getBackoffDelay rnd later))
    ∧ (∀ jitter : Q,
         (- (cappedDelay attempt * (1 # 10)) <= jitter)%Q →
         (jitter < cappedDelay attempt * (1 # 10))%Q →
         ∃ rnd, unitDraw rnd ∧ (jitterAt attempt rnd == jitter)%Q
                ∧ getBackoffDelay rnd attempt = Qfloor (cappedDelay attempt + jitter))
    ∧ (∀ draws later, Forall unitDraw draws → attempt ≤ later →
         (meanDelay draws attempt <= meanDelay draws later)%Q).
Proof.
  intros attempt Ha. split; [|split].
  - intros rnd Hr. split; [reflexivity|].
    destruct (jitterAt_range attempt rnd Hr) as [L U].
    split; [exact L|]. split; [exact U|]. split.
    + pose proof (getBackoffDelay_bounds rnd attempt Hr Ha). lia.
    + intros later Hl. by apply getBackoffDelay_mono.
  - intros jitter L U.
    destruct (jitterAt_onto attempt jitter L U) as (rnd & Hr & E).
    exists rnd. split; [exact Hr|]. split; [exact E|].
    rewrite getBackoffDelay_unfold. apply Qfloor_comp. by rewrite E.
  - intros draws later Hd Hl. by apply meanDelay_mono.
Qed.

Lemma getBackoffDelay_formula_bounds_monotone_witness :
  0 ≤ getBackoffDelay (3 # 4) 3 ≤ 33000
  ∧ getBackoffDelay (3 # 4) 3 ≤ getBackoffDelay (3 # 4) 4
  ∧ (meanDelay [0%Q; 1 # 4; 3 # 4] 3 <= meanDelay [0%Q; 1 # 4; 3 # 4] 7)%Q.
Proof.
  destruct (getBackoffDelay_formula_bounds_monotone 3 ltac:(lia)) as (H & _ & Hm).
  assert (unitDraw (3 # 4)) as Hr by (split; vm_compute; congruence).
  destruct (H (3 # 4) Hr) as (_ & _ & _ & Hb & Hmono).
  split; [exact Hb|]. split; [apply Hmono; lia|].
  apply Hm; [|lia].
  repeat (constructor; [split; vm_compute; congruence|]). constructor.
Defined.

(** ** The rate-limit pause *)




Lemma resumeAfterUpload_mounted rnd k result e next :
  mountedRef e = true →
  awaiting e !! k = Some {| await_point := AwaitUpload; nextItem := next |} →
  resumeAfterUpload rnd k result e =
    let e' := set_awaiting (delete k (awaiting e)) e in
    match result with
    | upload_success => onSuccess next e'
    | upload_rate_limit => onRateLimit rnd next e'
    | upload_error => onError next e'
    end.
Proof. intros Hm Hk. unfold resumeAfterUpload. rewrite Hk. cbn. by rewrite Hm. Qed.



(** ** Rate-limited attempts *)

Lemma markStatus_retryCount t s q :
  List.map idRetryCount (markStatus t s q) = List.map idRetryCount q.
Proof.
  unfold markStatus. rewrite List.map_map. apply List.map_ext.
  intros x. by destruct (String.eqb (id x) t).
Qed.

Lemma markStatus_lookup t s (q : list CaptureItem) i item :
  q !! i = Some item →
  markStatus t s q !! i =
    Some (if decide (id item = t) then with_status s item else item).
Proof.
  intros H. unfold markStatus. change (List.map ?f q) with (f <$> q).
  rewrite list_lookup_fmap, H. simpl. f_equal.
  destruct (String.eqb_spec (id item) t); by case_decide.
Qed.

Lemma processNext_retryCount rnd e :
  List.map idRetryCount (queue (processNext rnd e)) = List.map idRetryCount (queue e)
  ∧ consecutiveRateLimitsRef (processNext rnd e) = consecutiveRateLimitsRef e.
Proof.
  unfold processNext. repeat case_match; cbn; try done.
  all: split; [apply markStatus_retryCount|done].
Qed.

Lemma commit_retryCount rnd e :
  List.map idRetryCount (queue (commit rnd e)) = List.map idRetryCount (queue e)
  ∧ consecutiveRateLimitsRef (commit rnd e) = consecutiveRateLimitsRef e.
Proof.
  unfold commit, syncQueueRef, autoStart, startProcessing.
  repeat case_match; try done. cbn [queue consecutiveRateLimitsRef set_queueRef].
  apply (processNext_retryCount rnd (set_processingRef true (set_queueRef (queue e) e))).
Qed.

Lemma commit_rate_limited rnd e :
  isRateLimited e = true → queue (commit rnd e) = queue e.
Proof.
  intros H. unfold commit, syncQueueRef, autoStart. cbn. rewrite H.
  by rewrite andb_false_r.
Qed.

Lemma handler_retryCount rnd ev e :
  keepsRetryCount ev →
  List.map idRetryCount (queue (handler rnd ev e)) = List.map idRetryCount (queue e).
Proof.
  destruct ev; simpl; try done; intros H.
  - unfold resumeAfterBackoff. by repeat case_match.
  - unfold resumeAfterUpload.
    destruct (awaiting e !! k) as [[[d|] next]|]; try done.
    cbn. destruct (mountedRef e); cbn; [|done].
    destruct result; [|done|]; cbn; by rewrite markStatus_retryCount.
  - unfold fireTimer. case_match; [|done]. unfold runCallback.
    repeat case_match; try done;
      match goal with |- context [processNext ?r ?x] =>
        by rewrite (proj1 (processNext_retryCount r x)) end.
  - unfold unmount, clearTimeoutRef. by repeat case_match.
Qed.

Lemma step_retryCount rnd ev e :
  keepsRetryCount ev →
  List.map idRetryCount (queue (step rnd ev e)) = List.map idRetryCount (queue e).
Proof.
  intros H. unfold step. case_match.
  - rewrite (proj1 (commit_retryCount _ _)). by apply handler_retryCount.
  - by apply handler_retryCount.
Qed.

Lemma run_retryCount evs e :
  Forall (fun re => keepsRetryCount re.2) evs →
  List.map idRetryCount (queue (run evs e)) = List.map idRetryCount (queue e).
Proof.
  intros H. revert e. induction H as [|[rnd ev] evs Hev _ IH]; intros e; [done|].
  simpl. rewrite IH. by apply step_retryCount.
Qed.


(** C4. When a mounted engine receives ['rate_limit'] for the item of a
    suspended attempt, the queue keeps its length and every item its place;
    the items with the attempted id get status ['pending'], every other
    item keeps its status, and every item keeps its [retryCount] and all
    its other fields; the counter of consecutive rate limits grows by
    exactly 1; a ['success'] outcome sets that counter to 0.  Along any run
    made of rate-limit and success outcomes, elapsed backoffs, timer
    expiries and the unmount, however long, every item keeps its id and its
    [retryCount]. *)
Theorem rate_limit_keeps_retryCount :
  (∀ rnd e k next,
     mountedRef e = true →
     awaiting e !! k = Some {| await_point := AwaitUpload; nextItem := next |} →
     let e' := step rnd (EvUploadSettled k upload_rate_limit) e in
     length (queue e') = length (queue e)
     ∧ (∀ i item, queue e !! i = Some item →
          ∃ item', queue e' !! i = Some item'
            ∧ status item' =
                (if decide (id item = id next) then Pending else status item)
            ∧ retryCount item' = retryCount item
            ∧ otherFields item' = otherFields item)
     ∧ List.map idRetryCount (queue e') = List.map idRetryCount (queue e)
     ∧ consecutiveRateLimitsRef e' = consecutiveRateLimitsRef e + 1)
  ∧ (∀ rnd e k next,
       mountedRef e = true →
       awaiting e !! k = Some {| await_point := AwaitUpload; nextItem := next |} →
       consecutiveRateLimitsRef (step rnd (EvUploadSettled k upload_success) e) = 0)
  ∧ (∀ evs e,
       Forall (fun re => keepsRetryCount re.2) evs →
       List.map idRetryCount (queue (run evs e)) = List.map idRetryCount (queue e)).
Proof.
  split; [|split].
  - intros rnd e k next Hm Hk e'.
    assert (handler rnd (EvUploadSettled k upload_rate_limit) e =
            onRateLimit rnd next (set_awaiting (delete k (awaiting e)) e)) as Hh
      by apply (resumeAfterUpload_mounted rnd k upload_rate_limit e next Hm Hk).
    assert (queue e' = markStatus (id next) Pending (queue e)) as Hq.
    { unfold e', step. rewrite Hh. cbn [mountedRef onRateLimit]. cbn. rewrite Hm.
      by rewrite commit_rate_limited. }
    split; [|split; [|split]].
    + rewrite Hq. unfold markStatus. apply List.length_map.
    + intros i item Hi. rewrite Hq, (markStatus_lookup _ _ _ _ _ Hi).
      destruct (decide (id item = id next)); eexists; (split; [reflexivity|]);
        done.
    + rewrite Hq. apply markStatus_retryCount.
    + unfold e', step. rewrite Hh. cbn. rewrite Hm.
      by rewrite (proj2 (commit_retryCount _ _)).
  - intros rnd e k next Hm Hk. unfold step.
    assert (handler rnd (EvUploadSettled k upload_success) e =
            onSuccess next (set_awaiting (delete k (awaiting e)) e)) as Hh
      by apply (resumeAfterUpload_mounted rnd k upload_success e next Hm Hk).
    rewrite Hh. cbn. rewrite Hm. by rewrite (proj2 (commit_retryCount _ _)).
  - apply run_retryCount.
Qed.

Lemma rate_limit_keeps_retryCount_witness :
  (∃ item',
     queue (step draw (EvUploadSettled 0 upload_rate_limit) sampleRunning) !! 0%nat
       = Some item'
     ∧ status item' = Pending ∧ retryCount item' = 0
     ∧ otherFields item' =
         otherFields
           (newItem "a" 1735689600000 "data:image/jpeg;base64,AAAA" sampleMeta))
  ∧ List.map idRetryCount
      (queue (step draw (EvUploadSettled 0 upload_rate_limit) sampleRunning)) =
    [("a", 0)]
  ∧ consecutiveRateLimitsRef
      (step draw (EvUploadSettled 0 upload_rate_limit) sampleRunning) = 1
  ∧ consecutiveRateLimitsRef
      (step draw (EvUploadSettled 0 upload_success)
         (run [occur (EvUploadSettled 0 upload_rate_limit); occur (EvTimeout 1)]
              sampleRunning)) = 0
  ∧ List.map idRetryCount
      (queue (run [occur (EvUploadSettled 0 upload_rate_limit); occur (EvTimeout 1);
                   occur (EvUploadSettled 0 upload_rate_limit); occur (EvTimeout 2);
                   occur (EvUploadSettled 0 upload_success)] sampleRunning)) =
    [("a", 0)].
Proof.
  destruct rate_limit_keeps_retryCount as (Hrl & Hok & Hrun).
  destruct (Hrl draw sampleRunning 0%nat
              (newItem "a" 1735689600000 "data:image/jpeg;base64,AAAA" sampleMeta)
              eq_refl eq_refl) as (_ & Hpos & Hrc & Hc).
  split.
  { assert (queue sampleRunning !! 0%nat =
              Some (with_status Uploading
                      (newItem "a" 1735689600000 "data:image/jpeg;base64,AAAA"
                         sampleMeta))) as Hin by (vm_compute; reflexivity).
    destruct (Hpos 0%nat _ Hin) as (item' & Hl & Hst & Hn & Hrest).
    exists item'. split; [exact Hl|]. split; [exact Hst|]. split; [exact Hn|].
    exact Hrest. }
  split; [rewrite Hrc; reflexivity|].
  split; [rewrite Hc; reflexivity|]. split.
  - apply (Hok draw _ 0%nat
             (newItem "a" 1735689600000 "data:image/jpeg;base64,AAAA" sampleMeta));
      reflexivity.
  - rewrite Hrun; [reflexivity|].
    repeat (constructor; [simpl; first [exact I | discriminate]|]). constructor.
Defined.

(** ** Clearing the queue and the offline store *)

Lemma clearTimeoutRef_hookState ref e :
  hookState (clearTimeoutRef ref e) = hookState e
  ∧ awaiting (clearTimeoutRef ref e) = awaiting e.
Proof. by destruct ref. Qed.

Lemma clearQueue_hookState e :
  hookState (clearQueue e) = hookState (set_processingRef false (set_queue [] e))
  ∧ awaiting (clearQueue e) = awaiting e.
Proof.
  unfold clearQueue.
  set (e1 := set_processingRef false (setQueue (fun _ => []) e)).
  destruct (clearTimeoutRef_hookState (nextTimerRef e1) e1) as [H1 A1].
  set (e2 := clearTimeoutRef (nextTimerRef e1) e1) in *.
  destruct (clearTimeoutRef_hookState (rateLimitTimerRef e2) e2) as [H2 A2].
  split; [by rewrite H2, H1 | by rewrite A2, A1].
Qed.

Lemma clearQueue_fields e :
  offlineDb (clearQueue e) = offlineDb e
  ∧ queue (clearQueue e) = []
  ∧ mountedRef (clearQueue e) = mountedRef e.
Proof.
  destruct (clearQueue_hookState e) as [H _]. unfold hookState in H. cbn in H.
  by simplify_eq.
Qed.

Lemma clearTimeoutRef_timers ref e t :
  t ∈ timers (clearTimeoutRef ref e) → t ∈ timers e.
Proof.
  destruct ref as [h|]; [|done]. cbn.
  intros H. apply list_elem_of_In, List.filter_In in H as [H _].
  by apply list_elem_of_In.
Qed.

Lemma clearQueue_timers e t : t ∈ timers (clearQueue e) → t ∈ timers e.
Proof.
  unfold clearQueue. intros H.
  apply clearTimeoutRef_timers, clearTimeoutRef_timers in H. exact H.
Qed.

Lemma hasPending_false q :
  (∀ item, item ∈ q → ¬ isEligible item) → hasPending q = false.
Proof.
  intros H. unfold hasPending. apply not_true_is_false. intros E.
  apply List.existsb_exists in E as (x & Hx & Ex).
  apply eligible_true in Ex. apply (H x); [by apply list_elem_of_In|done].
Qed.

Lemma commit_nothing_eligible rnd e :
  (∀ item, item ∈ queue e → ¬ isEligible item) → commit rnd e = syncQueueRef e.
Proof.
  intros H. unfold commit, autoStart. cbn [queue syncQueueRef set_queueRef].
  rewrite (hasPending_false _ H). by cbn.
Qed.

Lemma loadOfflineQueue_queue e :
  queue (loadOfflineQueue e) = (queue e ++ getOfflineQueue (offlineDb e))%list.
Proof.
  unfold loadOfflineQueue.
  destruct (getOfflineQueue (offlineDb e)) as [|x l] eqn:E; cbn.
  - by rewrite app_nil_r.
  - done.
Qed.

Lemma loadOfflineQueue_offlineDb e : offlineDb (loadOfflineQueue e) = offlineDb e.
Proof. unfold loadOfflineQueue. by case_match. Qed.

Lemma step_clearQueue rnd e :
  offlineDb (step rnd EvClearQueue e) = offlineDb e
  ∧ queue (step rnd EvClearQueue e) = [].
Proof.
  unfold step. cbn [handler].
  destruct (clearQueue_fields e) as (Hdb & Hq & _).
  destruct (mountedRef (clearQueue e)); [|done].
  rewrite commit_nothing_eligible.
  - by cbn.
  - rewrite Hq. intros item Hin. by apply elem_of_nil in Hin.
Qed.

(** C10. [clearQueue] empties the queue, clears the processing flag and
    cancels the two referenced timers, and changes nothing else: the offline
    store after it, also after the commit that follows, is the store before
    it.  So a capture stored under a prefixed key is still there, and a later
    [loadOfflineQueue] over that store sets the queue to the items it
    already held followed by the stored captures, that capture among them.
    When the store holds only captures of status ['error'], clearing and
    then loading leaves exactly the stored captures in the queue. *)
Theorem clearQueue_keeps_offline_store :
  (∀ rnd e,
     hookState (clearQueue e) =
       hookState (set_processingRef false (set_queue [] e))
     ∧ awaiting (clearQueue e) = awaiting e
     ∧ (∀ t, t ∈ timers (clearQueue e) → t ∈ timers e)
     ∧ offlineDb (clearQueue e) = offlineDb e
     ∧ offlineDb (step rnd EvClearQueue e) = offlineDb e)
  ∧ (∀ e key item,
       String.prefix STORE_PREFIX key = true →
       offlineDb e !! key = Some item →
       offlineDb (clearQueue e) !! key = Some item
       ∧ (∀ e2, offlineDb e2 = offlineDb (clearQueue e) →
            queue (loadOfflineQueue e2) =
              (queue e2 ++ getOfflineQueue (offlineDb e))%list
            ∧ item ∈ getOfflineQueue (offlineDb e)))
  ∧ (∀ r1 r2 e,
       (∀ key item, offlineDb e !! key = Some item → status item = Error) →
       queue (run [(r1, EvClearQueue); (r2, EvLoadOfflineQueue)] e) =
         getOfflineQueue (offlineDb e)).
Proof.
  split; [|split].
  - intros rnd e. destruct (clearQueue_hookState e) as [Hh Ha].
    split; [exact Hh|]. split; [exact Ha|]. split; [apply clearQueue_timers|].
    split; [apply clearQueue_fields|]. apply step_clearQueue.
  - intros e key item Hp Hl. destruct (clearQueue_fields e) as (Hdb & _).
    split; [by rewrite Hdb|]. intros e2 H2. split.
    + rewrite loadOfflineQueue_queue, H2, Hdb. done.
    + apply getOfflineQueue_elem. eauto.
  - intros r1 r2 e Hst. simpl.
    destruct (step_clearQueue r1 e) as [Hdb Hq].
    set (e1 := step r1 EvClearQueue e) in *.
    assert (queue (loadOfflineQueue e1) = getOfflineQueue (offlineDb e)) as Hl
      by (rewrite loadOfflineQueue_queue, Hq, Hdb; done).
    unfold step. cbn [handler].
    destruct (mountedRef (loadOfflineQueue e1)); [|exact Hl].
    rewrite commit_nothing_eligible; [by cbn|].
    rewrite Hl. intros item Hin [He _].
    apply getOfflineQueue_elem in Hin as (key & _ & Hk).
    rewrite (Hst key item Hk) in He. discriminate.
Qed.

Lemma clearQueue_keeps_offline_store_witness :
  offlineDb (clearQueue sampleExhausted) !! "upload_queue_a" = Some exhaustedRecord
  ∧ queue (loadOfflineQueue (clearQueue sampleExhausted)) = [exhaustedRecord]
  ∧ queue (run [occur EvClearQueue; occur EvLoadOfflineQueue] sampleExhausted) =
      [exhaustedRecord].
Proof.
  destruct clearQueue_keeps_offline_store as (_ & Hkeep & Hrun).
  assert (offlineDb sampleExhausted !! "upload_queue_a" = Some exhaustedRecord)
    as Hl by (vm_compute; reflexivity).
  destruct (Hkeep sampleExhausted "upload_queue_a" exhaustedRecord eq_refl Hl)
    as [Hk Hload].
  split; [exact Hk|]. split.
  - rewrite (proj1 (Hload (clearQueue sampleExhausted) eq_refl)).
    vm_compute. reflexivity.
  - unfold occur. rewrite Hrun; [vm_compute; reflexivity|].
    intros key item Hi.
    assert (offlineDb sampleExhausted = {[ "upload_queue_a" := exhaustedRecord ]})
      as E by (vm_compute; reflexivity).
    rewrite E in Hi. apply lookup_singleton_Some in Hi as [_ <-]. reflexivity.
Defined.

(** ** At most one upload in flight *)

Lemma markStatus_ids t s q : List.map id (markStatus t s q) = List.map id q.
Proof.
  unfold markStatus. rewrite List.map_map. apply List.map_ext.
  intros x. by destruct (String.eqb (id x) t).
Qed.

Lemma markError_ids next q : List.map id (markError next q) = List.map id q.
Proof.
  unfold markError. rewrite List.map_map. apply List.map_ext.
  intros x. by destruct (String.eqb (id x) (id next)).
Qed.

Lemma retryFailed_update_ids q : List.map id (retryFailed_update q) = List.map id q.
Proof.
  unfold retryFailed_update. rewrite List.map_map. apply List.map_ext.
  intros x. by destruct (is_status Error x && (MAX_RETRIES <=? retryCount x)).
Qed.

Lemma countStatus_app s q1 q2 :
  countStatus s (q1 ++ q2) = (countStatus s q1 + countStatus s q2)%nat.
Proof. unfold countStatus. by rewrite List.filter_app, List.length_app. Qed.

Lemma countStatus_zero s q :
  countStatus s q = 0%nat ↔ ∀ item, item ∈ q → status item ≠ s.
Proof.
  induction q as [|x q IH].
  - split; [|done]. intros _ item H. by apply elem_of_nil in H.
  - rewrite countStatus_cons. destruct (is_status s x) eqn:E.
    + split; [lia|]. intros H. apply is_status_true in E.
      exfalso. apply (H x); [apply list_elem_of_here|done].
    + apply is_status_false in E. simpl. rewrite IH. split.
      * intros H item [->|Hin]%elem_of_cons; [done|by apply H].
      * intros H item Hin. apply H. by apply list_elem_of_further.
Qed.

(** A pointwise change of items that creates no ['uploading'] item does
    not raise their number. *)
Lemma countStatus_map_le (f : CaptureItem → CaptureItem) q :
  (∀ x, status (f x) = Uploading → status x = Uploading) →
  (countStatus Uploading (List.map f q) ≤ countStatus Uploading q)%nat.
Proof.
  intros H. induction q as [|x q IH]; [done|].
  simpl List.map. rewrite !countStatus_cons.
  destruct (is_status Uploading (f x)) eqn:E; [|lia].
  apply is_status_true, H in E. apply is_status_true in E. rewrite E. lia.
Qed.

Lemma countStatus_markStatus_le t s q :
  s ≠ Uploading →
  (countStatus Uploading (markStatus t s q) ≤ countStatus Uploading q)%nat.
Proof.
  intros Hs. apply countStatus_map_le. intros x.
  destruct (String.eqb (id x) t); [simpl; congruence|done].
Qed.

Lemma countStatus_markError_le next q :
  (countStatus Uploading (markError next q) ≤ countStatus Uploading q)%nat.
Proof.
  apply countStatus_map_le. intros x.
  destruct (String.eqb (id x) (id next)); [|done]. simpl.
  by destruct (MAX_RETRIES <=? retryCount next + 1).
Qed.

Lemma countStatus_retryFailed_le q :
  (countStatus Uploading (retryFailed_update q) ≤ countStatus Uploading q)%nat.
Proof.
  apply countStatus_map_le. intros x.
  by destruct (is_status Error x && (MAX_RETRIES <=? retryCount x)).
Qed.

(** Marking one id of a queue with distinct ids and no upload in flight
    puts at most one item in flight. *)
Lemma countStatus_mark_uploading t q :
  NoDup (List.map id q) →
  countStatus Uploading q = 0%nat →
  (countStatus Uploading (markStatus t Uploading q) ≤ 1)%nat.
Proof.
  induction q as [|x q IH]; intros Hnd Hz; [cbv; lia|].
  simpl in Hnd. apply NoDup_cons in Hnd as [Hx Hnd].
  rewrite countStatus_cons in Hz.
  unfold markStatus. simpl List.map. fold (markStatus t Uploading q).
  rewrite countStatus_cons.
  destruct (String.eqb_spec (id x) t) as [<-|Hne].
  - assert (markStatus (id x) Uploading q = q) as ->.
    { unfold markStatus. rewrite <- (List.map_id q) at 2. apply List.map_ext_in.
      intros y Hy. destruct (String.eqb_spec (id y) (id x)) as [E|]; [|done].
      exfalso. apply Hx. rewrite <- E. apply list_elem_of_In.
      by apply List.in_map. }
    destruct (is_status Uploading x); simpl in *; lia.
  - destruct (is_status Uploading x); [lia|]. simpl in *. by apply IH.
Qed.

Lemma elem_of_markStatus t s q item :
  item ∈ markStatus t s q ↔
  ∃ x, x ∈ q ∧ item = (if String.eqb (id x) t then with_status s x else x).
Proof.
  unfold markStatus. rewrite elem_of_map.
  split; intros (x & ? & ?); exists x; done.
Qed.

Lemma knownId_false q i : knownId q i = false ↔ i ∉ List.map id q.
Proof.
  unfold knownId. split.
  - intros H Hin. apply list_elem_of_In, List.in_map_iff in Hin as (x & <- & Hx).
    apply not_true_iff_false in H. apply H. apply List.existsb_exists.
    exists x. split; [done|]. apply String.eqb_refl.
  - intros H. apply not_true_is_false. intros E.
    apply List.existsb_exists in E as (x & Hx & Ex). apply String.eqb_eq in Ex.
    apply H. subst. apply list_elem_of_In. by apply List.in_map.
Qed.

Lemma nextEligible_elem q item : nextEligible q = Some item → item ∈ q ∧ isEligible item.
Proof.
  intros H. apply nextEligible_Some in H as (l1 & l2 & -> & He & _).
  split; [|done]. apply elem_of_app. right. apply list_elem_of_here.
Qed.

(** Fields the invariant does not read may change freely. *)
Lemma singleChain_ext e e' :
  queue e' = queue e → awaiting e' = awaiting e → timers e' = timers e →
  mountedRef e' = mountedRef e → processingRef e' = processingRef e →
  offlineDb e' = offlineDb e → nextTimerRef e' = nextTimerRef e →
  rateLimitTimerRef e' = rateLimitTimerRef e →
  singleChain e → singleChain e'.
Proof.
  intros Hq Ha Ht Hm Hp Hd Hn Hr [].
  split; unfold referenced in *; rewrite ?Hq, ?Ha, ?Ht, ?Hm, ?Hp, ?Hd, ?Hn, ?Hr; done.
Qed.

Lemma no_upload_when_idle e :
  singleChain e → mountedRef e = true → awaiting e = [] →
  countStatus Uploading (queue e) = 0%nat.
Proof.
  intros H Hm Ha. apply countStatus_zero. intros item Hin Hst.
  destruct (sc_uploading e H Hm item Hin Hst) as (s & Hs & _).
  rewrite Ha in Hs. by apply elem_of_nil in Hs.
Qed.

Lemma singleChain_processNext rnd e :
  singleChain e → mountedRef e = true → queueRef e = queue e →
  awaiting e = [] → timers e = [] → processingRef e = true →
  singleChain (processNext rnd e).
Proof.
  intros H Hm Hq Ha Ht Hp.
  pose proof (no_upload_when_idle e H Hm Ha) as Hz.
  destruct (nextEligible (queueRef e)) as [next|] eqn:Hn.
  - rewrite (processNext_attempt rnd e next Hm Hn).
    destruct H. split; cbn.
    + by rewrite markStatus_ids.
    + rewrite Ha, Ht. simpl. lia.
    + intros _ Hp'. congruence.
    + intros _ item Hin Hst. eexists. split.
      * rewrite Ha. apply list_elem_of_here.
      * cbn. apply elem_of_markStatus in Hin as (x & Hx & ->).
        destruct (String.eqb_spec (id x) (id next)) as [E|_]; [done|].
        exfalso. by apply (proj1 (countStatus_zero _ _) Hz x Hx).
    + by apply countStatus_mark_uploading.
    + done.
    + rewrite Ht. intros t Hin. by apply elem_of_nil in Hin.
  - rewrite (processNext_idle rnd e Hm Hn).
    destruct H. by split.
Qed.

Lemma singleChain_commit rnd e :
  singleChain e → mountedRef e = true →
  singleChain (commit rnd e) ∧ synced (commit rnd e).
Proof.
  intros H Hm. split; [|intros _; apply commit_synced].
  unfold commit.
  assert (singleChain (syncQueueRef e)) as H1 by (by apply (singleChain_ext e)).
  apply (singleChain_ext (autoStart rnd (syncQueueRef e))); try done.
  unfold autoStart.
  destruct (hasPending (queue (syncQueueRef e)) && negb (processingRef (syncQueueRef e))
            && negb (isRateLimited (syncQueueRef e))) eqn:C; [|done].
  apply andb_true_iff in C as [C _]. apply andb_true_iff in C as [_ C].
  apply negb_true_iff in C. unfold startProcessing. rewrite C. cbn [orb].
  change (mountedRef (syncQueueRef e)) with (mountedRef e). rewrite Hm. cbn [negb].
  destruct (sc_idle _ H1 Hm C) as [Ha Ht].
  apply singleChain_processNext; try done.
  destruct H1. by split.
Qed.

Lemma single_awaiting e k s :
  singleChain e → awaiting e !! k = Some s →
  awaiting e = [s] ∧ k = 0%nat ∧ timers e = [].
Proof.
  intros H Hk. pose proof (sc_one e H) as Hone.
  destruct (awaiting e) as [|s0 [|s1 l]] eqn:Ea; simpl in *; [done| |lia].
  destruct (timers e); simpl in *; [|lia].
  destruct k; simpl in *; [by simplify_eq|done].
Qed.

Lemma single_timer e h t :
  singleChain e →
  List.find (fun t => Nat.eqb (timer_handle t) h) (timers e) = Some t →
  timers e = [t] ∧ awaiting e = [] ∧ timers (clearTimeout h e) = [].
Proof.
  intros H Hf. pose proof (sc_one e H) as Hone.
  apply List.find_some in Hf as [Hin Hh].
  unfold clearTimeout. cbn.
  destruct (timers e) as [|t0 [|t1 l]] eqn:Et; simpl in *; [done| |lia].
  destruct Hin as [->|[]]. rewrite Hh. simpl.
  destruct (awaiting e); simpl in *; [done|lia].
Qed.

Lemma getOfflineQueue_failures db :
  storeOfFailures db →
  NoDup (List.map id (getOfflineQueue db))
  ∧ ∀ item, item ∈ getOfflineQueue db → status item = Error.
Proof.
  intros Hs. split.
  - unfold getOfflineQueue.
    assert (NoDup (queueKeys db)) as Hnd.
    { unfold queueKeys. apply NoDup_ListNoDup, List.NoDup_filter, NoDup_ListNoDup.
      apply NoDup_fst_map_to_list. }
    induction (queueKeys db) as [|key keys IH]; simpl; [constructor|].
    apply NoDup_cons in Hnd as [Hk Hnd].
    destruct (db !! key) as [item|] eqn:E; simpl; [|by apply IH].
    apply NoDup_cons. split; [|by apply IH].
    intros Hin. apply list_elem_of_In, List.in_map_iff in Hin as (item' & Hid & Hin').
    apply list_elem_of_In, list_elem_of_omap in Hin' as (key' & Hk' & E').
    destruct (Hs key item E) as [-> _]. destruct (Hs key' item' E') as [-> _].
    rewrite Hid in Hk'. contradiction.
  - intros item Hin. apply getOfflineQueue_elem in Hin as (key & _ & E).
    by destruct (Hs key item E).
Qed.

Lemma clearTimeoutRef_singleChain ref e :
  mountedRef e = false → singleChain e → singleChain (clearTimeoutRef ref e).
Proof.
  intros Hm H. destruct ref as [h|]; [|done].
  destruct H as [Hnd Hone Hidle Hupl Hcnt Hsto Href].
  split; cbn.
  - done.
  - pose proof (List.filter_length_le
                  (fun t => negb (Nat.eqb (timer_handle t) h)) (timers e)). lia.
  - intros ?. congruence.
  - intros ?. congruence.
  - done.
  - done.
  - intros t Hin. apply list_elem_of_In, List.filter_In in Hin as [Hin _].
    apply list_elem_of_In in Hin. by apply Href.
Qed.

Lemma singleChain_addToQueue newId now image meta e :
  singleChain e → knownId (queue e) newId = false →
  singleChain (addToQueue newId now image meta e).
Proof.
  intros [Hnd Hone Hidle Hupl Hcnt Hsto Href] Hal. apply knownId_false in Hal.
  split; cbn.
  - rewrite List.map_app. apply NoDup_app. split; [done|]. split.
    + intros x Hx [->|[]%elem_of_nil]%elem_of_cons. contradiction.
    + apply NoDup_singleton.
  - done.
  - done.
  - intros Hm item [Hin|Hin]%elem_of_app Hst; [by apply Hupl|].
    apply list_elem_of_singleton in Hin. subst. discriminate.
  - rewrite countStatus_app, countStatus_cons.
    change (is_status Uploading (newItem newId now image meta)) with false.
    change (countStatus Uploading []) with 0%nat. simpl. lia.
  - done.
  - done.
Qed.

Lemma singleChain_retryFailed e : singleChain e → singleChain (retryFailed e).
Proof.
  intros [Hnd Hone Hidle Hupl Hcnt Hsto Href]. split; cbn.
  - by rewrite retryFailed_update_ids.
  - done.
  - done.
  - intros Hm item Hin Hst. apply elem_of_map in Hin as (x & -> & Hx).
    destruct (is_status Error x && (MAX_RETRIES <=? retryCount x));
      [discriminate|]. by apply Hupl.
  - pose proof (countStatus_retryFailed_le (queue e)). lia.
  - done.
  - done.
Qed.

Lemma singleChain_loadOfflineQueue e :
  singleChain e → allowed e EvLoadOfflineQueue = true →
  singleChain (loadOfflineQueue e).
Proof.
  intros H Hal. simpl in Hal. unfold loadOfflineQueue.
  destruct (getOfflineQueue_failures _ (sc_store e H)) as [Hnd' Herr].
  case_match; [|done].
  destruct H as [Hnd Hone Hidle Hupl Hcnt Hsto Href]. split; cbn.
  - rewrite List.map_app. apply NoDup_app. split; [done|]. split; [|done].
    intros x Hx Hin.
    apply list_elem_of_In, List.in_map_iff in Hin as (item & <- & Hin).
    rewrite List.forallb_forall in Hal. specialize (Hal item Hin).
    apply negb_true_iff, knownId_false in Hal. contradiction.
  - done.
  - done.
  - intros Hm item [Hin|Hin]%elem_of_app Hst; [by apply Hupl|].
    rewrite (Herr item Hin) in Hst. discriminate.
  - rewrite countStatus_app.
    assert (countStatus Uploading (getOfflineQueue (offlineDb e)) = 0%nat) as ->.
    { apply countStatus_zero. intros item Hin. by rewrite (Herr item Hin). }
    lia.
  - done.
  - done.
Qed.

Lemma singleChain_resumeAfterBackoff k e :
  singleChain e → singleChain (resumeAfterBackoff k e).
Proof.
  intros H. unfold resumeAfterBackoff.
  destruct (awaiting e !! k) as [[[d|] next]|] eqn:Hk; try done.
  destruct (single_awaiting e k _ H Hk) as (Ha & -> & Ht).
  destruct H as [Hnd Hone Hidle Hupl Hcnt Hsto Href].
  destruct (mountedRef e) eqn:Hm; cbn; rewrite Ha; cbn.
  - split; cbn.
    + done.
    + rewrite Ht. simpl. lia.
    + intros _ Hp. destruct (Hidle eq_refl Hp) as [Ha' _]. congruence.
    + intros _ item Hin Hst.
      destruct (Hupl eq_refl item Hin Hst) as (s & Hs & Hid).
      rewrite Ha in Hs. apply list_elem_of_singleton in Hs. subst s.
      eexists. split; [apply list_elem_of_here|done].
    + done.
    + done.
    + done.
  - split; cbn.
    + done.
    + rewrite Ht. simpl. lia.
    + intros ?. congruence.
    + intros ?. congruence.
    + done.
    + done.
    + done.
Qed.

(** After the outcome of the single attempt no item is in flight. *)
Lemma settled_clears_upload e next (f : CaptureItem → CaptureItem) :
  (∀ item, item ∈ queue e → status item = Uploading → id item = id next) →
  (∀ x, id x = id next → status (f x) ≠ Uploading) →
  ∀ item,
    item ∈ List.map (fun q => if String.eqb (id q) (id next) then f q else q) (queue e) →
    status item ≠ Uploading.
Proof.
  intros Hup Hf item Hin Hst. apply elem_of_map in Hin as (x & -> & Hx).
  destruct (String.eqb_spec (id x) (id next)) as [E|E].
  - by apply (Hf x E).
  - apply E. by apply Hup.
Qed.

Lemma singleChain_resumeAfterUpload rnd k result e :
  singleChain e → singleChain (resumeAfterUpload rnd k result e).
Proof.
  intros H. unfold resumeAfterUpload.
  destruct (awaiting e !! k) as [[[d|] next]|] eqn:Hk; try done.
  destruct (single_awaiting e k _ H Hk) as (Ha & -> & Ht).
  assert (mountedRef e = true →
          ∀ item, item ∈ queue e → status item = Uploading → id item = id next)
    as Hup.
  { intros Hm item Hin Hst.
    destruct (sc_uploading e H Hm item Hin Hst) as (s & Hs & Hid).
    rewrite Ha in Hs. apply list_elem_of_singleton in Hs. by subst s. }
  destruct H as [Hnd Hone Hidle Hupl Hcnt Hsto Href].
  cbn. rewrite Ha. cbn. destruct (mountedRef e) eqn:Hm; cbn.
  2:{ split; cbn.
      - done.
      - rewrite Ht. simpl. lia.
      - intros ?. congruence.
      - intros ?. congruence.
      - done.
      - done.
      - done. }
  specialize (Hup eq_refl).
  assert (processingRef e = true) as Hp.
  { destruct (processingRef e) eqn:Hp; [done|].
    destruct (Hidle eq_refl eq_refl) as [Ha' _]. congruence. }
  destruct result.
  - (* success *)
    split; cbn.
    + by rewrite markStatus_ids.
    + rewrite Ht. simpl. lia.
    + intros _ ?. congruence.
    + intros _ item Hin Hst. exfalso.
      by apply (settled_clears_upload e next (with_status Success) Hup
                  ltac:(done) item Hin).
    + pose proof (countStatus_markStatus_le (id next) Success (queue e)
                    ltac:(done)). lia.
    + intros key item Hl. unfold removeFromOfflineQueue in Hl.
      apply lookup_delete_Some in Hl as [_ Hl]. by apply Hsto.
    + rewrite Ht. intros t [->|[]%elem_of_nil]%elem_of_cons. done.
  - (* error *)
    unfold onError.
    assert (∀ item, item ∈ markError next (queue e) → status item ≠ Uploading)
      as Hclr.
    { apply (settled_clears_upload e next _ Hup). intros x _. simpl.
      by destruct (MAX_RETRIES <=? retryCount next + 1). }
    pose proof (countStatus_markError_le next (queue e)) as Hle.
    destruct (MAX_RETRIES <=? retryCount next + 1) eqn:Ef; split; cbn.
    + by rewrite markError_ids.
    + rewrite Ht. simpl. lia.
    + intros _ ?. congruence.
    + intros _ item Hin Hst. exfalso. by apply (Hclr item).
    + lia.
    + intros key item Hl. unfold saveToOfflineQueue in Hl.
      apply lookup_insert_Some in Hl as [[<- <-]|[_ Hl]]; [done|].
      by apply Hsto.
    + rewrite Ht. intros t [->|[]%elem_of_nil]%elem_of_cons. done.
    + by rewrite markError_ids.
    + rewrite Ht. simpl. lia.
    + intros _ ?. congruence.
    + intros _ item Hin Hst. exfalso. by apply (Hclr item).
    + lia.
    + done.
    + rewrite Ht. intros t [->|[]%elem_of_nil]%elem_of_cons. done.
  - (* rate limit *)
    split; cbn.
    + by rewrite markStatus_ids.
    + rewrite Ht. simpl. lia.
    + intros _ ?. congruence.
    + intros _ item Hin Hst. exfalso.
      by apply (settled_clears_upload e next (with_status Pending) Hup
                  ltac:(done) item Hin).
    + pose proof (countStatus_markStatus_le (id next) Pending (queue e)
                    ltac:(done)). lia.
    + done.
    + rewrite Ht. intros t [->|[]%elem_of_nil]%elem_of_cons. done.
Qed.

Lemma singleChain_fireTimer rnd h e :
  singleChain e → synced e → singleChain (fireTimer rnd h e).
Proof.
  intros H Hsync. unfold fireTimer.
  destruct (List.find _ (timers e)) as [t|] eqn:Hf; [|done].
  destruct (single_timer e h t H Hf) as (Ht & Ha & Hc).
  assert (singleChain (clearTimeout h e)) as H1.
  { destruct H as [Hnd Hone Hidle Hupl Hcnt Hsto Href].
    split; rewrite ?Hc; cbn.
    - done.
    - rewrite Ha. simpl. lia.
    - intros Hm Hp. by destruct (Hidle Hm Hp) as [-> _].
    - done.
    - done.
    - done.
    - intros t' Hin. by apply elem_of_nil in Hin. }
  unfold runCallback. change (mountedRef (clearTimeout h e)) with (mountedRef e).
  destruct (mountedRef e) eqn:Hm.
  2:{ by destruct (timer_callback t). }
  assert (processingRef e = true) as Hp.
  { destruct (processingRef e) eqn:Hp; [done|].
    destruct (sc_idle e H Hm Hp) as [_ Ht']. congruence. }
  destruct (timer_callback t).
  - apply singleChain_processNext; try done. by apply Hsync.
  - apply singleChain_processNext; try done.
    + by apply (singleChain_ext (clearTimeout h e)).
    + by apply Hsync.
Qed.

Lemma singleChain_unmount e : singleChain e → singleChain (unmount e).
Proof.
  intros H. unfold unmount.
  apply clearTimeoutRef_singleChain; [by destruct (nextTimerRef _)|].
  apply clearTimeoutRef_singleChain; [done|].
  destruct H as [Hnd Hone Hidle Hupl Hcnt Hsto Href].
  split; cbn; try done; intros ?; congruence.
Qed.

Lemma singleChain_handler rnd ev e :
  singleChain e → synced e → allowed e ev = true →
  singleChain (handler rnd ev e).
Proof.
  intros H Hsync Hal. destruct ev; simpl handler.
  - apply singleChain_addToQueue; [done|]. by apply negb_true_iff.
  - by apply singleChain_retryFailed.
  - discriminate.
  - by apply singleChain_loadOfflineQueue.
  - by apply singleChain_resumeAfterBackoff.
  - by apply singleChain_resumeAfterUpload.
  - by apply singleChain_fireTimer.
  - by apply singleChain_unmount.
Qed.

Lemma singleChain_step rnd ev e :
  singleChain e → synced e → allowed e ev = true →
  singleChain (step rnd ev e) ∧ synced (step rnd ev e).
Proof.
  intros H Hsync Hal. pose proof (singleChain_handler rnd ev e H Hsync Hal) as H'.
  unfold step. destruct (mountedRef (handler rnd ev e)) eqn:Hm.
  - by apply singleChain_commit.
  - split; [done|]. intros ?. congruence.
Qed.

Lemma singleChain_run evs e :
  singleChain e → synced e → admissible evs e = true →
  singleChain (run evs e) ∧ synced (run evs e).
Proof.
  revert e. induction evs as [|[rnd ev] evs IH]; intros e H Hsync Had; [done|].
  simpl in Had. apply andb_true_iff in Had as [Hal Had].
  destruct (singleChain_step rnd ev e H Hsync Hal) as [H' Hs'].
  simpl. by apply IH.
Qed.

Lemma singleChain_initial db :
  storeOfFailures db → singleChain (initialEngine db) ∧ synced (initialEngine db).
Proof.
  intros Hs. split; [|done]. split; cbn.
  - constructor.
  - lia.
  - done.
  - intros _ item Hin. by apply elem_of_nil in Hin.
  - change (countStatus Uploading []) with 0%nat. lia.
  - done.
  - intros t Hin. by apply elem_of_nil in Hin.
Qed.

(** C1. Along every run from a mounted engine over a store of failed
    captures, whatever the interleaving of enqueues with fresh ids, retries
    of failed items, loads of the offline queue that bring fresh ids,
    elapsed backoffs, upload outcomes, timer expiries and the unmount, at
    most one item of the queue has status ['uploading'].  The processing
    flag is what guards it: suspended attempts and pending timers number at
    most one in all, there is none while a mounted engine has the flag
    clear, and every ['uploading'] item of a mounted engine is the item of
    the one suspended attempt. *)
Theorem at_most_one_uploading :
  ∀ (db : gmap string CaptureItem) (evs : list (Q * Event)),
    storeOfFailures db →
    admissible evs (initialEngine db) = true →
    (countStatus Uploading (queue (run evs (initialEngine db))) ≤ 1)%nat
    ∧ (length (awaiting (run evs (initialEngine db)))
       + length (timers (run evs (initialEngine db))) ≤ 1)%nat
    ∧ (mountedRef (run evs (initialEngine db)) = true →
       processingRef (run evs (initialEngine db)) = false →
       awaiting (run evs (initialEngine db)) = []
       ∧ timers (run evs (initialEngine db)) = []
       ∧ countStatus Uploading (queue (run evs (initialEngine db))) = 0%nat)
    ∧ (mountedRef (run evs (initialEngine db)) = true →
       ∀ item, item ∈ queue (run evs (initialEngine db)) →
         status item = Uploading →
         ∃ s, awaiting (run evs (initialEngine db)) = [s]
              ∧ id (nextItem s) = id item).
Proof.
  intros db evs Hs Had.
  destruct (singleChain_initial db Hs) as [H0 S0].
  destruct (singleChain_run evs _ H0 S0 Had) as [H _].
  set (e := run evs (initialEngine db)) in *.
  split; [apply (sc_count e H)|]. split; [apply (sc_one e H)|]. split.
  - intros Hm Hp. destruct (sc_idle e H Hm Hp) as [Ha Ht].
    split; [done|]. split; [done|]. by apply no_upload_when_idle.
  - intros Hm item Hin Hst.
    destruct (sc_uploading e H Hm item Hin Hst) as (s & Hin' & Hid).
    exists s. split; [|done].
    apply list_elem_of_lookup in Hin' as [k Hk].
    by destruct (single_awaiting e k s H Hk) as (-> & _).
Qed.

Lemma at_most_one_uploading_witness :
  (countStatus Uploading (queue (run busyRun (initialEngine ∅))) ≤ 1)%nat.
Proof.
  apply (at_most_one_uploading ∅ busyRun).
  - intros key item Hl. by rewrite lookup_empty in Hl.
  - vm_compute. reflexivity.
Defined.

(** ** Teardown, and clearing the queue while an upload is in flight *)

(** After the unmount the resumptions of suspended work change neither the
    state nor the refs nor the store. *)
Lemma unmounted_tick_inert rnd ev e :
  mountedRef e = false → isTick ev →
  hookState (step rnd ev e) = hookState e.
Proof.
  intros Hm Ht. unfold step. destruct ev; try done; simpl handler.
  - unfold resumeAfterBackoff.
    destruct (awaiting e !! k) as [[[d|] next]|];
      rewrite ?Hm; cbn; rewrite ?Hm; reflexivity.
  - unfold resumeAfterUpload.
    destruct (awaiting e !! k) as [[[d|] next]|];
      cbn; rewrite ?Hm; cbn; rewrite ?Hm; reflexivity.
  - unfold fireTimer.
    destruct (List.find _ (timers e)) as [t|]; [|by rewrite Hm].
    unfold runCallback. cbn. rewrite Hm.
    destruct (timer_callback t); cbn; rewrite Hm; reflexivity.
Qed.

Lemma unmounted_ticks_inert evs e :
  mountedRef e = false → Forall (fun re => isTick re.2) evs →
  hookState (run evs e) = hookState e.
Proof.
  intros Hm H. revert e Hm.
  induction H as [|[rnd ev] evs Hev _ IH]; intros e Hm; [done|].
  pose proof (unmounted_tick_inert rnd ev e Hm Hev) as Hs.
  assert (mountedRef (step rnd ev e) = false) as Hm'.
  { unfold hookState in Hs. injection Hs. intros. congruence. }
  change (run ((rnd, ev) :: evs) e) with (run evs (step rnd ev e)).
  rewrite (IH _ Hm'). exact Hs.
Qed.

(** The unmount cancels the timers of the two refs; on a single chain
    these are all the timers that have a handle.  The backoff sleep of a
    suspended call is not among them and is not cancelled. *)
Lemma unmount_cancels_timers e :
  singleChain e → mountedRef (unmount e) = false ∧ timers (unmount e) = [].
Proof.
  intros H. split.
  { unfold unmount, clearTimeoutRef. by repeat case_match. }
  pose proof (sc_one e H) as Hone. pose proof (sc_refs e H) as Href.
  unfold unmount.
  destruct (timers e) as [|t [|t' l]] eqn:Et; simpl in Hone; [| |lia].
  - unfold clearTimeoutRef, clearTimeout. repeat case_match; cbn; by rewrite ?Et.
  - specialize (Href t (list_elem_of_here _ _)). unfold referenced in Href.
    unfold clearTimeoutRef, clearTimeout. cbn.
    destruct (timer_callback t).
    + rewrite Href. cbn. rewrite Et. cbn. rewrite Nat.eqb_refl. cbn.
      by destruct (rateLimitTimerRef e).
    + destruct (nextTimerRef e) as [h|]; cbn; rewrite Href; cbn; rewrite Et; cbn.
      * destruct (Nat.eqb (timer_handle t) h); cbn; [done|].
        by rewrite Nat.eqb_refl.
      * by rewrite Nat.eqb_refl.
Qed.

(** C5, at its failing input.  The queue is cleared while the upload of
    ["a"] is in flight: the processing flag is clear, no timer is pending,
    the engine is not rate limited and the counter is 0.  When the upload
    then resolves as rate limited, the resumed [processNext] sets the
    rate-limited flag, raises the counter to 1 and schedules the resumption
    timer; when ["b"] and ["c"] are enqueued around a successful resolution,
    the timer it schedules starts a second chain and two items are
    ['uploading'] at once. *)
Theorem clearQueue_leaves_inflight_attempt_live :
  (queue clearedMidFlight = []
   ∧ processingRef clearedMidFlight = false
   ∧ timers clearedMidFlight = []
   ∧ isRateLimited clearedMidFlight = false
   ∧ consecutiveRateLimitsRef clearedMidFlight = 0
   ∧ rateLimitTimerRef clearedMidFlight = None)
  ∧ (isRateLimited settledAfterClear = true
     ∧ consecutiveRateLimitsRef settledAfterClear = 1
     ∧ rateLimitTimerRef settledAfterClear = Some 1%nat
     ∧ timers settledAfterClear =
         [{| timer_handle := 1; timer_callback := RateLimitResume;
             timer_delay := totalWaitMs draw 1 |}])
  ∧ (admissible [enqueue "a"] (initialEngine ∅) = true
     ∧ List.map id (queue twoChains) = ["b"; "c"]
     ∧ countStatus Uploading (queue twoChains) = 2%nat
     ∧ length (awaiting twoChains) = 2%nat).
Proof. vm_compute. repeat split; reflexivity. Qed.

(** ** Recoverable errors *)

(** The error branch, for any mounted engine and suspended attempt. *)
Lemma error_outcome_effect rnd e k next :
  mountedRef e = true →
  awaiting e !! k = Some {| await_point := AwaitUpload; nextItem := next |} →
  queue (handler rnd (EvUploadSettled k upload_error) e) = markError next (queue e)
  ∧ (∀ i item, queue e !! i = Some item → id item = id next →
       ∃ item', markError next (queue e) !! i = Some item'
         ∧ retryCount item' = retryCount next + 1
         ∧ (status item' = Error ↔ MAX_RETRIES ≤ retryCount next + 1)
         ∧ (status item' = Pending ↔ retryCount next + 1 < MAX_RETRIES)
         ∧ id item' = id item ∧ imageBase64 item' = imageBase64 item
         ∧ metadata item' = metadata item ∧ filename item' = filename item)
  ∧ (∀ i item, queue e !! i = Some item → id item ≠ id next →
       markError next (queue e) !! i = Some item)
  ∧ (MAX_RETRIES ≤ retryCount next + 1 →
       offlineDb (handler rnd (EvUploadSettled k upload_error) e) =
         <[STORE_PREFIX +:+ id next :=
             with_retryCount (retryCount next + 1) (with_status Error next)]>
           (offlineDb e))
  ∧ (retryCount next + 1 < MAX_RETRIES →
       offlineDb (handler rnd (EvUploadSettled k upload_error) e) = offlineDb e).
Proof.
  intros Hm Hk. simpl handler.
  rewrite (resumeAfterUpload_mounted rnd k upload_error e next Hm Hk). cbn zeta.
  assert (∀ i item, queue e !! i = Some item →
            markError next (queue e) !! i =
              Some (if String.eqb (id item) (id next) then
                      with_errorMessage
                        (if MAX_RETRIES <=? retryCount next + 1
                         then "Max retries exceeded"
                         else retryMessage (retryCount next + 1))
                        (with_retryCount (retryCount next + 1)
                           (with_status
                              (if MAX_RETRIES <=? retryCount next + 1
                               then Error else Pending) item))
                    else item)) as Hlk.
  { intros i item Hi. unfold markError.
    change (List.map ?f (queue e)) with (f <$> queue e).
    by rewrite list_lookup_fmap, Hi. }
  unfold onError. split; [|split; [|split; [|split]]].
  - by destruct (MAX_RETRIES <=? retryCount next + 1).
  - intros i item Hi Hid. rewrite (Hlk i item Hi).
    apply String.eqb_eq in Hid. rewrite Hid. eexists. split; [reflexivity|].
    cbn. destruct (Z.leb_spec MAX_RETRIES (retryCount next + 1));
      repeat split; try done; lia.
  - intros i item Hi Hid. rewrite (Hlk i item Hi).
    apply String.eqb_neq in Hid. by rewrite Hid.
  - intros Hf. apply Z.leb_le in Hf. by rewrite Hf.
  - intros Hf. apply Z.leb_gt in Hf. by rewrite Hf.
Qed.

(** C3, at its failing input.  One item is enqueued and its upload fails
    five times in a row.  The item ends with status ['error'], [retryCount]
    5 and the message "Max retries exceeded", and the store holds one
    record, under the key of the item, with status ['error'] and
    [retryCount] 5; but the message of that record is the one of the fourth
    failure, "Upload failed, retry 4/5". *)
Theorem fifth_failure_persists_stale_message :
  admissible fiveErrors (initialEngine ∅) = true
  ∧ queue sampleExhausted = [exhaustedItem]
  ∧ offlineDb sampleExhausted = {[ "upload_queue_a" := exhaustedRecord ]}
  ∧ status exhaustedItem = Error ∧ retryCount exhaustedItem = 5
  ∧ status exhaustedRecord = Error ∧ retryCount exhaustedRecord = 5
  ∧ errorMessage exhaustedItem = Some "Max retries exceeded"
  ∧ errorMessage exhaustedRecord = Some "Upload failed, retry 4/5".
Proof. vm_compute. repeat split; reflexivity. Qed.

(** ** Calling [retryFailed] twice in a row *)

Lemma set_queue_same e : set_queue (queue e) e = e.
Proof. by destruct e. Qed.

Lemma syncQueueRef_same e : queueRef e = queue e → syncQueueRef e = e.
Proof. destruct e. cbn. by intros ->. Qed.

Lemma hasPending_nextEligible q :
  hasPending q = true → ∃ next, nextEligible q = Some next.
Proof.
  unfold hasPending, nextEligible. intros H.
  apply List.existsb_exists in H as (x & Hx & Ex).
  destruct (List.find eligible q) as [y|] eqn:E; [by exists y|].
  by rewrite (List.find_none _ _ E x Hx) in Ex.
Qed.

(** What a commit does to the queue and to the flag the effect tests. *)
Lemma commit_cases rnd e :
  mountedRef e = true →
  (commit rnd e = syncQueueRef e
   ∧ hasPending (queue e) && negb (processingRef e) && negb (isRateLimited e) = false)
  ∨ (∃ next, nextEligible (queue e) = Some next
             ∧ queue (commit rnd e) = markStatus (id next) Uploading (queue e)
             ∧ processingRef (commit rnd e) = true).
Proof.
  intros Hm. unfold commit, autoStart.
  change (queue (syncQueueRef e)) with (queue e).
  change (processingRef (syncQueueRef e)) with (processingRef e).
  change (isRateLimited (syncQueueRef e)) with (isRateLimited e).
  destruct (hasPending (queue e) && negb (processingRef e) && negb (isRateLimited e))
    eqn:C.
  - right. apply andb_true_iff in C as [C _]. apply andb_true_iff in C as [Hp C].
    apply negb_true_iff in C. apply hasPending_nextEligible in Hp as [next Hn].
    exists next. split; [done|].
    unfold startProcessing.
    change (processingRef (syncQueueRef e)) with (processingRef e).
    change (mountedRef (syncQueueRef e)) with (mountedRef e).
    rewrite C, Hm. cbn [orb negb].
    rewrite (processNext_attempt rnd _ next); [by cbn| by cbn | by cbn].
  - left. split; [|done]. by destruct e.
Qed.

Lemma retryFailed_update_fixed q :
  (∀ item, item ∈ q → ¬ atCeiling item) → retryFailed_update q = q.
Proof.
  intros H. unfold retryFailed_update. rewrite <- (List.map_id q) at 2.
  apply List.map_ext_in. intros x Hx%list_elem_of_In.
  destruct (is_status Error x && (MAX_RETRIES <=? retryCount x)) eqn:E; [|done].
  apply ceiling_test in E. by apply H in E.
Qed.

Lemma retryFailed_update_no_ceiling q item :
  item ∈ retryFailed_update q → ¬ atCeiling item.
Proof.
  intros Hin%elem_of_map. destruct Hin as (x & -> & Hx).
  destruct (is_status Error x && (MAX_RETRIES <=? retryCount x)) eqn:E.
  - intros [Hs _]. discriminate Hs.
  - intros Hc. apply ceiling_test in Hc. congruence.
Qed.

Lemma retryFailed_fixed e :
  (∀ item, item ∈ queue e → ¬ atCeiling item) → retryFailed e = e.
Proof.
  intros H. unfold retryFailed, setQueue.
  rewrite (retryFailed_update_fixed _ H). apply set_queue_same.
Qed.

Lemma commit_stable rnd e :
  queueRef e = queue e →
  hasPending (queue e) && negb (processingRef e) && negb (isRateLimited e) = false →
  commit rnd e = e.
Proof.
  intros Hs Hc. unfold commit. rewrite (syncQueueRef_same e Hs).
  unfold autoStart. rewrite Hc. by apply syncQueueRef_same.
Qed.

Lemma step_retryFailed_stable r1 e :
  retryFailed (step r1 EvRetryFailed e) = step r1 EvRetryFailed e
  ∧ (mountedRef (step r1 EvRetryFailed e) = true →
     ∀ r2, commit r2 (step r1 EvRetryFailed e) = step r1 EvRetryFailed e).
Proof.
  unfold step. cbn [handler].
  change (mountedRef (retryFailed e)) with (mountedRef e).
  destruct (mountedRef e) eqn:Hm.
  - destruct (commit_cases r1 (retryFailed e) Hm)
      as [[Hc Hcond]|(next & Hn & Hq & Hp)].
    + rewrite Hc. split.
      * apply retryFailed_fixed. intros item Hin.
        by apply (retryFailed_update_no_ceiling (queue e)).
      * intros _ r2. by apply commit_stable.
    + split.
      * apply retryFailed_fixed. rewrite Hq. intros item Hin.
        apply elem_of_markStatus in Hin as (x & Hx & ->).
        destruct (String.eqb (id x) (id next)).
        -- intros [Hs _]. discriminate Hs.
        -- by apply (retryFailed_update_no_ceiling (queue e)).
      * intros _ r2. apply commit_stable; [apply commit_synced|].
        by rewrite Hp, andb_false_r.
  - split.
    + apply retryFailed_fixed. intros item Hin.
      by apply (retryFailed_update_no_ceiling (queue e)).
    + change (mountedRef (retryFailed e)) with (mountedRef e). congruence.
Qed.

Lemma retryFailed_step_idempotent r1 r2 e :
  step r2 EvRetryFailed (step r1 EvRetryFailed e) = step r1 EvRetryFailed e.
Proof.
  destruct (step_retryFailed_stable r1 e) as [Hf Hc].
  set (e1 := step r1 EvRetryFailed e) in *.
  unfold step. cbn [handler]. rewrite Hf.
  destruct (mountedRef e1) eqn:Hm; [by apply Hc|done].
Qed.

(** C8. [retryFailed] maps the queue position by position: an item with
    status ['error'] and [retryCount >= MAX_RETRIES] comes out with status
    ['pending'], [retryCount] 0 and its other fields as they were, every
    other item is kept as it is; the hook's [retryFailed] changes the queue
    by this updater and nothing else of the engine; applying it twice gives
    the same queue as applying it once, and a second call right after the
    first, each with the commit that follows it, leaves the whole engine as
    the first call left it. *)
Theorem retryFailed_resets_ceiling_items_idempotent :
  ∀ prev : list CaptureItem,
    length (retryFailed_update prev) = length prev
    ∧ (∀ i item, prev !! i = Some item →
         ∃ item', retryFailed_update prev !! i = Some item'
           ∧ otherFields item' = otherFields item
           ∧ (atCeiling item → status item' = Pending ∧ retryCount item' = 0)
           ∧ (¬ atCeiling item → item' = item))
    ∧ retryFailed_update (retryFailed_update prev) = retryFailed_update prev
    ∧ (∀ e, queue e = prev →
         queue (retryFailed e) = retryFailed_update prev
         ∧ retryFailed e = set_queue (retryFailed_update prev) e
         ∧ queue (retryFailed (retryFailed e)) = queue (retryFailed e)
         ∧ (∀ r1 r2, step r2 EvRetryFailed (step r1 EvRetryFailed e) =
                     step r1 EvRetryFailed e)).
Proof.
  intros prev. split; [|split; [|split]].
  - unfold retryFailed_update. apply List.length_map.
  - intros i item H. rewrite (retryFailed_update_lookup prev i item H).
    destruct (decide (atCeiling item)); eexists; (split; [reflexivity|]);
      (split; [reflexivity|]); split; intros Hc; done.
  - apply retryFailed_update_idem.
  - intros e <-. unfold retryFailed, setQueue. simpl.
    split; [reflexivity|]. split; [reflexivity|].
    split; [apply retryFailed_update_idem|].
    intros r1 r2. apply retryFailed_step_idempotent.
Qed.

Lemma retryFailed_resets_ceiling_items_idempotent_witness :
  (∃ item',
     retryFailed_update sampleQueue !! 1%nat = Some item'
     ∧ otherFields item' =
         otherFields (sampleItem "b" Error 5 (Some "Max retries exceeded"))
     ∧ status item' = Pending ∧ retryCount item' = 0)
  ∧ retryFailed_update sampleQueue !! 2%nat =
      Some (sampleItem "c" Pending 2 (Some "Upload failed, retry 2/5"))
  ∧ queue (retryFailed (retryFailed sampleEngine)) = queue (retryFailed sampleEngine)
  ∧ step draw EvRetryFailed (step draw EvRetryFailed sampleEngine) =
      step draw EvRetryFailed sampleEngine.
Proof.
  destruct (retryFailed_resets_ceiling_items_idempotent sampleQueue)
    as (_ & Hpos & _ & Heng).
  split; [|split; [|split]].
  - assert (sampleQueue !! 1%nat =
              Some (sampleItem "b" Error 5 (Some "Max retries exceeded"))) as Hin
      by reflexivity.
    destruct (Hpos 1%nat _ Hin) as (item' & Hl & Hrest & Hreset & _).
    exists item'. split; [exact Hl|]. split; [exact Hrest|].
    apply Hreset. split; [reflexivity|]. by vm_compute.
  - assert (sampleQueue !! 2%nat =
              Some (sampleItem "c" Pending 2 (Some "Upload failed, retry 2/5")))
      as Hin by reflexivity.
    destruct (Hpos 2%nat _ Hin) as (item' & Hl & _ & _ & Hkeep).
    rewrite Hl. f_equal. apply Hkeep. intros [Hs _]. discriminate Hs.
  - apply (Heng sampleEngine). reflexivity.
  - apply (Heng sampleEngine). reflexivity.
Defined.

(** ** The retry budget along a run *)

Lemma unique_by_id (q : list CaptureItem) x y :
  NoDup (List.map id q) → x ∈ q → y ∈ q → id x = id y → x = y.
Proof.
  induction q as [|z q IH]; intros Hnd Hx Hy Hid; [by apply elem_of_nil in Hx|].
  simpl in Hnd. apply NoDup_cons in Hnd as [Hz Hnd].
  apply elem_of_cons in Hx as [->|Hx]; apply elem_of_cons in Hy as [->|Hy].
  - done.
  - exfalso. apply Hz. rewrite Hid. apply list_elem_of_In.
    by apply List.in_map, list_elem_of_In.
  - exfalso. apply Hz. rewrite <- Hid. apply list_elem_of_In.
    by apply List.in_map, list_elem_of_In.
  - by apply IH.
Qed.

Lemma storeKey_inj a b : STORE_PREFIX +:+ a = STORE_PREFIX +:+ b → a = b.
Proof. apply String.app_inj. Qed.

(** Replacing the one item of a given id. *)
Lemma elem_of_update (g : CaptureItem → CaptureItem) (q : list CaptureItem) x0 item :
  NoDup (List.map id q) → x0 ∈ q →
  item ∈ List.map (fun x => if String.eqb (id x) (id x0) then g x else x) q ↔
  (item ∈ q ∧ id item ≠ id x0) ∨ item = g x0.
Proof.
  intros Hnd H0. rewrite elem_of_map. split.
  - intros (x & -> & Hx). destruct (String.eqb_spec (id x) (id x0)) as [E|E].
    + right. by rewrite (unique_by_id q x x0 Hnd Hx H0 E).
    + by left.
  - intros [[Hin Hne]| ->].
    + exists item. split; [|done]. apply String.eqb_neq in Hne. by rewrite Hne.
    + exists x0. split; [|done]. by rewrite String.eqb_refl.
Qed.

Lemma budget_ext cnt cnt' e :
  (∀ i, cnt' i = cnt i) → budget cnt e → budget cnt' e.
Proof.
  intros Hc [Hcount Hfresh Hrange Herr Hsto Hkeys Haw].
  split; try done.
  - intros item Hin. rewrite Hc. by apply Hcount.
  - intros i Hi. rewrite Hc. by apply Hfresh.
Qed.

(** A step that changes neither the queue nor the store. *)
Lemma budget_same_queue cnt e e' :
  queue e' = queue e → offlineDb e' = offlineDb e →
  (mountedRef e' = true → mountedRef e = true
     ∧ ∀ s, s ∈ awaiting e' → ∃ s0, s0 ∈ awaiting e ∧ nextItem s = nextItem s0) →
  budget cnt e → budget cnt e'.
Proof.
  intros Hq Hd Ha [Hcount Hfresh Hrange Herr Hsto Hkeys Haw].
  split; rewrite ?Hq, ?Hd; try done.
  intros Hm s Hs. destruct (Ha Hm) as [Hm0 Hs0].
  destruct (Hs0 s Hs) as (s0 & Hin & ->). by apply Haw.
Qed.

(** A step that replaces the item [x0] by [g x0], [g] keeping the id. *)
Lemma budget_update cnt cnt' e e' (g : CaptureItem → CaptureItem) x0 :
  budget cnt e → NoDup (List.map id (queue e)) → x0 ∈ queue e →
  id (g x0) = id x0 →
  queue e' =
    List.map (fun x => if String.eqb (id x) (id x0) then g x else x) (queue e) →
  (∀ i, i ≠ id x0 → cnt' i = cnt i) →
  retryCount (g x0) = cnt' (id x0) →
  0 ≤ retryCount (g x0) ≤ MAX_RETRIES →
  (status (g x0) = Error ↔ retryCount (g x0) = MAX_RETRIES) →
  (∀ key, key ≠ STORE_PREFIX +:+ id x0 → offlineDb e' !! key = offlineDb e !! key) →
  (is_Some (offlineDb e' !! (STORE_PREFIX +:+ id x0)) ↔ status (g x0) = Error) →
  (mountedRef e' = true → ∀ s, s ∈ awaiting e' →
     id (nextItem s) = id x0 ∧ retryCount (nextItem s) = retryCount (g x0)
     ∧ retryCount (g x0) < MAX_RETRIES) →
  budget cnt' e'.
Proof.
  intros [Hcount Hfresh Hrange Herr Hsto Hkeys Haw] Hnd H0 Hid Hq Hc Hc0 Hr0 He0
    Hdb Hdb0 Ha.
  assert (∀ item, item ∈ queue e' ↔ (item ∈ queue e ∧ id item ≠ id x0) ∨ item = g x0)
    as Hel by (intros item; rewrite Hq; by apply elem_of_update).
  assert (List.map id (queue e') = List.map id (queue e)) as Hids.
  { rewrite Hq, List.map_map. apply List.map_ext_in. intros x Hx%list_elem_of_In.
    destruct (String.eqb_spec (id x) (id x0)) as [E|]; [|done].
    by rewrite (unique_by_id _ x x0 Hnd Hx H0 E). }
  split.
  - intros item [[Hin Hne]| ->]%Hel.
    + rewrite (Hc _ Hne). by apply Hcount.
    + by rewrite Hid.
  - intros i Hi. rewrite Hids in Hi. rewrite Hc; [by apply Hfresh|].
    intros ->. apply Hi, list_elem_of_In, List.in_map. by apply list_elem_of_In.
  - intros item [[Hin Hne]| ->]%Hel; [by apply Hrange|done].
  - intros item [[Hin Hne]| ->]%Hel; [by apply Herr|done].
  - intros item [[Hin Hne]| ->]%Hel.
    + rewrite Hdb; [by apply Hsto|]. intros E%storeKey_inj. done.
    + by rewrite Hid.
  - intros key Hk. destruct (decide (key = STORE_PREFIX +:+ id x0)) as [->|Hne].
    + exists (g x0). split; [apply Hel; by right|by rewrite Hid].
    + rewrite (Hdb key Hne) in Hk. destruct (Hkeys key Hk) as (item & Hin & ->).
      exists item. split; [|done]. apply Hel. left. split; [done|].
      intros E. apply Hne. by rewrite E.
  - intros Hm s Hs. destruct (Ha Hm s Hs) as (Hi & Hrc & Hlt).
    exists (g x0). split; [apply Hel; by right|]. by rewrite Hid.
Qed.

Lemma budget_processNext rnd cnt e :
  budget cnt e → mountedRef e = true → queueRef e = queue e →
  awaiting e = [] → NoDup (List.map id (queue e)) →
  budget cnt (processNext rnd e).
Proof.
  intros H Hm Hq Ha Hnd.
  destruct (nextEligible (queueRef e)) as [next|] eqn:Hn.
  - rewrite (processNext_attempt rnd e next Hm Hn).
    apply nextEligible_elem in Hn as [Hin [Hst Hlt]]. rewrite Hq in Hin.
    pose proof (b_store cnt e H next Hin) as Hsto.
    apply (budget_update cnt cnt e _ (with_status Uploading) next H Hnd Hin);
      cbn; try done.
    + by apply (b_count cnt e H).
    + by apply (b_range cnt e H).
    + split; [done|]. intros E. lia.
    + rewrite Hsto, Hst. done.
    + intros _ s Hs. rewrite Ha in Hs. apply list_elem_of_singleton in Hs.
      by subst s.
  - rewrite (processNext_idle rnd e Hm Hn).
    apply (budget_same_queue cnt e); try done.
    intros _. split; [done|]. eauto.
Qed.

Lemma budget_commit rnd cnt e :
  singleChain e → budget cnt e → mountedRef e = true →
  budget cnt (commit rnd e).
Proof.
  intros Hsc H Hm. unfold commit.
  assert (budget cnt (syncQueueRef e)) as H1
    by (apply (budget_same_queue cnt e); try done; by intros _; split; eauto).
  apply (budget_same_queue cnt (autoStart rnd (syncQueueRef e))); try done.
  { intros ?. split; [done|]. eauto. }
  unfold autoStart.
  destruct (hasPending (queue (syncQueueRef e)) && negb (processingRef (syncQueueRef e))
            && negb (isRateLimited (syncQueueRef e))) eqn:C; [|done].
  apply andb_true_iff in C as [C _]. apply andb_true_iff in C as [_ C].
  apply negb_true_iff in C. unfold startProcessing. rewrite C. cbn [orb].
  change (mountedRef (syncQueueRef e)) with (mountedRef e). rewrite Hm. cbn [negb].
  change (processingRef (syncQueueRef e)) with (processingRef e) in C.
  destruct (sc_idle e Hsc Hm C) as [Ha Ht].
  apply budget_processNext; try done.
  - apply (budget_same_queue cnt (syncQueueRef e)); try done.
    intros _. split; [done|]. eauto.
  - apply (sc_nodup e Hsc).
Qed.

Lemma budget_addToQueue cnt newId now image meta e :
  budget cnt e → knownId (queue e) newId = false →
  budget cnt (addToQueue newId now image meta e).
Proof.
  intros [Hcount Hfresh Hrange Herr Hsto Hkeys Haw] Hal.
  apply knownId_false in Hal. split; cbn.
  - intros item [Hin|Hin]%elem_of_app; [by apply Hcount|].
    apply list_elem_of_singleton in Hin. subst item. cbn. symmetry. by apply Hfresh.
  - intros i Hi. apply Hfresh. intros Hin. apply Hi.
    rewrite List.map_app. apply elem_of_app. by left.
  - intros item [Hin|Hin]%elem_of_app; [by apply Hrange|].
    apply list_elem_of_singleton in Hin. subst item. cbn. unfold MAX_RETRIES. lia.
  - intros item [Hin|Hin]%elem_of_app; [by apply Herr|].
    apply list_elem_of_singleton in Hin. subst item. cbn. split; [done|].
    unfold MAX_RETRIES. lia.
  - intros item [Hin|Hin]%elem_of_app; [by apply Hsto|].
    apply list_elem_of_singleton in Hin. subst item. cbn. split; [|done].
    intros Hk. destruct (Hkeys _ Hk) as (item & Hin & E%storeKey_inj).
    exfalso. apply Hal. rewrite E. apply list_elem_of_In, List.in_map.
    by apply list_elem_of_In.
  - intros key Hk. destruct (Hkeys key Hk) as (item & Hin & ->).
    exists item. split; [|done]. apply elem_of_app. by left.
  - intros Hm s Hs. destruct (Haw Hm s Hs) as (item & Hin & Hrest).
    exists item. split; [|done]. apply elem_of_app. by left.
Qed.

Lemma errorDelivered_other i ev e :
  (∀ k, ev ≠ EvUploadSettled k upload_error) → errorDelivered i ev e = 0.
Proof. intros H. destruct ev; try done. destruct result; try done. by destruct (H k). Qed.

Lemma budget_resumeAfterUpload rnd cnt k result e :
  singleChain e → budget cnt e →
  budget (fun i => cnt i + errorDelivered i (EvUploadSettled k result) e)
         (resumeAfterUpload rnd k result e).
Proof.
  intros Hsc H. unfold resumeAfterUpload, errorDelivered.
  destruct (awaiting e !! k) as [[[d|] next]|] eqn:Hk.
  1,3: apply (budget_ext cnt); [|done];
       intros i; destruct result; lia.
  destruct (single_awaiting e k _ Hsc Hk) as (Ha & -> & Ht).
  cbn. rewrite Ha. cbn. destruct (mountedRef e) eqn:Hm; cbn.
  2:{ apply (budget_ext cnt); [intros i; destruct result; lia|].
      apply (budget_same_queue cnt e); try done.
      intros Hm'. cbn in Hm'. congruence. }
  destruct (b_await cnt e H Hm _ ltac:(rewrite Ha; apply list_elem_of_here))
    as (x0 & Hin & Hid & Hrc & Hlt). cbn in Hid, Hrc.
  pose proof (sc_nodup e Hsc) as Hnd.
  pose proof (b_count cnt e H x0 Hin) as Hc0.
  pose proof (b_range cnt e H x0 Hin) as Hr0.
  pose proof (b_error cnt e H x0 Hin) as He0.
  pose proof (b_store cnt e H x0 Hin) as Hs0.
  assert (offlineDb e !! (STORE_PREFIX +:+ id x0) = None) as Hnone.
  { destruct (offlineDb e !! (STORE_PREFIX +:+ id x0)) eqn:E; [|done].
    assert (status x0 = Error) as Hst by (apply Hs0; eauto).
    apply He0 in Hst. lia. }
  destruct result.
  - (* success *)
    apply (budget_update cnt _ e _ (with_status Success) x0 H Hnd Hin);
      cbn; try done.
    + by rewrite Hid.
    + intros i _. lia.
    + lia.
    + split; [done|]. lia.
    + intros key Hne. unfold removeFromOfflineQueue. rewrite <- Hid.
      by rewrite lookup_delete_ne.
    + unfold removeFromOfflineQueue. rewrite <- Hid, lookup_delete_eq.
      split; [by intros [? ?]|done].
    + intros _ s Hs. by apply elem_of_nil in Hs.
  - (* error *)
    unfold onError.
    set (g := fun q : CaptureItem =>
           with_errorMessage
             (if MAX_RETRIES <=? retryCount next + 1 then "Max retries exceeded"
              else retryMessage (retryCount next + 1))
             (with_retryCount (retryCount next + 1)
                (with_status
                   (if MAX_RETRIES <=? retryCount next + 1 then Error else Pending) q))).
    assert (∀ e', queue e' = markError next (queue e) →
              (∀ key, key ≠ STORE_PREFIX +:+ id x0 →
                 offlineDb e' !! key = offlineDb e !! key) →
              (is_Some (offlineDb e' !! (STORE_PREFIX +:+ id x0))
               ↔ MAX_RETRIES ≤ retryCount next + 1) →
              awaiting e' = [] →
              budget (fun i => cnt i + (if String.eqb (id next) i then 1 else 0)) e')
      as Hgen.
    { intros e' Hq' Hdb Hdb0 Ha'.
      apply (budget_update cnt _ e e' g x0 H Hnd Hin); try done.
      - by rewrite Hq', Hid.
      - intros i Hne. rewrite <- Hid. apply not_eq_sym, String.eqb_neq in Hne.
        rewrite Hne. lia.
      - cbn. rewrite <- Hid, String.eqb_refl. lia.
      - cbn. unfold MAX_RETRIES in *. lia.
      - cbn. destruct (Z.leb_spec MAX_RETRIES (retryCount next + 1));
          unfold MAX_RETRIES in *; split; (done || lia).
      - rewrite Hdb0. cbn.
        destruct (Z.leb_spec MAX_RETRIES (retryCount next + 1)); split;
          (done || lia).
      - intros _ s Hs. rewrite Ha' in Hs. by apply elem_of_nil in Hs. }
    destruct (MAX_RETRIES <=? retryCount next + 1) eqn:Ef; apply Hgen; cbn; try done.
    + intros key Hne. unfold saveToOfflineQueue. cbn. rewrite Hid in Hne.
      by rewrite lookup_insert_ne.
    + unfold saveToOfflineQueue. cbn. rewrite Hid, lookup_insert_eq.
      apply Z.leb_le in Ef. split; [done|eauto].
    + rewrite Hnone. apply Z.leb_gt in Ef. split; [by intros [? ?]|lia].
  - (* rate limit *)
    apply (budget_update cnt _ e _ (with_status Pending) x0 H Hnd Hin);
      cbn; try done.
    + by rewrite Hid.
    + intros i _. lia.
    + lia.
    + split; [done|]. lia.
    + rewrite Hnone. split; [by intros [? ?]|done].
    + intros _ s Hs. by apply elem_of_nil in Hs.
Qed.

Lemma budget_handler rnd ev cnt e :
  singleChain e → synced e → budget cnt e →
  allowed e ev = true → noReset ev = true →
  budget (fun i => cnt i + errorDelivered i ev e) (handler rnd ev e).
Proof.
  intros Hsc Hsync H Hal Hnr.
  destruct ev; try discriminate Hnr; simpl handler.
  - apply (budget_ext cnt); [intros i; simpl; lia|].
    apply budget_addToQueue; [done|]. by apply negb_true_iff.
  - apply (budget_ext cnt); [intros i; simpl; lia|].
    unfold resumeAfterBackoff.
    destruct (awaiting e !! k) as [[[d|] next]|] eqn:Hk; try done.
    destruct (single_awaiting e k _ Hsc Hk) as (Ha & -> & Ht).
    destruct (mountedRef e) eqn:Hm; cbn.
    + apply (budget_same_queue cnt e); try done.
      intros _. split; [done|]. cbn. rewrite Ha. cbn.
      intros s Hs%list_elem_of_singleton. subst s. eexists.
      split; [apply list_elem_of_here|done].
    + apply (budget_same_queue cnt e); try done.
      intros Hm'. cbn in Hm'. congruence.
  - by apply budget_resumeAfterUpload.
  - apply (budget_ext cnt); [intros i; simpl; lia|].
    unfold fireTimer.
    destruct (List.find _ (timers e)) as [t|] eqn:Hf; [|done].
    destruct (single_timer e h t Hsc Hf) as (Ht & Ha & Hc).
    assert (budget cnt (clearTimeout h e)) as H1.
    { apply (budget_same_queue cnt e); try done. intros Hm. split; [done|]. eauto. }
    unfold runCallback. change (mountedRef (clearTimeout h e)) with (mountedRef e).
    destruct (mountedRef e) eqn:Hm.
    2:{ by destruct (timer_callback t). }
    pose proof (sc_nodup e Hsc) as Hnd.
    destruct (timer_callback t).
    + apply budget_processNext; try done. by apply Hsync.
    + apply budget_processNext; try done.
      * apply (budget_same_queue cnt (clearTimeout h e)); try done.
        intros _. split; [done|]. eauto.
      * by apply Hsync.
  - apply (budget_ext cnt); [intros i; simpl; lia|].
    apply (budget_same_queue cnt e).
    + unfold unmount, clearTimeoutRef. by repeat case_match.
    + unfold unmount, clearTimeoutRef. by repeat case_match.
    + intros Hm. exfalso. revert Hm. unfold unmount, clearTimeoutRef.
      by repeat case_match.
    + done.
Qed.

Lemma budget_step rnd ev cnt e :
  singleChain e → synced e → budget cnt e →
  allowed e ev = true → noReset ev = true →
  budget (fun i => cnt i + errorDelivered i ev e) (step rnd ev e).
Proof.
  intros Hsc Hsync H Hal Hnr.
  pose proof (budget_handler rnd ev cnt e Hsc Hsync H Hal Hnr) as H'.
  pose proof (singleChain_handler rnd ev e Hsc Hsync Hal) as Hsc'.
  unfold step. destruct (mountedRef (handler rnd ev e)) eqn:Hm; [|done].
  by apply budget_commit.
Qed.

Lemma budget_run evs cnt e :
  singleChain e → synced e → budget cnt e →
  admissible evs e = true → forallb (fun re => noReset re.2) evs = true →
  budget (fun i => cnt i + errorOutcomes i evs e) (run evs e).
Proof.
  revert cnt e. induction evs as [|[rnd ev] evs IH]; intros cnt e Hsc Hsync H Had Hnr.
  - apply (budget_ext cnt); [intros i; simpl; lia|done].
  - simpl in Had, Hnr. apply andb_true_iff in Had as [Hal Had].
    apply andb_true_iff in Hnr as [Hn Hnr].
    destruct (singleChain_step rnd ev e Hsc Hsync Hal) as [Hsc' Hsync'].
    pose proof (budget_step rnd ev cnt e Hsc Hsync H Hal Hn) as H'.
    change (run ((rnd, ev) :: evs) e) with (run evs (step rnd ev e)).
    eapply budget_ext; [|apply (IH _ _ Hsc' Hsync' H' Had Hnr)].
    intros i. simpl. lia.
Qed.

Lemma budget_initial : budget (fun _ => 0) (initialEngine ∅).
Proof.
  split; cbn; try done.
  - intros item Hin. by apply elem_of_nil in Hin.
  - intros item Hin. by apply elem_of_nil in Hin.
  - intros item Hin. by apply elem_of_nil in Hin.
  - intros item Hin. by apply elem_of_nil in Hin.
  - intros key [x Hx]. by rewrite lookup_empty in Hx.
  - intros _ s Hs. by apply elem_of_nil in Hs.
Qed.

(** X2. Along a run from the empty engine in which no item is given a new
    budget, the [retryCount] of an item is the number of ['error'] outcomes
    its attempts have received; it never exceeds [MAX_RETRIES]; the item
    has status ['error'] exactly when that number is [MAX_RETRIES], and
    exactly then the store holds a record under its key. *)
Theorem failed_iff_budget_spent :
  ∀ evs : list (Q * Event),
    admissible evs (initialEngine ∅) = true →
    forallb (fun re => noReset re.2) evs = true →
    ∀ item, item ∈ queue (run evs (initialEngine ∅)) →
      retryCount item = errorOutcomes (id item) evs (initialEngine ∅)
      ∧ errorOutcomes (id item) evs (initialEngine ∅) ≤ MAX_RETRIES
      ∧ (status item = Error
         ↔ errorOutcomes (id item) evs (initialEngine ∅) = MAX_RETRIES)
      ∧ (is_Some (offlineDb (run evs (initialEngine ∅))
                    !! (STORE_PREFIX +:+ id item))
         ↔ errorOutcomes (id item) evs (initialEngine ∅) = MAX_RETRIES).
Proof.
  intros evs Had Hnr item Hin.
  assert (storeOfFailures ∅) as Hs0
    by (intros key x Hx; by rewrite lookup_empty in Hx).
  destruct (singleChain_initial ∅ Hs0) as [Hsc Hsync].
  pose proof (budget_run evs _ _ Hsc Hsync budget_initial Had Hnr) as H.
  set (e := run evs (initialEngine ∅)) in *.
  pose proof (b_count _ e H item Hin) as Hc. simpl in Hc.
  pose proof (b_range _ e H item Hin) as Hr.
  pose proof (b_error _ e H item Hin) as He.
  pose proof (b_store _ e H item Hin) as Hst.
  split; [done|]. split; [lia|]. split.
  - by rewrite He, Hc.
  - by rewrite Hst, He, Hc.
Qed.


(* ================================================================= *)
(** * Further properties *)

(** ** Teardown *)

(** X1. After the cleanup of the mount effect, on any single-chain run, the
    hook is unmounted and the timers of [nextTimerRef] and
    [rateLimitTimerRef], the only ones the hook keeps a handle of, are
    cancelled.  The suspended calls of [processNext] are as they were: an
    upload in flight still settles, and the backoff sleep of a call, a
    [setTimeout] without a handle, still elapses.  Whatever of them
    resumes afterwards, and whatever handle fires, the state, the refs and
    the store stay as the cleanup left them. *)
Theorem teardown_is_final :
  ∀ (db : gmap string CaptureItem) (evs ticks : list (Q * Event)) (rnd : Q),
    storeOfFailures db →
    admissible evs (initialEngine db) = true →
    Forall (fun re => isTick re.2) ticks →
    mountedRef (step rnd EvUnmount (run evs (initialEngine db))) = false
    ∧ timers (step rnd EvUnmount (run evs (initialEngine db))) = []
    ∧ awaiting (step rnd EvUnmount (run evs (initialEngine db))) =
        awaiting (run evs (initialEngine db))
    ∧ hookState (run ticks (step rnd EvUnmount (run evs (initialEngine db)))) =
        hookState (step rnd EvUnmount (run evs (initialEngine db))).
Proof.
  intros db evs ticks rnd Hs Had Ht.
  destruct (singleChain_initial db Hs) as [H0 S0].
  destruct (singleChain_run evs _ H0 S0 Had) as [H _].
  set (e := run evs (initialEngine db)) in *.
  destruct (unmount_cancels_timers e H) as [Hm Htm].
  assert (step rnd EvUnmount e = unmount e) as ->.
  { unfold step. cbn [handler]. by rewrite Hm. }
  split; [exact Hm|]. split; [exact Htm|]. split.
  { unfold unmount, clearTimeoutRef, clearTimeout. by repeat case_match. }
  by apply unmounted_ticks_inert.
Qed.

Lemma teardown_is_final_witness :
  mountedRef (step draw EvUnmount (run backoffRun (initialEngine ∅))) = false
  ∧ timers (step draw EvUnmount (run backoffRun (initialEngine ∅))) = []
  ∧ List.map await_point
      (awaiting (step draw EvUnmount (run backoffRun (initialEngine ∅)))) =
      [AwaitBackoff 2000]
  ∧ hookState
      (run [occur (EvBackoffElapsed 0); occur (EvUploadSettled 0 upload_success);
            occur (EvTimeout 4)]
         (step draw EvUnmount (run backoffRun (initialEngine ∅)))) =
    hookState (step draw EvUnmount (run backoffRun (initialEngine ∅))).
Proof.
  assert (storeOfFailures ∅) as Hs
    by (intros key item Hl; by rewrite lookup_empty in Hl).
  assert (admissible backoffRun (initialEngine ∅) = true) as Had
    by (vm_compute; reflexivity).
  assert (Forall (fun re : Q * Event => isTick re.2)
            [occur (EvBackoffElapsed 0); occur (EvUploadSettled 0 upload_success);
             occur (EvTimeout 4)]) as Ht
    by (repeat (constructor; [exact I|]); constructor).
  destruct (teardown_is_final ∅ backoffRun _ draw Hs Had Ht)
    as (Hm & Htm & Haw & Hst).
  split; [exact Hm|]. split; [exact Htm|]. split; [|exact Hst].
  rewrite Haw. vm_compute. reflexivity.
Defined.

(** ** The retry budget, end to end *)

Lemma failed_iff_budget_spent_witness :
  retryCount exhaustedItem = errorOutcomes (id exhaustedItem) fiveErrors (initialEngine ∅)
  ∧ (status exhaustedItem = Error
     ↔ errorOutcomes (id exhaustedItem) fiveErrors (initialEngine ∅) = MAX_RETRIES).
Proof.
  assert (exhaustedItem ∈ queue (run fiveErrors (initialEngine ∅))) as Hin
    by (vm_compute; apply list_elem_of_here).
  assert (admissible fiveErrors (initialEngine ∅) = true) as Had
    by (vm_compute; reflexivity).
  assert (forallb (fun re => noReset re.2) fiveErrors = true) as Hnr
    by (vm_compute; reflexivity).
  destruct (failed_iff_budget_spent fiveErrors Had Hnr exhaustedItem Hin)
    as (Hc & _ & He & _).
  split; [exact Hc|exact He].
Defined.

(** ** The offline store *)

(** [getOfflineQueue] reads the stored captures in the order of the keys. *)
Lemma storedUnder_omap (db : gmap string CaptureItem) (p : string → bool)
    (l : list (string * CaptureItem)) :
  (∀ kv, kv ∈ l → db !! kv.1 = Some kv.2) →
  omap (fun key => db !! key) (List.filter p l.*1) =
    (List.filter (fun kv => p kv.1) l).*2.
Proof.
  induction l as [|[k v] l IH]; intros H; [done|].
  assert (db !! k = Some v) as Hk by apply (H (k, v)), list_elem_of_here.
  assert (∀ kv, kv ∈ l → db !! kv.1 = Some kv.2) as H'
    by (intros kv Hin; apply H; by apply list_elem_of_further).
  cbn. destruct (p k); cbn; rewrite ?Hk; cbn; by rewrite IH.
Qed.

Lemma getOfflineQueue_entries db :
  getOfflineQueue db =
    (List.filter (fun kv => String.prefix STORE_PREFIX kv.1) (map_to_list db)).*2.
Proof.
  unfold getOfflineQueue, queueKeys. apply storedUnder_omap.
  intros [k v] Hin. by apply elem_of_map_to_list.
Qed.

Lemma filter_Permutation {A} (f : A → bool) (l l' : list A) :
  l ≡ₚ l' → List.filter f l ≡ₚ List.filter f l'.
Proof.
  induction 1 as [|x l l' _ IH|x y l|l l' l'' _ IH1 _ IH2]; simpl.
  - done.
  - destruct (f x); [by constructor|done].
  - destruct (f x), (f y); try done. apply perm_swap.
  - by etrans.
Qed.

Lemma storeKey_prefix i : String.prefix STORE_PREFIX (STORE_PREFIX +:+ i) = true.
Proof. by destruct i. Qed.

Lemma getOfflineQueue_insert_fresh db key capture :
  db !! key = None → String.prefix STORE_PREFIX key = true →
  getOfflineQueue (<[key := capture]> db) ≡ₚ capture :: getOfflineQueue db.
Proof.
  intros Hn Hp. rewrite !getOfflineQueue_entries.
  pose proof (map_to_list_insert db key capture Hn) as Hperm.
  apply (filter_Permutation (fun kv => String.prefix STORE_PREFIX kv.1)) in Hperm.
  rewrite Hperm. simpl. by rewrite Hp.
Qed.

Lemma getOfflineQueueCount_length db :
  getOfflineQueueCount db = length (getOfflineQueue db).
Proof.
  unfold getOfflineQueueCount. rewrite getOfflineQueue_entries.
  unfold queueKeys. rewrite length_fmap.
  induction (map_to_list db) as [|[k v] l IH]; [done|]. cbn.
  destruct (String.prefix STORE_PREFIX k); cbn; by rewrite IH.
Qed.

Lemma getOfflineQueue_present db key old :
  db !! key = Some old → String.prefix STORE_PREFIX key = true →
  getOfflineQueue db ≡ₚ old :: getOfflineQueue (delete key db).
Proof.
  intros E Hp. rewrite <- (insert_id db key old E) at 1.
  rewrite <- (insert_delete_eq db key old).
  apply getOfflineQueue_insert_fresh; [apply lookup_delete_eq|exact Hp].
Qed.

Lemma lookup_foldr_delete (db : gmap string CaptureItem) (l : list string) key :
  foldr delete db l !! key = if decide (key ∈ l) then None else db !! key.
Proof.
  induction l as [|k l IH]; cbn.
  - by rewrite decide_False by apply not_elem_of_nil.
  - destruct (decide (key = k)) as [->|Hne].
    + rewrite lookup_delete_eq. by rewrite decide_True by apply list_elem_of_here.
    + rewrite lookup_delete_ne by done. rewrite IH.
      destruct (decide (key ∈ l)) as [Hin|Hin].
      * by rewrite decide_True by by apply list_elem_of_further.
      * rewrite decide_False; [done|]. by intros [?|?]%elem_of_cons.
Qed.

Lemma elem_of_queueKeys db key :
  key ∈ queueKeys db ↔ String.prefix STORE_PREFIX key = true ∧ is_Some (db !! key).
Proof.
  unfold queueKeys. rewrite list_elem_of_In, List.filter_In, <- list_elem_of_In.
  rewrite list_elem_of_fmap. split.
  - intros [([k v] & -> & Hin%elem_of_map_to_list) Hp]. split; [done|by exists v].
  - intros [Hp [v Hv]]. split; [|done]. exists (key, v). split; [done|].
    by apply elem_of_map_to_list.
Qed.

(** X3. [saveToOfflineQueue] is an upsert under the key of the capture's id:
    the capture can be read back under that key and from [getOfflineQueue],
    which holds it once, next to the captures of the other keys; a record
    saved before under the same id is replaced; no other key changes; and
    the count of stored captures grows by one exactly when the key was
    free. *)
Theorem saveToOfflineQueue_upsert :
  ∀ (capture : CaptureItem) (db : gmap string CaptureItem),
    saveToOfflineQueue capture db !! (STORE_PREFIX +:+ id capture) = Some capture
    ∧ getOfflineQueue (saveToOfflineQueue capture db)
        ≡ₚ capture :: getOfflineQueue (removeFromOfflineQueue (id capture) db)
    ∧ capture ∈ getOfflineQueue (saveToOfflineQueue capture db)
    ∧ (∀ other, id other = id capture →
         saveToOfflineQueue capture (saveToOfflineQueue other db) =
           saveToOfflineQueue capture db)
    ∧ (∀ key, key ≠ STORE_PREFIX +:+ id capture →
         saveToOfflineQueue capture db !! key = db !! key)
    ∧ getOfflineQueueCount (saveToOfflineQueue capture db) =
        (if db !! (STORE_PREFIX +:+ id capture) is Some _
         then getOfflineQueueCount db else S (getOfflineQueueCount db)).
Proof.
  intros capture db. unfold saveToOfflineQueue, removeFromOfflineQueue. cbn zeta.
  set (key := STORE_PREFIX +:+ id capture).
  assert (getOfflineQueue (<[key := capture]> db)
            ≡ₚ capture :: getOfflineQueue (delete key db)) as Hperm.
  { rewrite <- (insert_delete_eq db key capture).
    apply getOfflineQueue_insert_fresh; [apply lookup_delete_eq|apply storeKey_prefix]. }
  split; [apply lookup_insert_eq|]. split; [exact Hperm|]. split; [|split; [|split]].
  - rewrite Hperm. apply list_elem_of_here.
  - intros other ->. fold key. apply insert_insert_eq.
  - intros k Hne. by apply lookup_insert_ne.
  - rewrite !getOfflineQueueCount_length, Hperm. cbn.
    destruct (db !! key) as [old|] eqn:E.
    + by rewrite (getOfflineQueue_present db key old E (storeKey_prefix _)).
    + by rewrite (delete_id db key E).
Qed.

(** X4. [removeFromOfflineQueue] deletes the one key of the given id: that
    key is free afterwards and no other key changes; on a store without the
    key it changes nothing, so it is idempotent; it undoes a
    [saveToOfflineQueue] of the same id; a stored capture leaves
    [getOfflineQueue], the others stay; and the count drops by one exactly
    when the key was present. *)
Theorem removeFromOfflineQueue_exact :
  ∀ (captureId : string) (db : gmap string CaptureItem),
    removeFromOfflineQueue captureId db !! (STORE_PREFIX +:+ captureId) = None
    ∧ (∀ key, key ≠ STORE_PREFIX +:+ captureId →
         removeFromOfflineQueue captureId db !! key = db !! key)
    ∧ (db !! (STORE_PREFIX +:+ captureId) = None →
         removeFromOfflineQueue captureId db = db)
    ∧ removeFromOfflineQueue captureId (removeFromOfflineQueue captureId db) =
        removeFromOfflineQueue captureId db
    ∧ (∀ capture, id capture = captureId →
         removeFromOfflineQueue captureId (saveToOfflineQueue capture db) =
           removeFromOfflineQueue captureId db)
    ∧ (∀ stored, db !! (STORE_PREFIX +:+ captureId) = Some stored →
         getOfflineQueue db
           ≡ₚ stored :: getOfflineQueue (removeFromOfflineQueue captureId db))
    ∧ getOfflineQueueCount (removeFromOfflineQueue captureId db) =
        (if db !! (STORE_PREFIX +:+ captureId) is Some _
         then Nat.pred (getOfflineQueueCount db) else getOfflineQueueCount db).
Proof.
  intros captureId db. unfold removeFromOfflineQueue, saveToOfflineQueue. cbn zeta.
  set (key := STORE_PREFIX +:+ captureId).
  split; [apply lookup_delete_eq|]. split; [|split; [|split; [|split; [|split]]]].
  - intros k Hne. by apply lookup_delete_ne.
  - apply delete_id.
  - apply delete_id, lookup_delete_eq.
  - intros capture ->. fold key. apply delete_insert_eq.
  - intros stored E. apply getOfflineQueue_present; [done|apply storeKey_prefix].
  - destruct (db !! key) as [old|] eqn:E.
    + rewrite !getOfflineQueueCount_length.
      by rewrite (getOfflineQueue_present db key old E (storeKey_prefix _)).
    + by rewrite (delete_id db key E).
Qed.

(** X5. [clearOfflineQueue] frees every key that starts with the prefix and
    keeps every other key with its value; afterwards [getOfflineQueue] is
    empty and the count is 0, clearing again changes nothing, and a capture
    saved next is the only one stored. *)
Theorem clearOfflineQueue_exact :
  ∀ (db : gmap string CaptureItem),
    (∀ key, clearOfflineQueue db !! key =
              if String.prefix STORE_PREFIX key then None else db !! key)
    ∧ getOfflineQueue (clearOfflineQueue db) = []
    ∧ getOfflineQueueCount (clearOfflineQueue db) = 0%nat
    ∧ clearOfflineQueue (clearOfflineQueue db) = clearOfflineQueue db
    ∧ (∀ capture, getOfflineQueue (saveToOfflineQueue capture (clearOfflineQueue db))
                  = [capture]).
Proof.
  intros db.
  assert (∀ key, clearOfflineQueue db !! key =
            if String.prefix STORE_PREFIX key then None else db !! key) as Hlook.
  { intros key. unfold clearOfflineQueue. rewrite lookup_foldr_delete.
    destruct (decide (key ∈ queueKeys db)) as [Hin|Hin].
    - apply elem_of_queueKeys in Hin as [-> _]. done.
    - destruct (String.prefix STORE_PREFIX key) eqn:Hp; [|done].
      destruct (db !! key) as [v|] eqn:E; [|done].
      destruct Hin. apply elem_of_queueKeys. split; [done|by exists v]. }
  assert (getOfflineQueue (clearOfflineQueue db) = []) as Hempty.
  { destruct (getOfflineQueue (clearOfflineQueue db)) as [|item l] eqn:E; [done|].
    assert (item ∈ getOfflineQueue (clearOfflineQueue db)) as Hin
      by (rewrite E; apply list_elem_of_here).
    apply getOfflineQueue_elem in Hin as (key & Hp & Hl).
    rewrite Hlook, Hp in Hl. done. }
  split; [exact Hlook|]. split; [exact Hempty|]. split; [|split].
  - by rewrite getOfflineQueueCount_length, Hempty.
  - apply map_eq. intros key. unfold clearOfflineQueue at 1.
    rewrite lookup_foldr_delete.
    destruct (decide (key ∈ queueKeys (clearOfflineQueue db))) as [Hin|Hin]; [|done].
    apply elem_of_queueKeys in Hin as [Hp [v Hv]]. rewrite Hlook, Hp in Hv. done.
  - intros capture.
    assert (clearOfflineQueue db !! (STORE_PREFIX +:+ id capture) = None) as Hn
      by (by rewrite Hlook, storeKey_prefix).
    pose proof (getOfflineQueue_insert_fresh _ _ capture Hn (storeKey_prefix _)) as Hperm.
    rewrite Hempty in Hperm. unfold saveToOfflineQueue. cbn zeta.
    by apply Permutation_singleton_r in Hperm.
Qed.

(** ** The pace of a single chain *)

Lemma pacing_ext e e' :
  queue e' = queue e → awaiting e' = awaiting e → timers e' = timers e →
  processingRef e' = processingRef e → isRateLimited e' = isRateLimited e →
  isUploading e' = isUploading e →
  pacing e → pacing e'.
Proof.
  intros Hq Ha Ht Hp Hr Hu [].
  split; rewrite ?Hq, ?Ha, ?Ht, ?Hp, ?Hr, ?Hu; done.
Qed.

Lemma pacing_processNext rnd e :
  mountedRef e = true → queueRef e = queue e →
  awaiting e = [] → timers e = [] → isRateLimited e = false →
  processingRef e = true →
  pacing (processNext rnd e) ∧ rested (processNext rnd e).
Proof.
  intros Hm Hq Ha Ht Hr Hp.
  destruct (nextEligible (queueRef e)) as [next|] eqn:Hn.
  - rewrite (processNext_attempt rnd e next Hm Hn).
    rewrite Hq in Hn. apply nextEligible_elem in Hn as [Hin He].
    split.
    + split; cbn; rewrite ?Ha, ?Ht; cbn.
      * done.
      * done.
      * congruence.
      * intros _ t Hin'. by apply elem_of_nil in Hin'.
      * intros s Hs%list_elem_of_singleton. subst s. split; [done|].
        exists (with_status Uploading next). split; [|done].
        apply elem_of_markStatus. exists next. split; [done|].
        by rewrite String.eqb_refl.
    + intros Hp'. cbn in Hp'. congruence.
  - rewrite (processNext_idle rnd e Hm Hn). split.
    + split; cbn; rewrite ?Ha, ?Ht; cbn.
      * done.
      * done.
      * congruence.
      * intros _ t Hin'. by apply elem_of_nil in Hin'.
      * intros s Hs. by apply elem_of_nil in Hs.
    + intros _. cbn. by rewrite <- Hq.
Qed.

Lemma nextEligible_hasPending q :
  hasPending q = false → nextEligible q = None.
Proof.
  intros H. destruct (nextEligible q) as [x|] eqn:E; [|done].
  apply nextEligible_elem in E as [Hin He].
  unfold hasPending in H. apply not_true_iff_false in H. destruct H.
  apply List.existsb_exists. exists x. split; [by apply list_elem_of_In|].
  by apply eligible_true.
Qed.

Lemma pacing_commit rnd e :
  singleChain e → mountedRef e = true → pacing e →
  pacing (commit rnd e) ∧ rested (commit rnd e).
Proof.
  intros H Hm P. unfold commit.
  assert (pacing (syncQueueRef e)) as P1 by (by apply (pacing_ext e)).
  assert (singleChain (syncQueueRef e)) as H1 by (by apply (singleChain_ext e)).
  set (e1 := syncQueueRef e) in *.
  assert (queueRef e1 = queue e1) as Hq1 by done.
  assert (mountedRef e1 = true) as Hm1 by done.
  clearbody e1. clear e H Hm P.
  assert (∀ e2, pacing e2 ∧ rested e2 →
                pacing (syncQueueRef e2) ∧ rested (syncQueueRef e2)) as Hsync.
  { intros e2 [P2 R2]. split; [by apply (pacing_ext e2)|exact R2]. }
  apply Hsync. unfold autoStart.
  destruct (hasPending (queue e1)) eqn:Hh; cbn [andb].
  2:{ split; [done|]. intros _. by apply nextEligible_hasPending. }
  destruct (processingRef e1) eqn:Hp; cbn [andb negb].
  { split; [done|]. intros ?. congruence. }
  rewrite (p_idle e1 P1 Hp). cbn [negb].
  unfold startProcessing. rewrite Hp, Hm1. cbn [orb negb].
  destruct (sc_idle e1 H1 Hm1 Hp) as [Ha Ht].
  apply pacing_processNext; try done. cbn. by apply (p_idle e1 P1).
Qed.

Lemma pacing_addToQueue newId now image meta e :
  pacing e → pacing (addToQueue newId now image meta e).
Proof.
  intros [Hi Hb Hp Ht Hf]. split; cbn; try done.
  intros s Hs. destruct (Hf s Hs) as (Hu & item & Hin & Hid & Hst).
  split; [done|]. exists item. split; [|done]. apply elem_of_app. by left.
Qed.

Lemma pacing_retryFailed e : pacing e → pacing (retryFailed e).
Proof.
  intros [Hi Hb Hp Ht Hf]. split; cbn; try done.
  intros s Hs. destruct (Hf s Hs) as (Hu & item & Hin & Hid & Hst).
  split; [done|]. exists item. split; [|done].
  apply elem_of_map. exists item. split; [|done].
  rewrite (proj2 (is_status_false Error item)); [done|congruence].
Qed.

Lemma pacing_loadOfflineQueue e : pacing e → pacing (loadOfflineQueue e).
Proof.
  intros [Hi Hb Hp Ht Hf]. unfold loadOfflineQueue. case_match; [|done].
  split; cbn; try done.
  intros s Hs. destruct (Hf s Hs) as (Hu & item & Hin & Hid & Hst).
  split; [done|]. exists item. split; [|done]. apply elem_of_app. by left.
Qed.

Lemma pacing_resumeAfterBackoff k e :
  singleChain e → mountedRef e = true → pacing e →
  pacing (resumeAfterBackoff k e).
Proof.
  intros H Hm P. unfold resumeAfterBackoff.
  destruct (awaiting e !! k) as [[[d|] next]|] eqn:Hk; try done.
  destruct (single_awaiting e k _ H Hk) as (Ha & -> & Ht).
  rewrite Hm. cbn [negb]. rewrite Ha. cbn.
  destruct P as [Hi Hb Hp Htk Hf]. split; cbn; rewrite ?Ha in *; try done.
  intros s Hs%list_elem_of_singleton. subst s. cbn.
  apply (Hf {| await_point := AwaitBackoff d; nextItem := next |}).
  apply list_elem_of_here.
Qed.

(** A suspended call excludes a rate-limit pause. *)
Lemma awaiting_not_paused e k s :
  singleChain e → mountedRef e = true → pacing e → awaiting e !! k = Some s →
  isRateLimited e = false ∧ processingRef e = true.
Proof.
  intros H Hm P Hk. destruct (single_awaiting e k s H Hk) as (Ha & _ & Ht).
  split.
  - destruct (isRateLimited e) eqn:Hr; [|done].
    destruct (p_paused e P Hr) as (_ & t & Ht' & _). congruence.
  - destruct (processingRef e) eqn:Hp; [done|].
    destruct (sc_idle e H Hm Hp) as [Ha' _]. congruence.
Qed.

Lemma pacing_resumeAfterUpload rnd k result e :
  singleChain e → mountedRef e = true → pacing e →
  pacing (resumeAfterUpload rnd k result e).
Proof.
  intros H Hm P. unfold resumeAfterUpload.
  destruct (awaiting e !! k) as [[[d|] next]|] eqn:Hk; try done.
  destruct (single_awaiting e k _ H Hk) as (Ha & -> & Ht).
  destruct (awaiting_not_paused e _ _ H Hm P Hk) as [Hr Hp].
  cbn. rewrite Ha, Hm. cbn.
  destruct result.
  - split; cbn; rewrite ?Ht; cbn.
    + done.
    + done.
    + congruence.
    + intros _ t Hin%list_elem_of_singleton. by subst t.
    + intros s Hs. by apply elem_of_nil in Hs.
  - unfold onError. destruct (MAX_RETRIES <=? retryCount next + 1);
      (split; cbn; rewrite ?Ht; cbn;
       [done|done|congruence
       |intros _ t Hin%list_elem_of_singleton; by subst t
       |intros s Hs; by apply elem_of_nil in Hs]).
  - split; cbn; rewrite ?Ht; cbn.
    + intros ?. congruence.
    + done.
    + intros _. split; [done|]. eexists. split; [done|done].
    + done.
    + intros s Hs. by apply elem_of_nil in Hs.
Qed.

Lemma pacing_fireTimer rnd h e :
  singleChain e → mountedRef e = true → queueRef e = queue e →
  pacing e → rested e →
  pacing (fireTimer rnd h e) ∧ rested (fireTimer rnd h e).
Proof.
  intros H Hm Hq P R. unfold fireTimer.
  destruct (List.find _ (timers e)) as [t|] eqn:Hf; [|done].
  destruct (single_timer e h t H Hf) as (Ht & Ha & Hc).
  assert (processingRef e = true) as Hp.
  { destruct (processingRef e) eqn:Hp; [done|].
    destruct (sc_idle e H Hm Hp) as [_ Ht']. congruence. }
  unfold runCallback. change (mountedRef (clearTimeout h e)) with (mountedRef e).
  rewrite Hm. destruct (timer_callback t) eqn:Hcb.
  - apply pacing_processNext; try done.
    destruct (isRateLimited e) eqn:Hr; [|done].
    destruct (p_paused e P Hr) as (_ & t' & Ht' & Hcb'). congruence.
  - by apply pacing_processNext.
Qed.

Lemma mountedRef_processNext rnd e : mountedRef (processNext rnd e) = mountedRef e.
Proof.
  unfold processNext. destruct (mountedRef e) eqn:Hm; cbn; [|done].
  by destruct (nextEligible (queueRef e)).
Qed.

Lemma mountedRef_commit rnd e : mountedRef (commit rnd e) = mountedRef e.
Proof.
  unfold commit, autoStart, startProcessing.
  repeat case_match; cbn; rewrite ?mountedRef_processNext; done.
Qed.

Lemma handler_unmounted rnd ev e :
  mountedRef e = false → mountedRef (handler rnd ev e) = false.
Proof.
  intros Hm. destruct ev; simpl handler; try done.
  - unfold clearQueue, clearTimeoutRef. by repeat case_match.
  - unfold loadOfflineQueue. by case_match.
  - unfold resumeAfterBackoff.
    destruct (awaiting e !! k) as [[[d|] next]|]; rewrite ?Hm; done.
  - unfold resumeAfterUpload.
    destruct (awaiting e !! k) as [[[d|] next]|]; cbn; rewrite ?Hm; done.
  - unfold fireTimer. destruct (List.find _ (timers e)) as [t|]; [|done].
    unfold runCallback. cbn. rewrite Hm. by destruct (timer_callback t).
  - unfold unmount, clearTimeoutRef. by repeat case_match.
Qed.

Lemma step_mounted rnd ev e :
  mountedRef (step rnd ev e) = true →
  mountedRef e = true ∧ mountedRef (handler rnd ev e) = true
  ∧ step rnd ev e = commit rnd (handler rnd ev e).
Proof.
  unfold step. destruct (mountedRef (handler rnd ev e)) eqn:Hmh; [|congruence].
  intros _. split; [|done].
  destruct (mountedRef e) eqn:Hm; [done|].
  by rewrite (handler_unmounted rnd ev e Hm) in Hmh.
Qed.

Lemma live_step rnd ev e :
  singleChain e → synced e → live e → allowed e ev = true →
  live (step rnd ev e).
Proof.
  intros H Hsync L Hal Hm'.
  pose proof (singleChain_handler rnd ev e H Hsync Hal) as H'.
  destruct (step_mounted rnd ev e Hm') as (Hm & Hmh & ->).
  destruct (L Hm) as [P R].
  apply pacing_commit; [done|done|].
  destruct ev; simpl handler.
  - by apply pacing_addToQueue.
  - by apply pacing_retryFailed.
  - discriminate.
  - by apply pacing_loadOfflineQueue.
  - by apply pacing_resumeAfterBackoff.
  - by apply pacing_resumeAfterUpload.
  - apply pacing_fireTimer; try done. by apply Hsync.
  - exfalso. revert Hmh. simpl. unfold unmount, clearTimeoutRef.
    by repeat case_match.
Qed.

Lemma live_run evs e :
  singleChain e → synced e → live e → admissible evs e = true →
  live (run evs e).
Proof.
  revert e. induction evs as [|[rnd ev] evs IH]; intros e H Hsync L Had; [done|].
  simpl in Had. apply andb_true_iff in Had as [Hal Had].
  destruct (singleChain_step rnd ev e H Hsync Hal) as [H' Hs'].
  simpl. apply IH; try done. by apply live_step.
Qed.

Lemma live_initial db : live (initialEngine db).
Proof.
  intros _. split; [|done]. split; cbn.
  - done.
  - done.
  - done.
  - intros _ t Hin. by apply elem_of_nil in Hin.
  - intros s Hs. by apply elem_of_nil in Hs.
Qed.

Lemma live_reached db evs :
  storeOfFailures db → admissible evs (initialEngine db) = true →
  singleChain (run evs (initialEngine db))
  ∧ synced (run evs (initialEngine db))
  ∧ live (run evs (initialEngine db)).
Proof.
  intros Hs Had. destruct (singleChain_initial db Hs) as [H0 S0].
  destruct (singleChain_run evs _ H0 S0 Had) as [H S].
  split; [done|]. split; [done|].
  apply live_run; try done. apply live_initial.
Qed.

(** X6. The queue never stalls on a single chain: while a mounted hook holds
    an item that [processNext] may pick, the processing flag is set and
    exactly one continuation is pending, a suspended call of [processNext]
    or a timer that calls it; and while the hook is rate limited, the
    pending continuation is the timer that ends the pause. *)
Theorem work_left_is_scheduled :
  ∀ (db : gmap string CaptureItem) (evs : list (Q * Event)),
    storeOfFailures db →
    admissible evs (initialEngine db) = true →
    mountedRef (run evs (initialEngine db)) = true →
    (∀ item, item ∈ queue (run evs (initialEngine db)) → isEligible item →
       processingRef (run evs (initialEngine db)) = true
       ∧ (length (awaiting (run evs (initialEngine db)))
          + length (timers (run evs (initialEngine db))) = 1)%nat)
    ∧ (isRateLimited (run evs (initialEngine db)) = true →
       processingRef (run evs (initialEngine db)) = true
       ∧ awaiting (run evs (initialEngine db)) = []
       ∧ ∃ t, timers (run evs (initialEngine db)) = [t]
              ∧ timer_callback t = RateLimitResume
              ∧ rateLimitTimerRef (run evs (initialEngine db))
                  = Some (timer_handle t)).
Proof.
  intros db evs Hs Had Hm.
  destruct (live_reached db evs Hs Had) as (H & S & L).
  set (e := run evs (initialEngine db)) in *.
  destruct (L Hm) as [P R]. split.
  - intros item Hin He.
    assert (processingRef e = true) as Hp.
    { destruct (processingRef e) eqn:Hp; [done|].
      pose proof (R Hp) as Hn. rewrite nextEligible_None in Hn.
      rewrite Forall_forall in Hn. by destruct (Hn item Hin). }
    split; [done|]. by apply (p_busy e P).
  - intros Hr. destruct (p_paused e P Hr) as (_ & t & Ht & Hcb).
    split.
    { destruct (processingRef e) eqn:Hp; [done|].
      pose proof (p_idle e P Hp). congruence. }
    split.
    { pose proof (sc_one e H) as Hone. rewrite Ht in Hone.
      destruct (awaiting e); [done|]. simpl in Hone. lia. }
    exists t. split; [done|]. split; [done|].
    pose proof (sc_refs e H t) as Href. unfold referenced in Href.
    rewrite Hcb in Href. apply Href. rewrite Ht. apply list_elem_of_here.
Qed.

Lemma work_left_is_scheduled_witness :
  processingRef (run pausedRun (initialEngine ∅)) = true
  ∧ awaiting (run pausedRun (initialEngine ∅)) = []
  ∧ ∃ t, timers (run pausedRun (initialEngine ∅)) = [t]
         ∧ timer_callback t = RateLimitResume
         ∧ rateLimitTimerRef (run pausedRun (initialEngine ∅))
             = Some (timer_handle t).
Proof.
  apply (work_left_is_scheduled ∅ pausedRun).
  - intros key item Hl. by rewrite lookup_empty in Hl.
  - vm_compute. reflexivity.
  - vm_compute. reflexivity.
  - vm_compute. reflexivity.
Defined.

(** X7. The two flags the hook returns agree with the queue on a single
    chain: while a mounted hook is rate limited, [isUploading] is false and
    no item has status ['uploading']; and while an item has status
    ['uploading'], [isUploading] is true and the hook is not rate
    limited. *)
Theorem flags_agree_with_queue :
  ∀ (db : gmap string CaptureItem) (evs : list (Q * Event)),
    storeOfFailures db →
    admissible evs (initialEngine db) = true →
    mountedRef (run evs (initialEngine db)) = true →
    (isRateLimited (run evs (initialEngine db)) = true →
       isUploading (run evs (initialEngine db)) = false
       ∧ countStatus Uploading (queue (run evs (initialEngine db))) = 0%nat)
    ∧ (∀ item, item ∈ queue (run evs (initialEngine db)) →
         status item = Uploading →
         isUploading (run evs (initialEngine db)) = true
         ∧ isRateLimited (run evs (initialEngine db)) = false).
Proof.
  intros db evs Hs Had Hm.
  destruct (live_reached db evs Hs Had) as (H & S & L).
  set (e := run evs (initialEngine db)) in *.
  destruct (L Hm) as [P R].
  assert (isRateLimited e = true → awaiting e = []) as Hpa.
  { intros Hr. destruct (p_paused e P Hr) as (_ & t & Ht & _).
    pose proof (sc_one e H) as Hone. rewrite Ht in Hone.
    destruct (awaiting e); [done|]. simpl in Hone. lia. }
  split.
  - intros Hr. split; [apply (p_paused e P Hr)|].
    apply no_upload_when_idle; auto.
  - intros item Hin Hst.
    destruct (sc_uploading e H Hm item Hin Hst) as (s & Hs' & _).
    split; [apply (p_flight e P s Hs')|].
    destruct (isRateLimited e) eqn:Hr; [|done].
    rewrite (Hpa eq_refl) in Hs'. by apply elem_of_nil in Hs'.
Qed.

Lemma flags_agree_with_queue_witness :
  isUploading (run pausedRun (initialEngine ∅)) = false
  ∧ countStatus Uploading (queue (run pausedRun (initialEngine ∅))) = 0%nat.
Proof.
  apply (flags_agree_with_queue ∅ pausedRun).
  - intros key item Hl. by rewrite lookup_empty in Hl.
  - vm_compute. reflexivity.
  - vm_compute. reflexivity.
  - vm_compute. reflexivity.
Defined.

(** ** Uploaded items *)

Lemma kept_by_map (f : CaptureItem → CaptureItem) q item :
  item ∈ q → f item = item → item ∈ List.map f q.
Proof. intros Hin Hf. apply elem_of_map. exists item. by rewrite Hf. Qed.

Lemma run_app evs more e : run (evs ++ more) e = run more (run evs e).
Proof. unfold run. apply fold_left_app. Qed.

Lemma admissible_app evs more e :
  admissible (evs ++ more) e = admissible evs e && admissible more (run evs e).
Proof.
  revert e. induction evs as [|[rnd ev] evs IH]; intros e; [done|].
  simpl. rewrite IH. by rewrite andb_assoc.
Qed.

Lemma success_kept_processNext rnd e item :
  NoDup (List.map id (queue e)) → queueRef e = queue e →
  item ∈ queue e → status item = Success →
  item ∈ queue (processNext rnd e).
Proof.
  intros Hnd Hq Hin Hst. unfold processNext.
  destruct (mountedRef e); cbn; [|done].
  destruct (nextEligible (queueRef e)) as [next|] eqn:Hn; cbn; [|done].
  rewrite Hq in Hn. apply nextEligible_elem in Hn as [Hin' [Hs' _]].
  apply kept_by_map; [done|].
  destruct (String.eqb_spec (id item) (id next)) as [E|]; [|done].
  rewrite (unique_by_id _ _ _ Hnd Hin Hin' E) in Hst. congruence.
Qed.

Lemma success_kept_commit rnd e item :
  singleChain e → item ∈ queue e → status item = Success →
  item ∈ queue (commit rnd e).
Proof.
  intros H Hin Hst. unfold commit. cbn [queue syncQueueRef set_queueRef].
  unfold autoStart, startProcessing. repeat case_match; try done.
  apply success_kept_processNext; try done. apply (sc_nodup e H).
Qed.

Lemma success_kept_handler rnd ev e item :
  singleChain e → synced e → live e → allowed e ev = true →
  item ∈ queue e → status item = Success →
  item ∈ queue (handler rnd ev e).
Proof.
  intros H Hsync L Hal Hin Hst. pose proof (sc_nodup e H) as Hnd.
  destruct ev; simpl handler.
  - cbn. apply elem_of_app. by left.
  - cbn. apply kept_by_map; [done|].
    rewrite (proj2 (is_status_false Error item)); [done|congruence].
  - discriminate.
  - rewrite loadOfflineQueue_queue. apply elem_of_app. by left.
  - unfold resumeAfterBackoff.
    destruct (awaiting e !! k) as [[[d|] next]|]; try done.
    by destruct (mountedRef e).
  - unfold resumeAfterUpload.
    destruct (awaiting e !! k) as [[[d|] next]|] eqn:Hk; try done.
    cbn. destruct (mountedRef e) eqn:Hm; cbn; [|done].
    destruct (L Hm) as [P _].
    destruct (p_flight e P _ (list_elem_of_lookup_2 _ _ _ Hk))
      as (_ & x & Hx & Hid & Hsx). cbn in Hid.
    assert (id item ≠ id next) as Hne.
    { intros E. rewrite <- Hid in E.
      rewrite (unique_by_id _ _ _ Hnd Hin Hx E) in Hst. congruence. }
    apply String.eqb_neq in Hne.
    destruct result; cbn.
    + apply kept_by_map; [done|]. by rewrite Hne.
    + unfold onError. destruct (MAX_RETRIES <=? retryCount next + 1); cbn;
        (apply kept_by_map; [done|]; by rewrite Hne).
    + apply kept_by_map; [done|]. by rewrite Hne.
  - unfold fireTimer. destruct (List.find _ (timers e)) as [t|]; [|done].
    unfold runCallback. change (mountedRef (clearTimeout h e)) with (mountedRef e).
    destruct (mountedRef e) eqn:Hm; [|by destruct (timer_callback t)].
    specialize (Hsync Hm).
    destruct (timer_callback t); by apply success_kept_processNext.
  - unfold unmount, clearTimeoutRef, clearTimeout. by repeat case_match.
Qed.

Lemma success_kept_step rnd ev e item :
  singleChain e → synced e → live e → allowed e ev = true →
  item ∈ queue e → status item = Success →
  item ∈ queue (step rnd ev e).
Proof.
  intros H Hsync L Hal Hin Hst.
  pose proof (success_kept_handler rnd ev e item H Hsync L Hal Hin Hst) as Hin'.
  unfold step. destruct (mountedRef (handler rnd ev e)); [|done].
  apply success_kept_commit; [|done|done].
  by apply singleChain_handler.
Qed.

Lemma success_kept_run evs e item :
  singleChain e → synced e → live e → admissible evs e = true →
  item ∈ queue e → status item = Success →
  item ∈ queue (run evs e).
Proof.
  revert e. induction evs as [|[rnd ev] evs IH]; intros e H Hsync L Had Hin Hst;
    [done|].
  simpl in Had. apply andb_true_iff in Had as [Hal Had].
  destruct (singleChain_step rnd ev e H Hsync Hal) as [H' Hs'].
  simpl. apply IH; try done.
  - by apply live_step.
  - by apply success_kept_step.
Qed.

(** X8. An uploaded item is final on a single chain: once an item of the
    queue has status ['success'], every later state of the run holds the
    same item, unchanged and at most once, and on a mounted hook no
    suspended call of [processNext] is an attempt of it: it is not uploaded
    a second time. *)
Theorem success_is_final :
  ∀ (db : gmap string CaptureItem) (evs more : list (Q * Event))
    (item : CaptureItem),
    storeOfFailures db →
    admissible (evs ++ more) (initialEngine db) = true →
    item ∈ queue (run evs (initialEngine db)) →
    status item = Success →
    item ∈ queue (run (evs ++ more) (initialEngine db))
    ∧ (∀ other, other ∈ queue (run (evs ++ more) (initialEngine db)) →
         id other = id item → other = item)
    ∧ (mountedRef (run (evs ++ more) (initialEngine db)) = true →
       ∀ s, s ∈ awaiting (run (evs ++ more) (initialEngine db)) →
         id (nextItem s) ≠ id item).
Proof.
  intros db evs more item Hs Had Hin Hst.
  pose proof Had as Had'.
  rewrite admissible_app in Had'. apply andb_true_iff in Had' as [Had1 Had2].
  destruct (live_reached db evs Hs Had1) as (H1 & S1 & L1).
  destruct (live_reached db (evs ++ more) Hs Had) as (H & S & L).
  assert (item ∈ queue (run (evs ++ more) (initialEngine db))) as Hin'.
  { rewrite run_app. by apply success_kept_run. }
  set (e := run (evs ++ more) (initialEngine db)) in *.
  split; [done|]. split.
  - intros other Ho E. apply (unique_by_id (queue e) other item (sc_nodup e H) Ho Hin' E).
  - intros Hm s Hs' E. destruct (L Hm) as [P _].
    destruct (p_flight e P s Hs') as (_ & x & Hx & Hid & Hsx).
    rewrite <- Hid in E. symmetry in E.
    rewrite (unique_by_id _ _ _ (sc_nodup e H) Hin' Hx E) in Hst. congruence.
Qed.

Lemma success_is_final_witness :
  with_status Success sampleNewItem
    ∈ queue (run (uploadedFirst ++ afterwards) (initialEngine ∅)).
Proof.
  apply (success_is_final ∅ uploadedFirst afterwards).
  - intros key item Hl. by rewrite lookup_empty in Hl.
  - vm_compute. reflexivity.
  - vm_compute. apply list_elem_of_here.
  - reflexivity.
Defined.

(** ** Clearing the queue during a rate-limit pause *)

Lemma commit_paused rnd e : isRateLimited e = true → commit rnd e = syncQueueRef e.
Proof.
  intros H. unfold commit, autoStart. cbn. rewrite H.
  by rewrite andb_false_r.
Qed.

Lemma stalled_handler rnd ev e :
  stalled e → ev ≠ EvUnmount →
  stalled (handler rnd ev e)
  ∧ offlineDb (handler rnd ev e) = offlineDb e
  ∧ isUploading (handler rnd ev e) = isUploading e
  ∧ ∀ item, item ∈ queue (handler rnd ev e) →
      item ∈ queue e ∨ item ∈ getOfflineQueue (offlineDb e)
      ∨ status item = Pending.
Proof.
  intros (Hm & Hr & Ht & Ha) Hev. destruct ev; simpl handler.
  - split; [done|]. split; [done|]. split; [done|]. cbn.
    intros item [Hin|Hin%list_elem_of_singleton]%elem_of_app; [by left|].
    right. right. by subst item.
  - split; [done|]. split; [done|]. split; [done|]. cbn.
    intros item (x & -> & Hx)%elem_of_map.
    destruct (is_status Error x && (MAX_RETRIES <=? retryCount x));
      [by right; right|by left].
  - destruct (clearQueue_hookState e) as [Hh Haw].
    destruct (clearQueue_fields e) as (Hdb & Hq & Hmc).
    unfold hookState in Hh. cbn in Hh.
    assert (isRateLimited (clearQueue e) = isRateLimited e) as Hrc by congruence.
    assert (isUploading (clearQueue e) = isUploading e) as Huc by congruence.
    split; [|split; [done|split; [done|]]].
    + split; [congruence|]. split; [congruence|]. split; [|congruence].
      destruct (timers (clearQueue e)) as [|t l] eqn:Et; [done|].
      assert (t ∈ timers e) as Hin
        by (apply clearQueue_timers; rewrite Et; apply list_elem_of_here).
      rewrite Ht in Hin. by apply elem_of_nil in Hin.
    + rewrite Hq. intros item Hin. by apply elem_of_nil in Hin.
  - rewrite loadOfflineQueue_offlineDb, loadOfflineQueue_queue.
    split; [|split; [done|split]].
    + unfold loadOfflineQueue. by case_match.
    + unfold loadOfflineQueue. by case_match.
    + intros item [Hin|Hin]%elem_of_app; [by left|by right; left].
  - unfold resumeAfterBackoff. rewrite Ha. cbn. by repeat split; try left.
  - unfold resumeAfterUpload. rewrite Ha. cbn. by repeat split; try left.
  - unfold fireTimer. rewrite Ht. cbn. by repeat split; try left.
  - done.
Qed.

Lemma stalled_step rnd ev e :
  stalled e → ev ≠ EvUnmount →
  stalled (step rnd ev e)
  ∧ offlineDb (step rnd ev e) = offlineDb e
  ∧ isUploading (step rnd ev e) = isUploading e
  ∧ ∀ item, item ∈ queue (step rnd ev e) →
      item ∈ queue e ∨ item ∈ getOfflineQueue (offlineDb e)
      ∨ status item = Pending.
Proof.
  intros Hst Hev.
  destruct (stalled_handler rnd ev e Hst Hev) as ((Hm & Hr & Ht & Ha) & Hdb & Hu & Hq).
  unfold step. rewrite Hm, (commit_paused rnd _ Hr). by repeat split.
Qed.

Lemma stalled_run evs e :
  stalled e → Forall (fun re => re.2 ≠ EvUnmount) evs →
  stalled (run evs e)
  ∧ offlineDb (run evs e) = offlineDb e
  ∧ isUploading (run evs e) = isUploading e
  ∧ ∀ item, item ∈ queue (run evs e) →
      item ∈ queue e ∨ item ∈ getOfflineQueue (offlineDb e)
      ∨ status item = Pending.
Proof.
  intros Hst Hevs. revert e Hst.
  induction Hevs as [|[rnd ev] evs Hev _ IH]; intros e Hst.
  { split; [done|]. split; [done|]. split; [done|]. intros item Hin. by left. }
  destruct (stalled_step rnd ev e Hst Hev) as (Hst' & Hdb & Hu & Hq).
  destruct (IH _ Hst') as (Hst'' & Hdb' & Hu' & Hq').
  change (run ((rnd, ev) :: evs) e) with (run evs (step rnd ev e)).
  split; [done|]. split; [congruence|]. split; [congruence|].
  intros item Hin. destruct (Hq' item Hin) as [H|[H|H]].
  - by apply Hq.
  - right. left. by rewrite <- Hdb.
  - by right; right.
Qed.

(** X9. When [clearQueue] is called while a mounted hook is rate limited,
    on a single chain, the pause never ends: the call cancels the timer
    that would clear [isRateLimited], so the hook stays rate limited with
    no timer and no suspended call, whatever is enqueued, retried, loaded
    or cleared afterwards; no item is uploaded any more (each item of the
    queue is ['pending'] or a failed capture loaded from the store),
    [isUploading] stays false and the offline store stays as it was. *)
Theorem cleared_pause_never_resumes :
  ∀ (db : gmap string CaptureItem) (evs more : list (Q * Event)) (rnd : Q),
    storeOfFailures db →
    admissible evs (initialEngine db) = true →
    mountedRef (run evs (initialEngine db)) = true →
    isRateLimited (run evs (initialEngine db)) = true →
    Forall (fun re => re.2 ≠ EvUnmount) more →
    stalled (run more (step rnd EvClearQueue (run evs (initialEngine db))))
    ∧ isUploading (run more (step rnd EvClearQueue (run evs (initialEngine db))))
        = false
    ∧ offlineDb (run more (step rnd EvClearQueue (run evs (initialEngine db))))
        = offlineDb (run evs (initialEngine db))
    ∧ ∀ item,
        item ∈ queue (run more (step rnd EvClearQueue (run evs (initialEngine db)))) →
        status item = Pending ∨ status item = Error.
Proof.
  intros db evs more rnd Hs Had Hm Hr Hmore.
  destruct (live_reached db evs Hs Had) as (H & S & L).
  set (e := run evs (initialEngine db)) in *.
  destruct (L Hm) as [P R].
  destruct (p_paused e P Hr) as (Hu & t & Ht & Hcb).
  assert (awaiting e = []) as Ha.
  { pose proof (sc_one e H) as Hone. rewrite Ht in Hone.
    destruct (awaiting e); [done|]. simpl in Hone. lia. }
  assert (rateLimitTimerRef e = Some (timer_handle t)) as Href.
  { pose proof (sc_refs e H t) as Href. unfold referenced in Href.
    rewrite Hcb in Href. apply Href. rewrite Ht. apply list_elem_of_here. }
  assert (stalled (step rnd EvClearQueue e)
          ∧ isUploading (step rnd EvClearQueue e) = false) as [Hst Hu'].
  { destruct (clearQueue_hookState e) as [Hh Haw].
    destruct (clearQueue_fields e) as (Hdb & Hq & Hmc).
    unfold hookState in Hh. cbn in Hh.
    assert (isRateLimited (clearQueue e) = true) as Hrc by congruence.
    assert (isUploading (clearQueue e) = false) as Huc by congruence.
    unfold step. cbn [handler]. rewrite Hmc, Hm, (commit_paused rnd _ Hrc).
    split; [|done]. split; [by rewrite <- Hm|]. split; [done|].
    split; [|by rewrite <- Ha]. cbn.
    unfold clearQueue, clearTimeoutRef, clearTimeout. cbn.
    destruct (nextTimerRef e) as [h|]; cbn; rewrite Href; cbn; rewrite Ht; cbn.
    - destruct (Nat.eqb (timer_handle t) h); cbn; [done|].
      by rewrite Nat.eqb_refl.
    - by rewrite Nat.eqb_refl. }
  destruct (stalled_run more _ Hst Hmore) as (Hst' & Hdb' & Hu'' & Hq').
  destruct (step_clearQueue rnd e) as [Hdbc Hqc].
  split; [done|]. split; [congruence|]. split; [congruence|].
  intros item Hin. destruct (Hq' item Hin) as [Hi|[Hi|Hi]].
  - rewrite Hqc in Hi. by apply elem_of_nil in Hi.
  - right. rewrite Hdbc in Hi.
    apply getOfflineQueue_elem in Hi as (key & _ & Hl).
    by destruct (sc_store e H key item Hl).
  - by left.
Qed.

Lemma cleared_pause_never_resumes_witness :
  stalled (run afterClear (step draw EvClearQueue (run pausedRun (initialEngine ∅)))).
Proof.
  assert (storeOfFailures ∅) as Hs
    by (intros key item Hl; by rewrite lookup_empty in Hl).
  assert (admissible pausedRun (initialEngine ∅) = true) as Had
    by (vm_compute; reflexivity).
  assert (mountedRef (run pausedRun (initialEngine ∅)) = true) as Hm
    by (vm_compute; reflexivity).
  assert (isRateLimited (run pausedRun (initialEngine ∅)) = true) as Hr
    by (vm_compute; reflexivity).
  assert (Forall (fun re : Q * Event => re.2 ≠ EvUnmount) afterClear) as Hmore
    by (repeat (constructor; [discriminate|]); constructor).
  exact (proj1 (cleared_pause_never_resumes ∅ pausedRun afterClear draw
                  Hs Had Hm Hr Hmore)).
Defined.

(** ** What the hook leaves alone *)

Lemma payload_map (f : CaptureItem → CaptureItem) q :
  (∀ x, payload (f x) = payload x) →
  List.map payload (List.map f q) = List.map payload q.
Proof. intros H. rewrite List.map_map. by apply List.map_ext. Qed.

Lemma payload_markStatus t s q :
  List.map payload (markStatus t s q) = List.map payload q.
Proof. apply payload_map. intros x. by destruct (String.eqb (id x) t). Qed.



Lemma payload_processNext rnd e :
  List.map payload (queue (processNext rnd e)) = List.map payload (queue e)
  ∧ offlineDb (processNext rnd e) = offlineDb e.
Proof.
  unfold processNext. destruct (mountedRef e); cbn; [|done].
  destruct (nextEligible (queueRef e)); cbn; [|done].
  by rewrite payload_markStatus.
Qed.

Lemma payload_commit rnd e :
  List.map payload (queue (commit rnd e)) = List.map payload (queue e)
  ∧ offlineDb (commit rnd e) = offlineDb e.
Proof.
  unfold commit, syncQueueRef, autoStart, startProcessing.
  repeat case_match; try done. cbn [queue offlineDb set_queueRef].
  apply (payload_processNext rnd (set_processingRef true (set_queueRef (queue e) e))).
Qed.




(** X11. The hook writes the offline store only when an upload settles as
    ['success'] or as ['error']: every other event, with its commit, leaves
    the store as it is; and no event ever touches a key that does not start
    with the queue's prefix, so along any run the other entries of the
    store keep their values. *)
Theorem store_written_only_by_outcomes :
  (∀ (rnd : Q) (ev : Event) (e : Engine),
     (∀ k, ev ≠ EvUploadSettled k upload_success) →
     (∀ k, ev ≠ EvUploadSettled k upload_error) →
     offlineDb (step rnd ev e) = offlineDb e)
  ∧ (∀ (evs : list (Q * Event)) (e : Engine) (key : string),
       String.prefix STORE_PREFIX key = false →
       offlineDb (run evs e) !! key = offlineDb e !! key).
Proof.
  assert (∀ rnd ev e, offlineDb (step rnd ev e) = offlineDb (handler rnd ev e)) as Hc.
  { intros rnd ev e. unfold step.
    destruct (mountedRef (handler rnd ev e)); [|done].
    apply payload_commit. }
  assert (∀ rnd e, offlineDb (processNext rnd e) = offlineDb e) as Hpn
    by (intros; apply payload_processNext).
  split.
  - intros rnd ev e Hs He. rewrite Hc. destruct ev; simpl handler.
    + done.
    + done.
    + apply clearQueue_fields.
    + apply loadOfflineQueue_offlineDb.
    + unfold resumeAfterBackoff.
      destruct (awaiting e !! k) as [[[d|] next]|]; try done.
      by destruct (mountedRef e).
    + unfold resumeAfterUpload.
      destruct (awaiting e !! k) as [[[d|] next]|]; try done.
      cbn. destruct (mountedRef e); cbn; [|done].
      destruct result; [by destruct (Hs k)|by destruct (He k)|done].
    + unfold fireTimer. destruct (List.find _ (timers e)) as [t|]; [|done].
      unfold runCallback. change (mountedRef (clearTimeout h e)) with (mountedRef e).
      destruct (mountedRef e); [|by destruct (timer_callback t)].
      destruct (timer_callback t); by rewrite Hpn.
    + unfold unmount, clearTimeoutRef, clearTimeout. by repeat case_match.
  - intros evs e key Hp. revert e.
    induction evs as [|[rnd ev] evs IH]; intros e; [done|].
    change (run ((rnd, ev) :: evs) e) with (run evs (step rnd ev e)).
    rewrite IH, Hc. clear IH.
    assert (∀ i, key ≠ STORE_PREFIX +:+ i) as Hne
      by (intros i ->; by rewrite storeKey_prefix in Hp).
    destruct ev; simpl handler.
    + done.
    + done.
    + by rewrite (proj1 (clearQueue_fields e)).
    + by rewrite loadOfflineQueue_offlineDb.
    + unfold resumeAfterBackoff.
      destruct (awaiting e !! k) as [[[d|] next]|]; try done.
      by destruct (mountedRef e).
    + unfold resumeAfterUpload.
      destruct (awaiting e !! k) as [[[d|] next]|]; try done.
      cbn. destruct (mountedRef e); cbn; [|done].
      destruct result; cbn.
      * unfold removeFromOfflineQueue. by rewrite lookup_delete_ne.
      * unfold onError. destruct (MAX_RETRIES <=? retryCount next + 1); cbn; [|done].
        unfold saveToOfflineQueue. by rewrite lookup_insert_ne.
      * done.
    + unfold fireTimer. destruct (List.find _ (timers e)) as [t|]; [|done].
      unfold runCallback. change (mountedRef (clearTimeout h e)) with (mountedRef e).
      destruct (mountedRef e); [|by destruct (timer_callback t)].
      destruct (timer_callback t); by rewrite Hpn.
    + unfold unmount, clearTimeoutRef, clearTimeout. by repeat case_match.
Qed.

Lemma store_written_only_by_outcomes_witness :
  offlineDb (step draw (EvUploadSettled 0 upload_rate_limit) sampleRunning)
    = offlineDb sampleRunning
  ∧ offlineDb (run fiveErrors (initialEngine {[ "theme" := stuckItem ]})) !! "theme"
    = offlineDb (initialEngine {[ "theme" := stuckItem ]}) !! "theme".
Proof.
  split.
  - apply store_written_only_by_outcomes; intros k; discriminate.
  - apply store_written_only_by_outcomes. reflexivity.
Defined.

(** ** The summary after [retryFailed], and the panel *)

Lemma success_bucket q : success (uploadProgress q) = countStatus Success q.
Proof. reflexivity. Qed.



Lemma UploadStatus_None q isUp up :
  UploadStatus q isUp up = None ↔ q = [].
Proof. unfold UploadStatus. by destruct q. Qed.

Lemma UploadStatus_Some q isUp up panel :
  UploadStatus q isUp up = Some panel →
  q ≠ []
  ∧ retryButton panel = (if (0 <? failed up)%nat then Some (failed up) else None)
  ∧ uploadedCount panel = success up
  ∧ pendingCount panel = pending up
  ∧ failedCount panel = failed up
  ∧ uploadingBadge panel = isUp
  ∧ barWidth panel = (inject_Z (Z.of_nat (success up))
                      / inject_Z (Z.of_nat (length q)) * 100)%Q
  ∧ recentRows panel = List.map statusRow (reverse (sliceLast 5 q)).
Proof.
  unfold UploadStatus. destruct q as [|x q]; [done|].
  intros [= <-]. done.
Qed.




Lemma success_bucket_full q :
  success (uploadProgress q) = length q ↔ ∀ item, item ∈ q → status item = Success.
Proof.
  assert (∀ l, (success (uploadProgress l) ≤ length l)%nat) as Hle.
  { intros l. apply List.filter_length_le. }
  induction q as [|x q IH].
  - split; [|done]. intros _ item H. by apply elem_of_nil in H.
  - destruct (uploadProgress_cons x q) as (-> & _ & _). simpl length.
    pose proof (Hle q) as Hq.
    destruct (is_status Success x) eqn:E.
    + apply is_status_true in E. split.
      * intros H item [->|Hin]%elem_of_cons; [done|]. apply IH; [lia|done].
      * intros H. f_equal. apply IH. intros item Hin. apply H.
        by apply list_elem_of_further.
    + apply is_status_false in E. split; [lia|]. intros H.
      by destruct (E (H x (list_elem_of_here _ _))).
Qed.

Lemma percent_range (a b : Z) :
  0 ≤ a ≤ b ∧ 0 < b → (0 <= inject_Z a / inject_Z b * 100 <= 100)%Q.
Proof.
  intros [Ha Hb]. destruct b as [|p|p]; try lia.
  unfold Qle, Qdiv, Qmult, Qinv, inject_Z. simpl. lia.
Qed.

Lemma percent_full (a b : Z) :
  0 < b → (inject_Z a / inject_Z b * 100 == 100)%Q ↔ a = b.
Proof.
  intros Hb. destruct b as [|p|p]; try lia.
  unfold Qeq, Qdiv, Qmult, Qinv, inject_Z. simpl. lia.
Qed.

(** X13. What [UploadStatus] shows for the queue and the summary of the
    hook: nothing exactly when the queue is empty; otherwise a bar whose
    width lies between 0 and 100 percent and is 100 exactly when every
    item is uploaded, and the rows of the last five items of the queue,
    newest first (all of them when there are fewer), so that an item
    appended to the queue is the first row; the keys of the rows are
    distinct when the ids of the queue are. *)
Theorem UploadStatus_panel :
  ∀ (q : list CaptureItem) (isUploading : bool),
    (UploadStatus q isUploading (uploadProgress q) = None ↔ q = [])
    ∧ (∀ panel,
         UploadStatus q isUploading (uploadProgress q) = Some panel →
         (0 <= barWidth panel <= 100)%Q
         ∧ ((barWidth panel == 100)%Q ↔ ∀ item, item ∈ q → status item = Success)
         ∧ recentRows panel = List.map statusRow (take 5 (reverse q))
         ∧ length (recentRows panel) = Nat.min 5 (length q)
         ∧ (NoDup (List.map id q) → NoDup (List.map row_key (recentRows panel))))
    ∧ (∀ item panel,
         UploadStatus (q ++ [item]) isUploading (uploadProgress (q ++ [item]))
           = Some panel →
         head (recentRows panel) = Some (statusRow item)).
Proof.
  intros q isUp. split; [apply UploadStatus_None|].
  assert (∀ l : list CaptureItem,
            reverse (sliceLast 5 l) = take 5 (reverse l)) as Hrev.
  { intros l. unfold sliceLast. by rewrite take_reverse. }
  split.
  - intros panel Hpanel.
    destruct (UploadStatus_Some _ _ _ _ Hpanel)
      as (Hne & _ & _ & _ & _ & _ & Hw & Hr).
    rewrite Hr, Hrev, Hw. clear Hw Hr Hpanel panel.
    pose proof (List.filter_length_le (is_status Success) q) as Hle.
    change (length (List.filter (is_status Success) q))
      with (success (uploadProgress q)) in Hle.
    pose proof (success_bucket_full q) as Hfull.
    set (s := success (uploadProgress q)) in *. clearbody s.
    assert (0 < length q)%nat as Hpos by (destruct q; [done|simpl; lia]).
    split; [|split; [|split; [|split]]].
    + apply percent_range. lia.
    + rewrite <- Hfull, percent_full by lia. lia.
    + done.
    + rewrite List.length_map, length_take, length_reverse. done.
    + intros Hnd. rewrite List.map_map.
      change (List.map (fun x => row_key (statusRow x)) ?l) with (List.map id l).
      change (List.map id ?l) with (id <$> l) in *.
      rewrite fmap_take, fmap_reverse.
      eapply sublist_NoDup; [|apply sublist_take].
      by rewrite reverse_Permutation.
  - intros item panel Hpanel.
    destruct (UploadStatus_Some _ _ _ _ Hpanel)
      as (_ & _ & _ & _ & _ & _ & _ & Hr).
    rewrite Hr, Hrev, reverse_snoc. done.
Qed.

(** ** Where [uploadCapture] stores a capture *)

Lemma allowed_not_space c : isAllowed c = true → isWhiteSpace c = false.
Proof.
  unfold isAllowed, isWhiteSpace. cbv zeta.
  generalize (nat_of_ascii c). intros n H.
  repeat (apply orb_true_iff in H as [H|H]);
    repeat (apply andb_true_iff in H as [? H]);
    repeat match goal with
           | H : (_ <=? _)%nat = true |- _ => apply Nat.leb_le in H
           | H : (_ =? _)%nat = true |- _ => apply Nat.eqb_eq in H
           end;
    repeat (apply orb_false_iff; split);
    try apply andb_false_iff;
    rewrite ?Nat.leb_gt, ?Nat.eqb_neq; lia.
Qed.

Lemma allChars_String P c s :
  allChars P (String c s) ↔ P c = true ∧ allChars P s.
Proof.
  unfold allChars. simpl. split.
  - by inversion 1.
  - intros [? ?]. by constructor.
Qed.

Lemma replaceDisallowed_allowed name : allChars isAllowed (replaceDisallowed name).
Proof.
  induction name as [|c rest IH]; [constructor|].
  simpl. apply allChars_String. split; [|done].
  by destruct (isAllowed c) eqn:E.
Qed.

Lemma replaceDisallowed_fixed s : allChars isAllowed s → replaceDisallowed s = s.
Proof.
  induction s as [|c rest IH]; [done|].
  intros [Hc Hr]%allChars_String. simpl. by rewrite Hc, IH.
Qed.

Lemma replaceDisallowed_length name :
  String.length (replaceDisallowed name) = String.length name.
Proof. induction name as [|c rest IH]; [done|]. simpl. by rewrite IH. Qed.

Lemma trimStart_fixed s :
  allChars (fun c => negb (isWhiteSpace c)) s → trimStart s = s.
Proof.
  destruct s as [|c rest]; [done|].
  intros [Hc _]%allChars_String. simpl. apply negb_true_iff in Hc. by rewrite Hc.
Qed.

Lemma trim_fixed s :
  allChars (fun c => negb (isWhiteSpace c)) s → trim s = s.
Proof.
  intros H. unfold trim, trimEnd. rewrite (trimStart_fixed s H).
  rewrite trimStart_fixed.
  - rewrite list_ascii_of_string_of_list_ascii, List.rev_involutive.
    apply string_of_list_ascii_of_string.
  - unfold allChars. rewrite list_ascii_of_string_of_list_ascii.
    apply Forall_forall. intros c Hc%list_elem_of_In%List.in_rev.
    unfold allChars in H. rewrite Forall_forall in H. apply H.
    by apply list_elem_of_In.
Qed.

Lemma sanitizeName_replace name : sanitizeName name = replaceDisallowed name.
Proof.
  unfold sanitizeName. apply trim_fixed.
  pose proof (replaceDisallowed_allowed name) as H. unfold allChars in *.
  eapply Forall_impl; [exact H|]. intros c Hc. simpl.
  by rewrite (allowed_not_space c Hc).
Qed.

Lemma slash_not_allowed : isAllowed "/"%char = false.
Proof. reflexivity. Qed.

(** Two paths that agree and whose first segments hold no slash agree
    segment by segment. *)
Lemma first_segment a a' r r' :
  allChars isAllowed a → allChars isAllowed a' →
  a +:+ "/" +:+ r = a' +:+ "/" +:+ r' → a = a' ∧ r = r'.
Proof.
  revert a'. induction a as [|c a IH]; intros [|c' a'] Ha Ha' E; simpl in E.
  - by simplify_eq.
  - simplify_eq. apply allChars_String in Ha' as [Hc _].
    by rewrite slash_not_allowed in Hc.
  - simplify_eq. apply allChars_String in Ha as [Hc _].
    by rewrite slash_not_allowed in Hc.
  - injection E as -> E. apply allChars_String in Ha as [_ Ha].
    apply allChars_String in Ha' as [_ Ha'].
    destruct (IH a' Ha Ha' E) as [-> ->]. done.
Qed.

Lemma label_allowed l : allChars isAllowed (LabelType_str l).
Proof. destruct l; repeat constructor. Qed.

Lemma sanitizeName_label l : sanitizeName (LabelType_str l) = LabelType_str l.
Proof. rewrite sanitizeName_replace. apply replaceDisallowed_fixed, label_allowed. Qed.

(** X14. [sanitizeName] keeps the length of a name and leaves only letters,
    digits, underscores and hyphens: every other character, a slash or a
    dot among them, becomes an underscore, and the [trim] that follows
    finds nothing to strip.  A name of such characters is returned as it
    is, so the function is idempotent and the seven labels pass through
    unchanged; names that differ only in replaced characters are
    identified. *)
Theorem sanitizeName_safe :
  (∀ name : string,
     sanitizeName name = replaceDisallowed name
     ∧ String.length (sanitizeName name) = String.length name
     ∧ allChars isAllowed (sanitizeName name)
     ∧ sanitizeName (sanitizeName name) = sanitizeName name
     ∧ (allChars isAllowed name → sanitizeName name = name))
  ∧ (∀ l : LabelType, sanitizeName (LabelType_str l) = LabelType_str l)
  ∧ sanitizeName "a/../b c" = "a____b_c"
  ∧ sanitizeName "a_b" = sanitizeName "a b".
Proof.
  split; [|split; [exact sanitizeName_label|split; reflexivity]].
  intros name. rewrite !sanitizeName_replace.
  split; [done|]. split; [apply replaceDisallowed_length|].
  split; [apply replaceDisallowed_allowed|].
  split; [apply replaceDisallowed_fixed, replaceDisallowed_allowed|].
  apply replaceDisallowed_fixed.
Qed.


(** *** The assets of a capture *)

Lemma readDigits_paddedSeq n :
  0 ≤ n ≤ 1000 → readDigits 0 (paddedSeq n) = Some n.
Proof.
  intros Hn.
  assert (List.forallb
            (fun k => match readDigits 0 (paddedSeq (Z.of_nat k)) with
                      | Some v => v =? Z.of_nat k
                      | None => false
                      end)
            (List.seq 0 1001) = true) as Hall
    by (vm_compute; reflexivity).
  rewrite List.forallb_forall in Hall.
  specialize (Hall (Z.to_nat n)). rewrite Z2Nat.id in Hall by lia.
  destruct (readDigits 0 (paddedSeq n)) as [v|].
  - f_equal. apply Z.eqb_eq, Hall, List.in_seq. lia.
  - discriminate Hall. apply List.in_seq. lia.
Qed.

Lemma paddedSeq_inj n1 n2 :
  0 ≤ n1 ≤ 1000 → 0 ≤ n2 ≤ 1000 → paddedSeq n1 = paddedSeq n2 → n1 = n2.
Proof.
  intros H1 H2 E. pose proof (readDigits_paddedSeq n1 H1) as R1.
  rewrite E, (readDigits_paddedSeq n2 H2) in R1. by simplify_eq.
Qed.

Lemma BySession_folder m :
  BySession.buildFolderPath m =
    "face-data/" +:+ sanitizeName (session_id m) +:+ "/"
    +:+ labelPath (label m) (phase m).
Proof.
  unfold BySession.buildFolderPath. cbv zeta. rewrite sanitizeName_label.
  by destruct (label m).
Qed.

Lemma labelPath_inj l1 p1 l2 p2 :
  labelPath l1 p1 = labelPath l2 p2 →
  l1 = l2 ∧ (l1 ≠ no_face → l1 ≠ with_cellphone → p1 = p2).
Proof. destruct l1, l2, p1, p2; intros E; try discriminate E; done. Qed.

(** X15. The module that files captures by session, label and phase gives
    the two phases of ['no_face'] and of ['with_cellphone'] the same
    assets: for these labels the folder has no phase segment and the
    public id is the padded sequence number alone, so, with
    [overwrite: true], capture [n] of phase B replaces capture [n] of
    phase A of the same session.  For the five gaze labels the assets tell
    the label, the phase, the sanitized session id and, for sequence
    numbers from 0 to 1000, the sequence number apart. *)
Theorem BySession_assets :
  (∀ m1 m2 : CaptureMetadata,
     label m1 = label m2 →
     label m1 = no_face ∨ label m1 = with_cellphone →
     session_id m1 = session_id m2 → seq m1 = seq m2 →
     BySession.uploadCapture_assets m1 = BySession.uploadCapture_assets m2)
  ∧ (∀ m1 m2 : CaptureMetadata,
       BySession.uploadCapture_assets m1 = BySession.uploadCapture_assets m2 →
       label m1 = label m2
       ∧ sanitizeName (session_id m1) = sanitizeName (session_id m2)
       ∧ (label m1 ≠ no_face → label m1 ≠ with_cellphone → phase m1 = phase m2)
       ∧ (0 ≤ seq m1 ≤ 1000 → 0 ≤ seq m2 ≤ 1000 → seq m1 = seq m2)).
Proof.
  split.
  - intros m1 m2 Hl Hsp Hs Hq. unfold BySession.uploadCapture_assets.
    rewrite !BySession_folder, <- Hl, <- Hs, <- Hq.
    by destruct Hsp as [-> | ->].
  - intros m1 m2 E. unfold BySession.uploadCapture_assets in E.
    rewrite !BySession_folder in E. cbv zeta in E.
    injection E as Ef Ei _.
    apply String.app_inj in Ef.
    apply first_segment in Ef as [Hs Hp];
      [|rewrite sanitizeName_replace; apply replaceDisallowed_allowed
       |rewrite sanitizeName_replace; apply replaceDisallowed_allowed].
    apply labelPath_inj in Hp as [Hl Hph].
    split; [done|]. split; [done|]. split; [done|].
    intros H1 H2. apply String.app_inj in Ei. by apply paddedSeq_inj.
Qed.

Lemma BySession_assets_witness :
  BySession.uploadCapture_assets (noFaceMeta PhaseA) =
    BySession.uploadCapture_assets (noFaceMeta PhaseB).
Proof.
  apply BySession_assets; [reflexivity|by left|reflexivity|reflexivity].
Defined.

(** X16. The module that files all captures of a label in one folder names
    the assets after the first eight characters of the session id, the
    phase and the padded sequence number: two sessions whose ids agree on
    their first eight characters are given the same assets for the same
    label, phase and sequence number; within such sessions the assets tell
    the label, the phase and, from 0 to 1000, the sequence number apart. *)
Theorem Flat_assets :
  (∀ m1 m2 : CaptureMetadata,
     String.substring 0 8 (session_id m1) = String.substring 0 8 (session_id m2) →
     label m1 = label m2 → phase m1 = phase m2 → seq m1 = seq m2 →
     Flat.uploadCapture_assets m1 = Flat.uploadCapture_assets m2)
  ∧ (∀ m1 m2 : CaptureMetadata,
       String.substring 0 8 (session_id m1) = String.substring 0 8 (session_id m2) →
       Flat.uploadCapture_assets m1 = Flat.uploadCapture_assets m2 →
       label m1 = label m2 ∧ phase m1 = phase m2
       ∧ (0 ≤ seq m1 ≤ 1000 → 0 ≤ seq m2 ≤ 1000 → seq m1 = seq m2)).
Proof.
  split.
  - intros m1 m2 Hs Hl Hp Hq. unfold Flat.uploadCapture_assets, Flat.buildFolderPath.
    by rewrite Hs, Hl, Hp, Hq.
  - intros m1 m2 Hs E. unfold Flat.uploadCapture_assets, Flat.buildFolderPath in E.
    cbv zeta in E. rewrite Hs, !sanitizeName_label in E.
    injection E as Ef Ei _.
    apply String.app_inj in Ef. apply String.app_inj in Ei.
    apply String.app_inj in Ei.
    assert (label m1 = label m2) as Hl
      by (destruct (label m1), (label m2); try discriminate Ef; done).
    split; [done|].
    fold (paddedSeq (seq m1)) in Ei. fold (paddedSeq (seq m2)) in Ei.
    destruct (phase m1), (phase m2); try discriminate Ei;
      (split; [done|]); intros H1 H2;
      apply (String.app_inj "_eyes_") in Ei || apply (String.app_inj "_face_") in Ei;
      by apply paddedSeq_inj.
Qed.

Lemma Flat_assets_witness :
  Flat.uploadCapture_assets (noFaceMeta PhaseA) =
    Flat.uploadCapture_assets
      {| label := no_face; phase := PhaseA; seq := 7;
         timestamp_iso := "2025-01-02T00:00:00.000Z"; ua := "Mozilla/5.0";
         session_id := "3f2b8c1e-0000-4000-8000-000000000000";
         camera_facing := facing_user; device_platform := "macos" |}.
Proof. apply Flat_assets; reflexivity. Defined.

(** ** The rate limiter of the upload route *)

Section Limiter.
Import UploadRoute.

Lemma isRateLimited_quiet now rnd cn c m :
  (1 # 10 <= rnd)%Q →
  isRateLimited now rnd cn c m =
    let entry :=
      match m !! c with
      | Some entry =>
          if resetAt entry <? now
          then {| count := 0; resetAt := now + RATE_LIMIT_WINDOW_MS |}
          else entry
      | None => {| count := 0; resetAt := now + RATE_LIMIT_WINDOW_MS |}
      end in
    ({| limited := RATE_LIMIT_MAX_REQUESTS <? count entry + 1;
        remaining := Z.max 0 (RATE_LIMIT_MAX_REQUESTS - (count entry + 1));
        check_resetAt := resetAt entry |},
     <[c := {| count := count entry + 1; resetAt := resetAt entry |}]> m).
Proof.
  intros H. unfold isRateLimited.
  destruct (Qlt_le_dec rnd (1 # 10)) as [Hlt|_]; [|done].
  exfalso. apply (Qlt_irrefl rnd). by eapply Qlt_le_trans.
Qed.

Lemma serve_cons h rest m :
  serve (h :: rest) m =
    let '(check, m1) :=
      isRateLimited (hit_now h) (hit_rnd h) (hit_cleanupNow h) (hit_client h) m in
    let '(checks, m') := serve rest m1 in
    ((hit_client h, check) :: checks, m').
Proof. reflexivity. Qed.

(** Inside an open window the answers to a client count on from its entry,
    whatever the other clients send. *)
Lemma serve_open_window hits : ∀ m c n R,
  m !! c = Some {| count := n; resetAt := R |} →
  Forall (fun h => hit_now h ≤ R ∧ (1 # 10 <= hit_rnd h)%Q) hits →
  answersTo c (serve hits m).1 =
    List.map (fun k : nat =>
                {| limited := RATE_LIMIT_MAX_REQUESTS <? n + Z.of_nat k;
                   remaining := Z.max 0 (RATE_LIMIT_MAX_REQUESTS - (n + Z.of_nat k));
                   check_resetAt := R |})
      (List.seq 1 (length (List.filter (fun h => String.eqb (hit_client h) c) hits))).
Proof.
  induction hits as [|h hits IH]; intros m c n R Hm Hall; [done|].
  apply Forall_cons in Hall as [[Hnow Hrnd] Hall].
  rewrite serve_cons, (isRateLimited_quiet _ _ _ _ _ Hrnd). cbv zeta.
  unfold answersTo. simpl List.filter.
  destruct (String.eqb_spec (hit_client h) c) as [->|Hne].
  - rewrite Hm. cbn [resetAt count].
    assert ((R <? hit_now h) = false) as -> by (apply Z.ltb_ge; lia).
    cbn [resetAt count].
    pose proof (IH (<[c:={| count := n + 1; resetAt := R |}]> m) c (n + 1) R
                  (lookup_insert_eq _ _ _) Hall) as IH'.
    destruct (serve hits _) as [checks m'].
    unfold answersTo in IH'. cbn [fst] in IH'.
    cbn [fst List.filter]. rewrite String.eqb_refl.
    cbn [List.map snd length]. rewrite IH'.
    cbn [List.seq List.map]. rewrite <- (List.seq_shift _ 1), List.map_map.
    f_equal; try (f_equal; f_equal; lia).
    apply List.map_ext. intros k. f_equal; f_equal; lia.
  - set (m1 := <[hit_client h := _]> m).
    pose proof (IH m1 c n R) as IH'.
    unfold m1 in IH' at 1. rewrite lookup_insert_ne in IH' by done.
    specialize (IH' Hm Hall).
    destruct (serve hits m1) as [checks m'].
    unfold answersTo in IH'. cbn [fst] in IH'.
    cbn [fst List.filter]. apply String.eqb_neq in Hne. rewrite Hne. exact IH'.
Qed.

(** X17. The limiter gives each client twenty requests per window: when a
    client with no open window sends a request at [t0], and further
    requests arrive up to [t0 + 10000] from it and from any other clients
    while no clean-up runs, the [k]-th request of the client is answered
    [limited] exactly when [k > 20], with [remaining = max(0, 20 - k)] and
    [resetAt = t0 + 10000], however the other clients' requests are
    interleaved. *)
Theorem window_admits_twenty :
  ∀ (h : Hit) (hits : list Hit) (rateLimitMap : gmap string RateLimitEntry),
    noWindow (hit_now h) (hit_client h) rateLimitMap →
    (1 # 10 <= hit_rnd h)%Q →
    Forall (inWindow (hit_now h)) hits →
    answersTo (hit_client h) (serve (h :: hits) rateLimitMap).1 =
      List.map (fun k : nat =>
                  {| limited := 20 <? Z.of_nat k;
                     remaining := Z.max 0 (20 - Z.of_nat k);
                     check_resetAt := hit_now h + 10000 |})
        (List.seq 1
           (S (length (List.filter
                         (fun h' => String.eqb (hit_client h') (hit_client h))
                         hits)))).
Proof.
  intros h hits m Hno Hrnd Hall.
  rewrite serve_cons, (isRateLimited_quiet _ _ _ _ _ Hrnd). cbv zeta.
  set (fresh := {| count := 0; resetAt := hit_now h + RATE_LIMIT_WINDOW_MS |}).
  assert (match m !! hit_client h with
          | Some entry => if resetAt entry <? hit_now h then fresh else entry
          | None => fresh
          end = fresh) as ->.
  { destruct (m !! hit_client h) as [entry|] eqn:E; [|done].
    apply Hno in E. apply Z.ltb_lt in E. by rewrite E. }
  cbn [count resetAt fresh].
  set (m1 := <[hit_client h := _]> m).
  pose proof (serve_open_window hits m1 (hit_client h) 1
                (hit_now h + RATE_LIMIT_WINDOW_MS)) as Hw.
  unfold m1 in Hw at 1. rewrite lookup_insert_eq in Hw.
  specialize (Hw eq_refl).
  assert (Forall (fun h' => hit_now h' ≤ hit_now h + RATE_LIMIT_WINDOW_MS
                            ∧ (1 # 10 <= hit_rnd h')%Q) hits) as Hall'.
  { eapply Forall_impl; [exact Hall|]. intros h' [[_ Hle] Hr]. done. }
  specialize (Hw Hall').
  destruct (serve hits m1) as [checks m'].
  unfold answersTo in *. cbn [fst] in Hw. cbn [fst List.filter].
  rewrite String.eqb_refl. cbn [List.map snd]. rewrite Hw.
  cbn [List.seq List.map]. rewrite <- (List.seq_shift _ 1), List.map_map.
  f_equal; try (f_equal; f_equal; lia).
  apply List.map_ext. intros k. unfold RATE_LIMIT_MAX_REQUESTS, RATE_LIMIT_WINDOW_MS.
  f_equal; f_equal; lia.
Qed.

Lemma window_admits_twenty_witness :
  answersTo (hit_client firstHit) (serve (firstHit :: laterHits) ∅).1 =
    List.map (fun k : nat =>
                {| limited := 20 <? Z.of_nat k;
                   remaining := Z.max 0 (20 - Z.of_nat k);
                   check_resetAt := hit_now firstHit + 10000 |})
      (List.seq 1
         (S (length (List.filter
                       (fun h' => String.eqb (hit_client h') (hit_client firstHit))
                       laterHits)))).
Proof.
  apply window_admits_twenty.
  - intros entry H. by rewrite lookup_empty in H.
  - vm_compute. discriminate.
  - apply Forall_forall. intros h' Hin. unfold laterHits in Hin.
    apply elem_of_map in Hin as (k & -> & Hk).
    apply list_elem_of_In, List.in_seq in Hk.
    split; [|vm_compute; discriminate].
    unfold RATE_LIMIT_WINDOW_MS. cbn. lia.
Defined.

Lemma cleanup_lookup now (m : gmap string RateLimitEntry) c :
  cleanupRateLimitMap now m !! c = None
  ∨ cleanupRateLimitMap now m !! c = m !! c.
Proof.
  unfold cleanupRateLimitMap. cbv zeta.
  destruct (10000 <? _); [by left|].
  destruct (filter _ m !! c) as [entry|] eqn:E; [right|by left].
  apply map_lookup_filter_Some in E as [E _]. by rewrite E.
Qed.

Lemma totalWaitMs_at_least hookRnd hitCount :
  1 ≤ hitCount → (0 <= hookRnd)%Q → (30000 <= totalWaitMs hookRnd hitCount)%Q.
Proof.
  intros Hh Hr. unfold totalWaitMs, backoffMs, baseBackoffMs, rateLimitJitter.
  assert (1 <= Qpower 2 (hitCount - 1))%Q as Hp by (apply pow2_ge_1; lia).
  assert (30000 <= Qmin (30000 * Qpower 2 (hitCount - 1)) 180000)%Q as Hm.
  { apply Q.min_glb; lra. }
  lra.
Qed.

(** X18. The pause of the hook outlasts the window of the limiter.  An
    entry never lies more than 10000 ms ahead of the request that leaves
    it, and the hook waits at least 30000 ms after a 429; so when the same
    client sends its next request after that pause, whatever the limiter
    held and whether or not a clean-up runs, the request opens a new window
    and is admitted with 19 requests remaining. *)
Theorem pause_outlasts_window :
  ∀ (now later cleanupNow cleanupLater : Z) (rnd rndLater hookRnd : Q)
    (hitCount : Z) (clientId : string)
    (rateLimitMap : gmap string RateLimitEntry),
    (∀ entry, rateLimitMap !! clientId = Some entry →
       resetAt entry ≤ now + RATE_LIMIT_WINDOW_MS) →
    1 ≤ hitCount → (0 <= hookRnd)%Q →
    (inject_Z now + totalWaitMs hookRnd hitCount <= inject_Z later)%Q →
    (∀ entry,
       (isRateLimited now rnd cleanupNow clientId rateLimitMap).2 !! clientId
         = Some entry →
       resetAt entry ≤ now + RATE_LIMIT_WINDOW_MS)
    ∧ (isRateLimited later rndLater cleanupLater clientId
         (isRateLimited now rnd cleanupNow clientId rateLimitMap).2).1 =
        {| limited := false; remaining := 19;
           check_resetAt := later + RATE_LIMIT_WINDOW_MS |}.
Proof.
  intros now later cn cl rnd rl hookRnd hitCount c m Hbound Hh Hr Hlater.
  assert (now + 30000 ≤ later) as Hgap.
  { pose proof (totalWaitMs_at_least hookRnd hitCount Hh Hr) as Hw.
    assert (inject_Z (now + 30000) <= inject_Z later)%Q as HQ.
    { rewrite inject_Z_plus. change (inject_Z 30000) with 30000%Q. lra. }
    by rewrite <- Zle_Qle in HQ. }
  assert (∀ entry,
            (isRateLimited now rnd cn c m).2 !! c = Some entry →
            resetAt entry ≤ now + RATE_LIMIT_WINDOW_MS) as Hb1.
  { intros entry. unfold isRateLimited. cbv zeta. cbn [snd].
    rewrite lookup_insert_eq. intros [= <-]. cbn [resetAt].
    set (m0 := if Qlt_le_dec rnd (1 # 10) then cleanupRateLimitMap cn m else m).
    assert (m0 !! c = None ∨ m0 !! c = m !! c) as [E|E].
    { unfold m0. destruct (Qlt_le_dec rnd (1 # 10)); [apply cleanup_lookup|by right]. }
    - by rewrite E.
    - rewrite E. destruct (m !! c) as [e0|] eqn:E0; [|done].
      destruct (resetAt e0 <? now); [done|]. by apply Hbound. }
  split; [exact Hb1|].
  set (m1 := (isRateLimited now rnd cn c m).2) in *. clearbody m1.
  unfold isRateLimited. cbv zeta. cbn [fst].
  set (m2 := if Qlt_le_dec rl (1 # 10) then cleanupRateLimitMap cl m1 else m1).
  assert (m2 !! c = None ∨ m2 !! c = m1 !! c) as Hm2.
  { unfold m2. destruct (Qlt_le_dec rl (1 # 10)); [apply cleanup_lookup|by right]. }
  assert (match m2 !! c with
          | Some entry =>
              if resetAt entry <? later
              then {| count := 0; resetAt := later + RATE_LIMIT_WINDOW_MS |}
              else entry
          | None => {| count := 0; resetAt := later + RATE_LIMIT_WINDOW_MS |}
          end = {| count := 0; resetAt := later + RATE_LIMIT_WINDOW_MS |}) as ->.
  { destruct (m2 !! c) as [e2|] eqn:E2; [|done].
    assert (m1 !! c = Some e2) as E1 by (destruct Hm2 as [?|<-]; congruence).
    apply Hb1 in E1. unfold RATE_LIMIT_WINDOW_MS in E1.
    assert ((resetAt e2 <? later) = true) as -> by (apply Z.ltb_lt; lia). done. }
  reflexivity.
Qed.

Lemma pause_outlasts_window_witness :
  (isRateLimited 32000 (1 # 20) 32000 "203.0.113.7"
     (isRateLimited 1200 (1 # 2) 1200 "203.0.113.7"
        {[ "203.0.113.7" := {| count := 20; resetAt := 11000 |} ]}).2).1 =
    {| limited := false; remaining := 19;
       check_resetAt := 32000 + RATE_LIMIT_WINDOW_MS |}.
Proof.
  apply (pause_outlasts_window 1200 32000 1200 32000 (1 # 2) (1 # 20) (1 # 10) 1).
  - intros entry [_ <-]%lookup_singleton_Some. vm_compute. discriminate.
  - lia.
  - vm_compute. discriminate.
  - vm_compute. discriminate.
Defined.


End Limiter.

(** ** Authentication of an upload *)

Lemma fold_lor_zero {A} (f : A → Z) (l : list A) (r0 : Z) :
  fold_left (fun result i => Z.lor result (f i)) l r0 = 0
  ↔ r0 = 0 ∧ ∀ i, i ∈ l → f i = 0.
Proof.
  revert r0. induction l as [|x l IH]; intros r0; simpl.
  - split; [|by intros [? _]]. intros ->. split; [done|].
    intros i Hi. by apply elem_of_nil in Hi.
  - rewrite IH, Z.lor_eq_0_iff. split.
    + intros [[-> Hx] Hl]. split; [done|].
      intros i [->|Hi]%elem_of_cons; [done|by apply Hl].
    + intros [-> H]. split; [split; [done|]|].
      * apply H, list_elem_of_here.
      * intros i Hi. by apply H, list_elem_of_further.
Qed.

Lemma codes_agree p : ∀ k,
  String.length p = String.length k →
  (∀ i, (i < String.length k)%nat →
     Z.lxor (toInt32 (charCodeAt p i)) (toInt32 (charCodeAt k i)) = 0)
  ↔ p = k.
Proof.
  induction p as [|a p IH]; intros [|b k] Hlen; simpl in Hlen; try discriminate.
  - split; [done|]. intros _ i Hi. simpl in Hi. lia.
  - injection Hlen as Hlen. split.
    + intros H. pose proof (H 0%nat ltac:(simpl; lia)) as H0.
      unfold charCodeAt in H0. simpl in H0. apply Z.lxor_eq in H0.
      apply Nat2Z.inj in H0.
      assert (a = b) as ->.
      { rewrite <- (ascii_nat_embedding a), <- (ascii_nat_embedding b).
        by rewrite H0. }
      f_equal. apply IH; [done|]. intros i Hi.
      apply (H (S i)). simpl. lia.
    + intros [= -> ->]. intros i _. apply Z.lxor_nilpotent.
Qed.

Lemma compareLoop_zero p k :
  String.length p = String.length k → compareLoop p k = 0 ↔ p = k.
Proof.
  intros Hlen. unfold compareLoop.
  rewrite (fold_lor_zero
             (fun i => Z.lxor (toInt32 (charCodeAt p i)) (toInt32 (charCodeAt k i)))).
  rewrite <- (codes_agree p k Hlen). split.
  - intros [_ H] i Hi. apply H, list_elem_of_In, List.in_seq. lia.
  - intros H. split; [done|]. intros i Hi%list_elem_of_In%List.in_seq.
    apply H. lia.
Qed.

(** X20. [validateAuth] accepts a request exactly when its [x-api-key]
    header is a non-empty string that is a valid upload token or is the
    configured API key: the loop that ORs the XORs of the character codes
    ends with 0 exactly when the two strings of equal length are equal.
    Without the header, or with an empty one, the request is refused; an
    unset or empty [API_UPLOAD_KEY] matches no header. *)
Theorem validateAuth_decides :
  ∀ (verifyUploadToken : string → bool) (API_KEY header : option string),
    validateAuth verifyUploadToken API_KEY header = true
    ↔ ∃ providedKey,
        header = Some providedKey ∧ providedKey ≠ ""
        ∧ (verifyUploadToken providedKey = true ∨ API_KEY = Some providedKey).
Proof.
  intros verify key header. unfold validateAuth.
  destruct header as [p|]; [|split; [done|by intros (? & ? & _)]].
  destruct (String.eqb_spec p "") as [->|Hne].
  { split; [done|]. by intros (? & [= <-] & ? & _). }
  destruct (verify p) eqn:Ev.
  { split; [|done]. intros _. exists p. split; [done|]. split; [done|]. by left. }
  destruct key as [k|].
  2:{ split; [done|]. intros (? & [= <-] & _ & [?|?]); congruence. }
  destruct (String.eqb_spec k "") as [->|Hk].
  { split; [done|]. intros (? & [= <-] & _ & [?|[= ?]]); congruence. }
  destruct (Nat.eqb_spec (String.length p) (String.length k)) as [Hlen|Hlen];
    cbn [negb].
  - rewrite Z.eqb_eq, (compareLoop_zero p k Hlen). split.
    + intros ->. exists k. split; [done|]. split; [done|]. by right.
    + intros (? & [= <-] & _ & [?|[= ?]]); congruence.
  - split; [done|]. intros (? & [= <-] & _ & [?|[= ?]]); congruence.
Qed.

(** ** Upload tokens *)

Lemma lastIndexOf_none c s :
  allChars (fun a => negb (Ascii.eqb a c)) s → lastIndexOf c s = None.
Proof.
  induction s as [|a s IH]; [done|].
  intros [Ha Hs]%allChars_String. simpl. rewrite (IH Hs).
  apply negb_true_iff in Ha. by rewrite Ha.
Qed.

Lemma lastIndexOf_separator c payload signature :
  allChars (fun a => negb (Ascii.eqb a c)) signature →
  lastIndexOf c (payload +:+ String c signature) = Some (String.length payload).
Proof.
  intros Hs. induction payload as [|a p IH]; simpl.
  - by rewrite (lastIndexOf_none c signature Hs), Ascii.eqb_refl.
  - by rewrite IH.
Qed.

Lemma substring_payload payload rest :
  String.substring 0 (String.length payload) (payload +:+ rest) = payload.
Proof. induction payload as [|a p IH]; simpl; [by destruct rest|by rewrite IH]. Qed.

Lemma substring_all s : String.substring 0 (String.length s) s = s.
Proof. induction s as [|a s IH]; simpl; [done|by rewrite IH]. Qed.

Lemma substring_signature payload c signature :
  String.substring (String.length payload + 1)
    (String.length (payload +:+ String c signature) - (String.length payload + 1))
    (payload +:+ String c signature) = signature.
Proof.
  induction payload as [|a p IH]; simpl.
  - rewrite Nat.sub_0_r. apply substring_all.
  - exact IH.
Qed.

Lemma beforeFirst_separator c a rest :
  allChars (fun x => negb (Ascii.eqb x c)) a →
  beforeFirst c (a +:+ String c rest) = a.
Proof.
  induction a as [|x a IH]; simpl; [by rewrite Ascii.eqb_refl|].
  intros [Hx Ha]%allChars_String. apply negb_true_iff in Hx.
  by rewrite Hx, IH.
Qed.

Lemma allChars_impl (P Q : ascii → bool) s :
  (∀ c, P c = true → Q c = true) → allChars P s → allChars Q s.
Proof.
  intros H Hs. unfold allChars in *. eapply Forall_impl; [exact Hs|]. exact H.
Qed.

Lemma digitValue_char d :
  (d < 10)%N → digitValue (pretty_N_char d) = Some (Z.of_N d).
Proof.
  intros H.
  assert (d = 0 ∨ d = 1 ∨ d = 2 ∨ d = 3 ∨ d = 4 ∨ d = 5 ∨ d = 6 ∨ d = 7
          ∨ d = 8 ∨ d = 9)%N as Hd by lia.
  repeat (destruct Hd as [->|Hd]; [reflexivity|]). by subst d.
Qed.

Lemma pretty_N_go_digits x : ∀ s,
  allChars isDigit s → allChars isDigit (pretty_N_go x s).
Proof.
  induction (N.lt_wf_0 x) as [x _ IH]. intros s Hs.
  assert (x = 0 ∨ 0 < x)%N as [->|Hx] by lia; [by rewrite pretty_N_go_0|].
  rewrite pretty_N_go_step by done. apply IH; [by apply N.div_lt|].
  apply allChars_String. split; [|done].
  unfold isDigit. rewrite digitValue_char by (apply N.mod_lt; lia).
  apply bool_decide_eq_true. by eexists.
Qed.

(** Reading back the digits that [pretty] writes. *)
Lemma readDigitsPrefix_pretty x :
  (0 < x)%N →
  ∃ k, ∀ acc s,
    readDigitsPrefix acc (pretty_N_go x s) =
      readDigitsPrefix (Some (default 0 acc * k + Z.of_N x)) s.
Proof.
  induction (N.lt_wf_0 x) as [x _ IH]. intros Hx.
  assert (digitValue (pretty_N_char (x `mod` 10)) = Some (Z.of_N (x `mod` 10)))
    as Hd by (apply digitValue_char, N.mod_lt; lia).
  destruct (N.eq_0_gt_0_cases (x `div` 10)) as [H0|Hpos].
  - exists 10. intros acc s. rewrite pretty_N_go_step, H0, pretty_N_go_0 by done.
    simpl. rewrite Hd. do 2 f_equal.
    apply N.div_small_iff in H0; [|done].
    rewrite N.mod_small by done. lia.
  - destruct (IH (x `div` 10)%N ltac:(by apply N.div_lt) Hpos) as [k Hk].
    exists (10 * k). intros acc s. rewrite pretty_N_go_step, Hk by done.
    simpl. rewrite Hd. do 2 f_equal. cbn [default].
    pose proof (N.div_mod x 10 ltac:(done)) as Hdm. lia.
Qed.

Lemma pretty_N_go_head x s :
  (0 < x)%N → ∃ c rest, pretty_N_go x s = String c rest ∧ isDigit c = true.
Proof.
  revert s. induction (N.lt_wf_0 x) as [x _ IH]. intros s Hx.
  rewrite pretty_N_go_step by done.
  destruct (N.eq_0_gt_0_cases (x `div` 10)) as [H0|Hpos].
  - rewrite H0, pretty_N_go_0. eexists _, _. split; [done|].
    unfold isDigit. rewrite digitValue_char by (apply N.mod_lt; lia).
    apply bool_decide_eq_true. by eexists.
  - apply IH; [by apply N.div_lt|done].
Qed.

Lemma parseInt10_pretty (n : Z) : 0 < n → parseInt10 (pretty n) = Some n.
Proof.
  intros Hn. destruct n as [|p|p]; try lia.
  change (pretty (Z.pos p)) with (pretty_N_go (N.pos p) "").
  destruct (pretty_N_go_head (N.pos p) "" ltac:(lia)) as (c & rest & E & Hc).
  destruct (readDigitsPrefix_pretty (N.pos p) ltac:(lia)) as [k Hk].
  specialize (Hk None ""). rewrite E in Hk.
  unfold parseInt10. rewrite E.
  assert (trimStart (String c rest) = String c rest) as ->.
  { simpl. unfold isDigit in Hc. apply bool_decide_eq_true in Hc as [d Hd].
    unfold digitValue in Hd. unfold isWhiteSpace.
    destruct ((48 <=? nat_of_ascii c)%nat && (nat_of_ascii c <=? 57)%nat) eqn:Er;
      [|discriminate].
    apply andb_true_iff in Er as [E1 E2]. apply Nat.leb_le in E1, E2.
    assert ((9 <=? nat_of_ascii c)%nat && (nat_of_ascii c <=? 13)%nat
            || (nat_of_ascii c =? 32)%nat || (nat_of_ascii c =? 160)%nat = false)
      as ->; [|done].
    repeat (apply orb_false_iff; split); try apply andb_false_iff;
      rewrite ?Nat.leb_gt, ?Nat.eqb_neq; lia. }
  assert (c ≠ "-"%char ∧ c ≠ "+"%char) as [Hm Hp].
  { unfold isDigit in Hc. apply bool_decide_eq_true in Hc as [d Hd].
    split; intros ->; discriminate Hd. }
  assert (readDigitsPrefix None (String c rest) = Some (Z.pos p)) as Hr.
  { rewrite Hk. simpl. done. }
  destruct c as [[] [] [] [] [] [] [] []]; try done.
Qed.

Lemma hex_not_dot c : isHexDigit c = true → negb (Ascii.eqb c ".") = true.
Proof.
  intros H. destruct (Ascii.eqb_spec c "."%char) as [->|]; [|done].
  vm_compute in H. discriminate.
Qed.

Lemma digit_not_colon c : isDigit c = true → negb (Ascii.eqb c ":") = true.
Proof.
  intros H. destruct (Ascii.eqb_spec c ":"%char) as [->|]; [|done].
  vm_compute in H. discriminate.
Qed.

Lemma timingSafeEqual_same a : timingSafeEqual a a = Some true.
Proof.
  unfold timingSafeEqual. rewrite Nat.eqb_refl. by rewrite bool_decide_eq_true_2.
Qed.

Section TokenFacts.
Variable hmacSha256Hex : string → string → string.
Hypothesis digest_hex :
  ∀ key payload, allChars isHexDigit (hmacSha256Hex key payload).

(** X21. An upload token is valid until it expires and no longer: with
    [API_UPLOAD_KEY] set, [generateUploadToken] at the time [now] returns
    the token [{expiresAt}:{nonce}.{signature}] with
    [expiresAt = now + 1800000], whatever the nonce, and
    [verifyUploadToken] accepts that token at a time [later] exactly when
    [later <= expiresAt]; until then [validateAuth] accepts a request that
    carries it.  Without the key no token is issued and none is accepted;
    the empty token and a token without a dot are refused. *)
Theorem token_valid_until_expiry :
  (∀ (key nonce : string) (now later : Z),
     key ≠ "" → 0 ≤ now →
     ∃ token,
       generateUploadToken hmacSha256Hex (Some key) now nonce
         = Some (token, now + 1800000)
       ∧ token = (pretty (now + 1800000) +:+ ":" +:+ nonce) +:+ "."
                 +:+ hmacSha256Hex key (pretty (now + 1800000) +:+ ":" +:+ nonce)
       ∧ verifyUploadToken hmacSha256Hex (Some key) later token
           = bool_decide (later ≤ now + 1800000)
       ∧ (later ≤ now + 1800000 →
          ∀ API_KEY,
            validateAuth (verifyUploadToken hmacSha256Hex (Some key) later)
              API_KEY (Some token) = true))
  ∧ (∀ (API_KEY : option string) (now : Z) (nonce token : string),
       (API_KEY = None ∨ API_KEY = Some "") →
       generateUploadToken hmacSha256Hex API_KEY now nonce = None
       ∧ verifyUploadToken hmacSha256Hex API_KEY now token = false)
  ∧ (∀ (API_KEY : option string) (now : Z) (token : string),
       token = "" ∨ allChars (fun c => negb (Ascii.eqb c ".")) token →
       verifyUploadToken hmacSha256Hex API_KEY now token = false).
Proof.
  split; [|split].
  - intros key nonce now later Hkey Hnow.
    set (E := now + 1800000).
    set (payload := pretty E +:+ ":" +:+ nonce).
    set (sig := hmacSha256Hex key payload).
    exists (payload +:+ "." +:+ sig).
    assert (String.eqb key "" = false) as Hk by by apply String.eqb_neq.
    assert (verifyUploadToken hmacSha256Hex (Some key) later
              (payload +:+ "." +:+ sig) = bool_decide (later ≤ E)) as Hv.
    { unfold verifyUploadToken. rewrite Hk. cbn [orb].
      assert (String.eqb (payload +:+ "." +:+ sig) "" = false) as ->.
      { apply String.eqb_neq. by destruct payload. }
      change (payload +:+ "." +:+ sig) with (payload +:+ String "." sig).
      rewrite lastIndexOf_separator
        by (eapply allChars_impl; [apply hex_not_dot|apply digest_hex]).
      cbv zeta. rewrite substring_payload, substring_signature.
      fold sig. rewrite Nat.eqb_refl. cbn [negb].
      rewrite timingSafeEqual_same.
      unfold payload. change (":" +:+ nonce) with (String ":" nonce).
      assert (0 < E) as HE by (unfold E; lia).
      rewrite beforeFirst_separator.
      2:{ eapply allChars_impl; [apply digit_not_colon|].
          destruct E as [|p|p]; try lia.
          change (pretty (Z.pos p)) with (pretty_N_go (N.pos p) "").
          apply pretty_N_go_digits. constructor. }
      rewrite (parseInt10_pretty E HE).
      destruct (decide (later ≤ E)) as [Hle|Hgt].
      - rewrite bool_decide_eq_true_2 by done.
        apply negb_true_iff, Z.ltb_ge. done.
      - rewrite bool_decide_eq_false_2 by done.
        apply negb_false_iff, Z.ltb_lt. lia. }
    split; [|split; [done|split; [exact Hv|]]].
    + unfold generateUploadToken. rewrite Hk. reflexivity.
    + intros Hle API_KEY. unfold validateAuth.
      assert (String.eqb (payload +:+ "." +:+ sig) "" = false) as ->.
      { apply String.eqb_neq. by destruct payload. }
      rewrite Hv. by rewrite bool_decide_eq_true_2.
  - intros API_KEY now nonce token [-> | ->]; done.
  - intros API_KEY now token Htok. unfold verifyUploadToken.
    destruct API_KEY as [key|]; [|done].
    destruct (String.eqb key ""); [done|]. cbn [orb].
    destruct Htok as [->|Hnd]; [done|].
    destruct (String.eqb token ""); [done|].
    by rewrite lastIndexOf_none.
Qed.
End TokenFacts.

Lemma sampleDigest_hex key payload : allChars isHexDigit (sampleDigest key payload).
Proof.
  unfold sampleDigest, allChars. rewrite list_ascii_of_string_of_list_ascii.
  apply Forall_forall. intros c Hc%elem_of_replicate. destruct Hc as [-> _].
  by destruct (Nat.even (String.length payload)).
Qed.

Lemma token_valid_until_expiry_witness :
  ∃ token,
    generateUploadToken sampleDigest (Some "s3cret") 1000 "00112233445566778899aabbccddeeff"
      = Some (token, 1000 + 1800000)
    ∧ token = (pretty (1000 + 1800000) +:+ ":" +:+ "00112233445566778899aabbccddeeff")
              +:+ "." +:+ sampleDigest "s3cret"
                    (pretty (1000 + 1800000) +:+ ":" +:+ "00112233445566778899aabbccddeeff")
    ∧ verifyUploadToken sampleDigest (Some "s3cret") 1801000 token
        = bool_decide (1801000 ≤ 1000 + 1800000)
    ∧ (1801000 ≤ 1000 + 1800000 →
       ∀ API_KEY,
         validateAuth (verifyUploadToken sampleDigest (Some "s3cret") 1801000)
           API_KEY (Some token) = true).
Proof.
  apply (token_valid_until_expiry sampleDigest sampleDigest_hex); [done|lia].
Defined.

(** ** The capture session *)

Lemma rapidCaptures_seqZ c :
  rapidCaptures c = seqZ (c + 1) (IMAGES_PER_PHASE - c).
Proof.
  unfold rapidCaptures, seqZ. change (List.map ?f ?l) with (f <$> l).
  apply list_fmap_ext. intros _ k _. lia.
Qed.

Lemma captureLoop_step ps now st seqs next :
  captureLoop ps now st = (seqs, next) →
  0 ≤ captureCount st ≤ IMAGES_PER_PHASE →
  seqs = seqZ (captureCount st + 1) (Z.of_nat (length seqs))
  ∧ match next with
    | None =>
        captureCount st + Z.of_nat (length seqs) = IMAGES_PER_PHASE
        ∧ (IMAGES_PER_PHASE ≤ captureCount st ∨ ps + 10500 ≤ now)
    | Some st' =>
        captureCount st' = captureCount st + Z.of_nat (length seqs)
        ∧ captureCount st' ≤ IMAGES_PER_PHASE
        ∧ now < ps + 10500
        ∧ (length seqs ≤ 1)%nat
    end.
Proof.
  unfold captureLoop. cbv zeta. intros E Hc.
  set (st1 := if 500 <=? now - lastTimeUpdate st then _ else st) in E.
  assert (captureCount st1 = captureCount st) as Hst1
    by (unfold st1; by destruct (500 <=? now - lastTimeUpdate st)).
  rewrite Hst1 in E.
  destruct ((IMAGES_PER_PHASE <=? captureCount st)
            || (PHASE_DURATION_MS + 500 <=? now - ps)) eqn:Eend.
  - injection E as <- <-. rewrite rapidCaptures_seqZ, length_seqZ.
    unfold IMAGES_PER_PHASE, PHASE_DURATION_MS in *.
    rewrite Z2Nat.id by lia. split; [done|]. split; [lia|].
    apply orb_true_iff in Eend as [H|H]; apply Z.leb_le in H; lia.
  - apply orb_false_iff in Eend as [H1 H2].
    apply Z.leb_gt in H1, H2. unfold IMAGES_PER_PHASE, PHASE_DURATION_MS in *.
    destruct ((captureCount st <? _) && (100 <=? now - lastCaptureTime st)).
    + injection E as <- <-. cbn. split; [done|]. lia.
    + injection E as <- <-. cbn. rewrite Hst1. split; [done|]. lia.
Qed.

Lemma runFrames_counts ps frames : ∀ st seqs final,
  runFrames ps frames st = (seqs, final) →
  0 ≤ captureCount st ≤ IMAGES_PER_PHASE →
  seqs = seqZ (captureCount st + 1) (Z.of_nat (length seqs))
  ∧ match final with
    | None => captureCount st + Z.of_nat (length seqs) = IMAGES_PER_PHASE
    | Some st' =>
        captureCount st' = captureCount st + Z.of_nat (length seqs)
        ∧ captureCount st' ≤ IMAGES_PER_PHASE
        ∧ Forall (fun now => now < ps + 10500) frames
    end.
Proof.
  induction frames as [|now rest IH]; intros st seqs final E Hc; simpl in E.
  - injection E as <- <-. cbn. split; [done|]. split; [lia|]. split; [lia|constructor].
  - destruct (captureLoop ps now st) as [seqs1 [st1|]] eqn:E1.
    + destruct (captureLoop_step ps now st seqs1 (Some st1) E1 Hc)
        as (Hs1 & Hc1 & Hle1 & Hnow & _).
      destruct (runFrames ps rest st1) as [seqs2 final2] eqn:E2.
      injection E as <- <-.
      destruct (IH st1 seqs2 final2 E2 ltac:(lia)) as [Hs2 Hf2].
      rewrite List.length_app, Nat2Z.inj_add, seqZ_app by lia. split.
      * rewrite <- Hs1. f_equal. rewrite Hs2 at 1. f_equal. lia.
      * destruct final2 as [st2|].
        -- destruct Hf2 as (Hc2 & Hle2 & Hall). split; [lia|]. split; [done|].
           by constructor.
        -- lia.
    + injection E as <- <-.
      destruct (captureLoop_step ps now st seqs1 None E1 Hc) as (Hs1 & Hc1 & Hwhy).
      done.
Qed.

(** X22. A phase takes fifty captures, numbered 1 to 50 in order.  Whatever
    the times of the animation frames, the sequence numbers handed to
    [processCapture] are 1, 2, 3, ... without a gap or a repeat, never more
    than fifty; the loop ends, calling [handlePhaseComplete], only with all
    fifty taken, and it does end at the first frame 10500 ms or more into
    the phase, where it takes every missing capture at once.  Before that a
    frame takes at most one capture, number [k] no earlier than [200 * k]
    ms into the phase and at least 100 ms after the one before. *)
Theorem capture_loop_takes_fifty :
  ∀ (phaseStartTime startTime : Z) (frames : list Z)
    (seqs : list Z) (final : option LoopState),
    runFrames phaseStartTime frames (loopStart startTime) = (seqs, final) →
    seqs = seqZ 1 (Z.of_nat (length seqs))
    ∧ (length seqs ≤ 50)%nat
    ∧ (final = None → seqs = seqZ 1 50)
    ∧ (Exists (fun now => phaseStartTime + 10500 ≤ now) frames → final = None)
    ∧ (∀ now st,
         0 ≤ captureCount st ≤ 50 → phaseStartTime + 10500 ≤ now →
         captureLoop phaseStartTime now st =
           (seqZ (captureCount st + 1) (50 - captureCount st), None))
    ∧ (∀ now st taken st',
         captureLoop phaseStartTime now st = (taken, Some st') →
         taken = []
         ∨ (taken = [captureCount st + 1]
            ∧ 200 * (captureCount st + 1) ≤ now - phaseStartTime
            ∧ 100 ≤ now - lastCaptureTime st
            ∧ lastCaptureTime st' = now)).
Proof.
  intros ps t0 frames seqs final E.
  destruct (runFrames_counts ps frames (loopStart t0) seqs final E)
    as [Hs Hf]; [cbn; unfold IMAGES_PER_PHASE; lia|].
  cbn [captureCount loopStart] in Hs, Hf. unfold IMAGES_PER_PHASE in Hf.
  split; [exact Hs|]. split; [|split; [|split; [|split]]].
  - destruct final as [st|]; lia.
  - intros ->. rewrite Hs. f_equal. lia.
  - intros Hex. destruct final as [st|]; [|done].
    destruct Hf as (_ & _ & Hall). apply Exists_exists in Hex as (now & Hin & Hnow).
    rewrite Forall_forall in Hall. specialize (Hall now Hin). lia.
  - intros now st Hc Hnow. unfold captureLoop. cbv zeta.
    set (st1 := if 500 <=? now - lastTimeUpdate st then _ else st).
    assert (captureCount st1 = captureCount st) as ->
      by (unfold st1; by destruct (500 <=? now - lastTimeUpdate st)).
    assert ((PHASE_DURATION_MS + 500 <=? now - ps) = true) as ->
      by (apply Z.leb_le; unfold PHASE_DURATION_MS; lia).
    rewrite orb_true_r. by rewrite rapidCaptures_seqZ.
  - intros now st taken st'. unfold captureLoop. cbv zeta.
    set (st1 := if 500 <=? now - lastTimeUpdate st then _ else st).
    assert (captureCount st1 = captureCount st) as ->
      by (unfold st1; by destruct (500 <=? now - lastTimeUpdate st)).
    destruct ((IMAGES_PER_PHASE <=? captureCount st)
              || (PHASE_DURATION_MS + 500 <=? now - ps)); [done|].
    destruct ((captureCount st <? _) && (100 <=? now - lastCaptureTime st)) eqn:Ec.
    2:{ intros [= <- <-]. by left. }
    intros [= <- <-]. right. apply andb_true_iff in Ec as [Hlt Hgap].
    apply Z.ltb_lt in Hlt. apply Z.leb_le in Hgap.
    split; [done|]. split; [|done].
    set (q := (inject_Z (now - ps) / inject_Z PHASE_DURATION_MS
               * inject_Z IMAGES_PER_PHASE)%Q) in *.
    assert (inject_Z (captureCount st + 1) <= q)%Q as Hq.
    { apply Qle_trans with (inject_Z (Qfloor q)); [|apply Qfloor_le].
      rewrite <- Zle_Qle. lia. }
    assert (q == inject_Z (now - ps) / 200)%Q as Hq200.
    { unfold q, PHASE_DURATION_MS, IMAGES_PER_PHASE.
      change (inject_Z 10000) with 10000%Q. change (inject_Z 50) with 50%Q.
      field. }
    rewrite Hq200 in Hq.
    assert (inject_Z (200 * (captureCount st + 1)) <= inject_Z (now - ps))%Q as HQ.
    { rewrite inject_Z_mult. change (inject_Z 200) with 200%Q.
      apply Qle_shift_div_l in Hq || idtac.
      assert (inject_Z (now - ps) / 200 * 200 == inject_Z (now - ps))%Q as Hm
        by field.
      rewrite <- Hm. rewrite (Qmult_comm 200).
      apply Qmult_le_compat_r; [exact Hq|]. vm_compute. discriminate. }
    by rewrite <- Zle_Qle in HQ.
Qed.

Lemma capture_loop_takes_fifty_witness :
  [1; 2] = seqZ 1 (Z.of_nat (length [1; 2]))
  ∧ (length [1; 2] ≤ 50)%nat.
Proof.
  assert (runFrames 1000 [1016; 1210; 1226; 1405] (loopStart 1000)
          = ([1; 2], Some {| captureCount := 2; lastCaptureTime := 1405;
                             lastTimeUpdate := 1000 |})) as E
    by (vm_compute; reflexivity).
  destruct (capture_loop_takes_fifty 1000 1000 [1016; 1210; 1226; 1405] _ _ E)
    as (H1 & H2 & _).
  by split.
Defined.

(** X23. A session goes through every label twice, phase A and then phase
    B, in the order of [labels], ['no_face'] and ['with_cellphone']
    included: with [n] labels (6, or 7 with the cellphone label) the tags of
    the first [2 n] phases are those pairs in order, the stage after each
    of the first [2 n - 1] phases is ['countdown'], and only the [2 n]-th
    [handlePhaseComplete] sets the stage to ['complete']. *)
Theorem session_runs_every_label_twice :
  ∀ withCellphone : bool,
    length (labels withCellphone) = (if withCellphone then 7 else 6)%nat
    ∧ phaseTags withCellphone (2 * length (labels withCellphone))
        (startSession initialSession) =
        List.map Some
          (flat_map (fun l => [(l, PhaseA); (l, PhaseB)]) (labels withCellphone))
    ∧ (∀ n, (n < 2 * length (labels withCellphone))%nat →
         stage (Nat.iter n (phaseRound withCellphone) (startSession initialSession))
           = stage_countdown)
    ∧ stage (Nat.iter (2 * length (labels withCellphone))
               (phaseRound withCellphone) (startSession initialSession))
        = stage_complete.
Proof.
  intros [|]; (split; [reflexivity|]); (split; [reflexivity|]);
    (split; [|reflexivity]); intros n Hn; cbn in Hn;
    do 14 (destruct n as [|n]; [first [reflexivity|exfalso; lia]|]); lia.
Qed.

(** ** The upload route and [uploadItem] *)

Lemma uploadItem_errorResponse status message retryable :
  uploadItem (delivered (errorResponse status message retryable)) =
    if status =? 429 then upload_rate_limit else upload_error.
Proof.
  unfold uploadItem, delivered, errorResponse. cbn.
  destruct (status =? 429); [done|].
  destruct ((200 <=? status) && (status <=? 299)); cbn; [|done].
  by destruct retryable.
Qed.

Lemma validateMetadata_truthy metadata :
  validateMetadata metadata = true → truthy metadata = true.
Proof. by destruct metadata as [[]|]. Qed.

Ltac wrong_status := let H := fresh in intros H; cbn in H; lia.

Lemma bodyResponse_status env body :
  (resp_status (bodyResponse env body) = 200
   ↔ env_uploadSucceeds env = true
     ∧ ∃ image metadata,
         body = body_object (Some image) metadata
         ∧ image ≠ ""
         ∧ Z.of_nat (String.length image) ≤ MAX_BODY_SIZE
         ∧ validateMetadata metadata = true)
  ∧ (resp_status (bodyResponse env body) ≠ 200 →
     ∃ status message retryable,
       bodyResponse env body = errorResponse status message retryable
       ∧ (status = 400 ∨ status = 413 ∨ status = 500)).
Proof.
  destruct body as [| |image metadata]; cbn [bodyResponse].
  - split; [split; [wrong_status|by intros (_ & ? & ? & ? & _)]|].
    intros _. eexists _, _, _. split; [done|]. by left.
  - split; [split; [wrong_status|by intros (_ & ? & ? & ? & _)]|].
    intros _. eexists _, _, _. split; [done|]. by right; right.
  - destruct (negb (truthy (JString <$> image)) || negb (truthy metadata)) eqn:E1.
    { split.
      - split; [wrong_status|]. intros (_ & i & m & [= -> ->] & Hne & _ & Hv).
        apply validateMetadata_truthy in Hv. apply String.eqb_neq in Hne.
        cbn in E1. rewrite Hne, Hv in E1. cbn in E1. discriminate E1.
      - intros _. eexists _, _, _. split; [done|]. by left. }
    apply orb_false_iff in E1 as [Hi Hm].
    apply negb_false_iff in Hi, Hm.
    destruct image as [i|]; [|done]. cbn in Hi.
    change (default "" (Some i)) with i.
    apply negb_true_iff, String.eqb_neq in Hi.
    destruct (MAX_BODY_SIZE <? Z.of_nat (String.length i)) eqn:E2.
    { apply Z.ltb_lt in E2. split.
      - split; [wrong_status|]. intros (_ & ? & ? & [= <- <-] & _ & Hle & _). lia.
      - intros _. eexists _, _, _. split; [done|]. by right; left. }
    apply Z.ltb_ge in E2.
    destruct (validateMetadata metadata) eqn:E3; cbn [negb].
    2:{ split.
        - split; [wrong_status|]. intros (_ & ? & ? & [= <- <-] & _ & _ & Hv). congruence.
        - intros _. eexists _, _, _. split; [done|]. by left. }
    destruct (env_uploadSucceeds env) eqn:E4; cbn [negb].
    + split; [|done]. split; [|done]. intros _. split; [done|].
      by exists i, metadata.
    + split.
      * split; [wrong_status|]. intros [? _]. congruence.
      * intros _. eexists _, _, _. split; [done|]. by right; right.
Qed.

Lemma handleBody_success env request :
  resp_status (handleBody env request) = 200 →
  uploadItem (delivered (handleBody env request)) = upload_success.
Proof.
  unfold handleBody.
  destruct (contentLengthTooLarge request); [wrong_status|].
  destruct (req_body request) as [| |image metadata]; cbn [bodyResponse];
    try wrong_status.
  repeat (match goal with
          | |- context [if ?c then _ else _] => destruct c
          end; try wrong_status).
  done.
Qed.

Lemma handleBody_status env request :
  (resp_status (handleBody env request) = 200
   ↔ bodyAccepted request ∧ env_uploadSucceeds env = true)
  ∧ (resp_status (handleBody env request) ≠ 200 →
     ∃ status message retryable,
       handleBody env request = errorResponse status message retryable
       ∧ (status = 400 ∨ status = 413 ∨ status = 500)).
Proof.
  unfold handleBody, bodyAccepted.
  destruct (contentLengthTooLarge request).
  - split; [split; [wrong_status|by intros [[? _] _]]|].
    intros _. eexists _, _, _. split; [done|]. by right; left.
  - destruct (bodyResponse_status env (req_body request)) as [H200 Herr].
    split; [|exact Herr]. rewrite H200. tauto.
Qed.

(** X24. The answer of [POST] and what [uploadItem] makes of it.  The
    checks come in the order 503 (Cloudinary not configured), 401 (no valid
    token or key), 429 (the limiter), then the checks of the body; the
    limiter is asked, and the budget of the client charged, only for a
    request that passed the first two, and then whatever the body is.
    [uploadItem] returns ['rate_limit'] exactly for a 429, ['success']
    exactly for a 200, which takes a body that passes every check and a
    successful upload to Cloudinary, and ['error'] for every other answer,
    a 400, 401, 413 or 503 that a retry cannot cure included. *)
Theorem POST_and_uploadItem :
  ∀ (env : RouteEnv) (request : UploadRequest)
    (rateLimitMap : gmap string UploadRoute.RateLimitEntry),
    (resp_status (POST env request rateLimitMap).1 = 503
     ↔ env_configured env = false)
    ∧ (resp_status (POST env request rateLimitMap).1 = 401
       ↔ env_configured env = true ∧ authorized env request = false)
    ∧ (resp_status (POST env request rateLimitMap).1 = 429
       ↔ env_configured env = true ∧ authorized env request = true
         ∧ UploadRoute.limited (rateChecked env request rateLimitMap).1 = true)
    ∧ (resp_status (POST env request rateLimitMap).1 = 200
       ↔ env_configured env = true ∧ authorized env request = true
         ∧ UploadRoute.limited (rateChecked env request rateLimitMap).1 = false
         ∧ bodyAccepted request ∧ env_uploadSucceeds env = true)
    ∧ (POST env request rateLimitMap).2 =
        (if env_configured env && authorized env request
         then (rateChecked env request rateLimitMap).2 else rateLimitMap)
    ∧ uploadItem (delivered (POST env request rateLimitMap).1) =
        (if resp_status (POST env request rateLimitMap).1 =? 429
         then upload_rate_limit
         else if resp_status (POST env request rateLimitMap).1 =? 200
              then upload_success else upload_error).
Proof.
  intros env request m. unfold POST, authorized, rateChecked.
  destruct (env_configured env); cbn [negb andb].
  2:{ repeat split; try wrong_status; try done; intros H; try congruence;
        destruct H; congruence. }
  destruct (validateAuth _ _ _); cbn [negb].
  2:{ repeat split; try wrong_status; try done; intros H; try congruence;
        destruct H as (? & ? & ?); congruence. }
  destruct (UploadRoute.isRateLimited _ _ _ _ m) as [check m'] eqn:Ec.
  cbn [fst snd].
  destruct (UploadRoute.limited check) eqn:El; cbn [fst snd].
  { repeat split; try wrong_status; try done; intros H; try congruence;
      destruct H as (? & ? & ? & ?); congruence. }
  destruct (handleBody_status env request) as [H200 Herr].
  destruct (decide (resp_status (handleBody env request) = 200)) as [E|E].
  - rewrite E. repeat split; try wrong_status; try done;
      try (intros H; destruct H as (? & ? & ?); congruence);
      try (intros _; by apply H200); try (by apply H200).
    rewrite (handleBody_success _ _ E). unfold delivered in *. done.
  - destruct (Herr E) as (status & message & retryable & Hh & Hst).
    rewrite Hh in E |- *.
    rewrite uploadItem_errorResponse. cbn [resp_status errorResponse].
    assert ((status =? 429) = false) as -> by (apply Z.eqb_neq; lia).
    assert ((status =? 200) = false) as -> by (apply Z.eqb_neq; lia).
    cbn [resp_status errorResponse] in E.
    split; [split; [lia|done]|].
    split; [split; [lia|by intros [_ ?]]|].
    split; [split; [lia|by intros (_ & _ & ?)]|].
    split; [|done].
    split; [lia|]. intros (_ & _ & _ & Hb & Hu). destruct E.
    change status with (resp_status (errorResponse status message retryable)).
    rewrite <- Hh. by apply H200.
Qed.

Lemma LabelType_str_valid l :
  LabelType_str l ≠ "" ∧ LabelType_str l ∈ VALID_LABELS.
Proof. destruct l; (split; [done|]); unfold VALID_LABELS; set_solver. Qed.

Lemma validateMetadata_metadataJson :
  ∀ m : CaptureMetadata,
    validateMetadata (Some (metadataJson m)) = true
    ↔ 0 ≤ seq m ≤ 1000
      ∧ timestamp_iso m ≠ ""
      ∧ session_id m ≠ ""
      ∧ (String.length (session_id m) ≤ 50)%nat.
Proof.
  intros m. unfold validateMetadata, metadataJson, property, lookupField.
  cbn [List.rev app List.find fst snd String.eqb Ascii.eqb Bool.eqb fmap
       option_fmap option_map].
  destruct (LabelType_str_valid (label m)) as [Hne Hin].
  apply String.eqb_neq in Hne. rewrite Hne.
  rewrite (bool_decide_eq_true_2 _ Hin).
  assert ((String.eqb (PhaseTag_str (phase m)) "A"
           || String.eqb (PhaseTag_str (phase m)) "B") = true) as ->
    by (by destruct (phase m)).
  cbn [negb andb].
  rewrite !andb_true_iff, !negb_true_iff, !String.eqb_neq,
    Nat.leb_le, !Qle_bool_iff.
  change 0%Q with (inject_Z 0). change 1000%Q with (inject_Z 1000).
  rewrite <- !Zle_Qle. tauto.
Qed.

(** X25. [validateMetadata] on the metadata that the client writes: the
    label and the phase of a typed capture always pass, [ua],
    [camera_facing] and [device_platform] are not looked at, and what is
    left to check is the range of [seq], from 0 to 1000, a timestamp that
    is not empty and a session id of one to fifty characters. *)
Theorem validateMetadata_of_capture :
  ∀ m : CaptureMetadata,
    validateMetadata (Some (metadataJson m)) = true
    ↔ 0 ≤ seq m ≤ 1000
      ∧ timestamp_iso m ≠ ""
      ∧ session_id m ≠ ""
      ∧ (String.length (session_id m) ≤ 50)%nat.
Proof. exact validateMetadata_metadataJson. Qed.

Lemma length_append (a b : string) :
  String.length (a +:+ b) = (String.length a + String.length b)%nat.
Proof. induction a as [|c a IH]; simpl; [done|]. by rewrite IH. Qed.

Lemma escape_length s : (String.length s ≤ String.length (escape s))%nat.
Proof.
  induction s as [|c s IH]; simpl; [done|].
  rewrite length_append.
  assert (1 ≤ String.length (escapeChar c))%nat; [|lia].
  unfold escapeChar. repeat case_match; simpl; lia.
Qed.

Lemma length_stringifyString s :
  String.length (stringifyString s) = (String.length (escape s) + 2)%nat.
Proof. unfold stringifyString. simpl. rewrite length_append. simpl. lia. Qed.

Lemma bodyLength_image item :
  Z.of_nat (String.length (imageBase64 item)) + 100 < bodyLength item.
Proof.
  unfold bodyLength, stringifyBody, stringifyMetadata, member.
  generalize (stringifyString (LabelType_str (label (metadata item))))
    (stringifyString (PhaseTag_str (phase (metadata item))))
    (pretty (seq (metadata item)))
    (stringifyString (timestamp_iso (metadata item)))
    (stringifyString (ua (metadata item)))
    (stringifyString (session_id (metadata item)))
    (stringifyString (match camera_facing (metadata item) with
                      | facing_user => "user"
                      | facing_environment => "environment"
                      end))
    (stringifyString (device_platform (metadata item))).
  intros v1 v2 v3 v4 v5 v6 v7 v8.
  pose proof (escape_length (imageBase64 item)) as Himg.
  rewrite !length_append. cbn [String.length].
  rewrite (length_stringifyString (imageBase64 item)).
  change (String.length (stringifyString "imageBase64")) with 13%nat.
  change (String.length (stringifyString "metadata")) with 10%nat.
  change (String.length (stringifyString "label")) with 7%nat.
  change (String.length (stringifyString "phase")) with 7%nat.
  change (String.length (stringifyString "seq")) with 5%nat.
  change (String.length (stringifyString "timestamp_iso")) with 15%nat.
  change (String.length (stringifyString "ua")) with 4%nat.
  change (String.length (stringifyString "session_id")) with 12%nat.
  change (String.length (stringifyString "camera_facing")) with 15%nat.
  change (String.length (stringifyString "device_platform")) with 17%nat.
  lia.
Qed.

Lemma contentLength_of_body apiKey item ip :
  contentLengthTooLarge (clientRequest apiKey item ip)
  = (MAX_BODY_SIZE <? bodyLength item).
Proof.
  unfold contentLengthTooLarge, clientRequest. cbn [req_content_length].
  pose proof (bodyLength_image item) as Hpos.
  assert (0 < bodyLength item) as Hn by lia.
  pose proof (parseInt10_pretty _ Hn) as Hp. rewrite Hp.
  destruct (String.eqb_spec (pretty (bodyLength item)) "") as [E|E]; [|done].
  rewrite E in Hp. discriminate Hp.
Qed.

(** X26. A capture of the session and the route.  The metadata that
    [processCapture] writes in the capture loop, with a [seq] from 1 to 50,
    a session id of one to fifty characters and a timestamp that is not
    empty, passes [validateMetadata].  The request that [uploadItem] sends
    for it carries the length of its JSON body in the [content-length]
    header, and that body is more than 100 bytes longer than the image.
    On a route with Cloudinary configured, with a token that is not empty
    and that the server verifies, an image that is not empty and a client
    within its budget, the answer is 413 exactly when the body is longer
    than 2 MB, which an image within 100 characters of the limit always
    brings about; and [uploadItem] returns ['success'] exactly when the
    body is within 2 MB and the upload to Cloudinary succeeds, ['error']
    otherwise. *)
Theorem session_capture_accepted_iff_body_fits :
  ∀ (env : RouteEnv) (withCellphone : bool) (s : Session) (seq_ : Z)
    (sessionId timestamp userAgent platform token : string)
    (item : CaptureItem) (ip : option string)
    (rateLimitMap : gmap string UploadRoute.RateLimitEntry),
    captureMetadata withCellphone s seq_ sessionId timestamp userAgent platform
      = Some (metadata item) →
    1 ≤ seq_ ≤ IMAGES_PER_PHASE →
    sessionId ≠ "" → (String.length sessionId ≤ 50)%nat → timestamp ≠ "" →
    imageBase64 item ≠ "" →
    env_configured env = true →
    token ≠ "" → env_verifyUploadToken env token = true →
    UploadRoute.limited
      (rateChecked env (clientRequest token item ip) rateLimitMap).1 = false →
    validateMetadata (Some (metadataJson (metadata item))) = true
    ∧ Z.of_nat (String.length (imageBase64 item)) + 100 < bodyLength item
    ∧ (resp_status (POST env (clientRequest token item ip) rateLimitMap).1 = 413
       ↔ MAX_BODY_SIZE < bodyLength item)
    ∧ uploadItem
        (delivered (POST env (clientRequest token item ip) rateLimitMap).1) =
        (if (bodyLength item <=? MAX_BODY_SIZE) && env_uploadSucceeds env
         then upload_success else upload_error).
Proof.
  intros env wc s seq_ sid ts userAgent platform token item ip m
    Hm Hseq Hsid Hlen Hts Himg Hconf Htok Hver Hlim.
  assert (validateMetadata (Some (metadataJson (metadata item))) = true) as Hv.
  { apply validateMetadata_metadataJson.
    unfold captureMetadata in Hm.
    destruct (labels wc !! currentLabelIndex s) as [l|]; [|done].
    injection Hm as <-. cbn. unfold IMAGES_PER_PHASE in Hseq.
    repeat split; try done; lia. }
  pose proof (bodyLength_image item) as Hbody.
  split; [done|]. split; [done|].
  unfold rateChecked in Hlim. unfold POST. rewrite Hconf. cbn [negb].
  assert (validateAuth (env_verifyUploadToken env) (env_API_KEY env)
            (req_api_key (clientRequest token item ip)) = true) as ->.
  { cbn. apply String.eqb_neq in Htok. by rewrite Htok, Hver. }
  cbn [negb].
  destruct (UploadRoute.isRateLimited _ _ _ _ m) as [check m'].
  cbn [fst] in Hlim. rewrite Hlim. cbn [fst].
  unfold handleBody. rewrite contentLength_of_body.
  destruct (MAX_BODY_SIZE <? bodyLength item) eqn:Ebig.
  - apply Z.ltb_lt in Ebig.
    assert ((bodyLength item <=? MAX_BODY_SIZE) = false) as ->
      by (apply Z.leb_gt; lia).
    split; [by split|]. by rewrite uploadItem_errorResponse.
  - apply Z.ltb_ge in Ebig.
    assert ((bodyLength item <=? MAX_BODY_SIZE) = true) as ->
      by (apply Z.leb_le; lia).
    cbn [clientRequest req_body bodyResponse andb].
    assert (truthy (JString <$> Some (imageBase64 item)) = true) as ->.
    { cbn. by apply negb_true_iff, String.eqb_neq. }
    assert (truthy (Some (metadataJson (metadata item))) = true) as ->
      by reflexivity.
    cbn [negb orb]. change (default "" (Some (imageBase64 item)))
      with (imageBase64 item).
    assert ((MAX_BODY_SIZE <? Z.of_nat (String.length (imageBase64 item))) = false)
      as -> by (apply Z.ltb_ge; lia).
    rewrite Hv. cbn [negb].
    destruct (env_uploadSucceeds env); cbn [negb].
    + split; [|done]. split; [intros H; cbn in H; lia|lia].
    + split; [|by rewrite uploadItem_errorResponse].
      split; [intros H; cbn in H; lia|lia].
Qed.

Lemma session_capture_accepted_iff_body_fits_witness :
  validateMetadata (Some (metadataJson (metadata sampleCapture))) = true
  ∧ bodyLength sampleCapture = 266
  ∧ uploadItem
      (delivered (POST sampleEnv
                    (clientRequest "1735689600000.ab12" sampleCapture
                       (Some "203.0.113.7")) ∅).1) =
      upload_success.
Proof.
  assert (captureMetadata false (startCapturing initialSession) 1 sampleSession
            "2025-01-01T00:00:00.000Z" "Mozilla/5.0" "linux"
          = Some (metadata sampleCapture)) as H1 by reflexivity.
  assert (1 ≤ 1 ≤ IMAGES_PER_PHASE) as H2 by (unfold IMAGES_PER_PHASE; lia).
  assert (sampleSession ≠ "") as H3 by done.
  assert (String.length sampleSession ≤ 50)%nat as H4 by (vm_compute; lia).
  assert ("2025-01-01T00:00:00.000Z" ≠ "") as H5 by done.
  assert (imageBase64 sampleCapture ≠ "") as H6 by done.
  assert (env_configured sampleEnv = true) as H7 by reflexivity.
  assert ("1735689600000.ab12" ≠ "") as H8 by done.
  assert (env_verifyUploadToken sampleEnv "1735689600000.ab12" = true)
    as H9 by reflexivity.
  assert (UploadRoute.limited
            (rateChecked sampleEnv
               (clientRequest "1735689600000.ab12" sampleCapture
                  (Some "203.0.113.7")) ∅).1 = false)
    as H10 by (vm_compute; reflexivity).
  assert (bodyLength sampleCapture = 266) as Hb by (vm_compute; reflexivity).
  destruct (session_capture_accepted_iff_body_fits sampleEnv false
              (startCapturing initialSession) 1 sampleSession
              "2025-01-01T00:00:00.000Z" "Mozilla/5.0" "linux"
              "1735689600000.ab12" sampleCapture (Some "203.0.113.7") ∅
              H1 H2 H3 H4 H5 H6 H7 H8 H9 H10) as (Hv & _ & _ & Hup).
  split; [exact Hv|]. split; [exact Hb|].
  rewrite Hup, Hb. reflexivity.
Defined.
